(** * vite-plugin-functions-mixins: the expansion engine, embedded and verified

    A shallow embedding of [plugin/src/index.ts] (and of [mergeRanges] from the
    build-folder variant of the same file).  Text is a sequence of code units;
    the model keeps the units below 256, which is where every character the
    program names lies.  Offsets into a text are natural numbers, as
    [match.index] and [String.prototype.slice] produce and take them here.
    Exceptions are values of an error type threaded through a small monad. *)

From Stdlib Require Import ZArith Ascii String List Lia Bool Sorting.Sorted.
From stdpp Require Import gmap strings list.
Import ListNotations.
Open Scope list_scope.

(** ** Text *)

Abbreviation text := (list ascii).

(** A string literal as a text. *)
Definition txt (s : string) : text := list_ascii_of_string s.

Definition chr_eqb (a b : ascii) : bool := Ascii.eqb a b.

(** [\s] and the characters [String.prototype.trim] removes: TAB, LF, VT, FF,
    CR, SPACE and NBSP (the members of the ECMAScript WhiteSpace and
    LineTerminator sets below 256). *)
Definition is_space (c : ascii) : bool :=
  let n := nat_of_ascii c in
  ((9 <=? n) && (n <=? 13)) || (n =? 32) || (n =? 160).

(** [\w]: [A-Za-z0-9_]. *)
Definition is_word (c : ascii) : bool :=
  let n := nat_of_ascii c in
  ((65 <=? n) && (n <=? 90)) || ((97 <=? n) && (n <=? 122))
  || ((48 <=? n) && (n <=? 57)) || (n =? 95).

(** [[\w-]] *)
Definition is_ident (c : ascii) : bool := is_word c || chr_eqb c "-".

Definition is_not (x : ascii) (c : ascii) : bool := negb (chr_eqb c x).

Definition newline : ascii := "010".

(** [s.slice(a, b)] and [s.slice(a)] for offsets [a], [b] that are not
    negative: both ends are clamped to the length, and the result is empty
    when [b <= a]. *)
Definition slice (s : text) (a b : nat) : text := take (b - a) (drop a s).
Definition slice_from (s : text) (a : nat) : text := drop a s.

Fixpoint drop_space (s : text) : text :=
  match s with
  | c :: s' => if is_space c then drop_space s' else s
  | [] => []
  end.

(** [s.trim()] *)
Definition trim (s : text) : text := rev (drop_space (rev (drop_space s))).

Fixpoint is_prefix (p s : text) : bool :=
  match p, s with
  | [], _ => true
  | a :: p', b :: s' => chr_eqb a b && is_prefix p' s'
  | _ :: _, [] => false
  end.

Definition text_eqb (a b : text) : bool := bool_decide (a = b).

(** [s.indexOf(c)] for a one-character needle; [None] stands for [-1]. *)
Fixpoint indexOf (s : text) (c : ascii) : option nat :=
  match s with
  | [] => None
  | x :: s' => if chr_eqb x c then Some 0 else option_map S (indexOf s' c)
  end.

(** ** Exceptions *)

Inductive error : Type :=
| UnmatchedBrace (start : nat)   (* Error(`Unmatched brace at position ${start}`) *)
| MissingResult.                 (* Error(`Missing "result:" in function body`) *)

Inductive outcome (A : Type) : Type :=
| Ok (a : A)
| Err (e : error).
Arguments Ok {A} a.
Arguments Err {A} e.

#[global] Instance result_bind : MBind outcome := fun A B f m =>
  match m with
  | Ok a => f a
  | Err e => Err e
  end.

(** ** Regular expressions

    The fragment of ECMAScript patterns the program uses, matched by
    backtracking in the order the language prescribes: a greedy quantifier
    tries its longest run first and gives characters back one at a time, an
    alternative or an optional group is tried before what follows it is tried
    without it.  Every quantified atom of the program is a character class,
    so [Star] and [Plus] take a class. *)

Inductive regex : Type :=
| Lit (l : text)                 (* a literal run of characters *)
| Cls (p : ascii -> bool)        (* one character of the class [p] *)
| Star (p : ascii -> bool)       (* [p]*  *)
| Plus (p : ascii -> bool)       (* [p]+  *)
| Seq (r1 r2 : regex)            (* r1 r2 *)
| Alt (r1 r2 : regex)            (* r1|r2 *)
| Opt (r : regex)                (* (?:r)? *)
| Cap (n : nat) (r : regex)      (* the n-th capture group (r) *)
| Eoi.                           (* $ (no m flag) *)

(** Captures: [caps n] is the text of group [n], [None] for undefined. *)
Definition captures := nat -> option text.
Definition no_caps : captures := fun _ => None.
Definition set_cap (n : nat) (t : text) (c : captures) : captures :=
  fun k => if k =? n then Some t else c k.

(** One match: offset, matched text ([match[0]]) and groups. *)
Record rmatch : Type := mkMatch {
  m_index : nat;
  m_full : text;
  m_caps : captures
}.

Section Engine.
Context {R : Type}.

(** Greedy [p]* from [s], having consumed [i] characters of the match. *)
Fixpoint star_loop (p : ascii -> bool) (s : text) (i : nat)
    (k : text -> nat -> option R) : option R :=
  match s with
  | c :: s' =>
      if p c then
        match star_loop p s' (S i) k with
        | Some r => Some r
        | None => k s i
        end
      else k s i
  | [] => k s i
  end.

(** [rx r s i caps k]: match [r] at the head of [s], [i] characters into the
    match, then continue with [k] on what is left. *)
Fixpoint rx (r : regex) (s : text) (i : nat) (caps : captures)
    (k : text -> nat -> captures -> option R) : option R :=
  match r with
  | Lit l =>
      if is_prefix l s then k (drop (length l) s) (i + length l) caps
      else None
  | Cls p =>
      match s with
      | c :: s' => if p c then k s' (S i) caps else None
      | [] => None
      end
  | Star p => star_loop p s i (fun s' i' => k s' i' caps)
  | Plus p =>
      match s with
      | c :: s' =>
          if p c then star_loop p s' (S i) (fun s' i' => k s' i' caps)
          else None
      | [] => None
      end
  | Seq r1 r2 => rx r1 s i caps (fun s' i' caps' => rx r2 s' i' caps' k)
  | Alt r1 r2 =>
      match rx r1 s i caps k with
      | Some x => Some x
      | None => rx r2 s i caps k
      end
  | Opt r' =>
      match rx r' s i caps
              (fun s' i' caps' => if i' =? i then None else k s' i' caps') with
      | Some x => Some x
      | None => k s i caps
      end
  | Cap n r' =>
      rx r' s i caps (fun s' i' caps' => k s' i' (set_cap n (take (i' - i) s) caps'))
  | Eoi => match s with [] => k s i caps | _ :: _ => None end
  end.
End Engine.

(** A match of [r] that starts at the head of [s]: its length and groups. *)
Definition match_here (r : regex) (s : text) : option (nat * captures) :=
  rx r s 0 no_caps (fun _ n caps => Some (n, caps)).

(** [regex.exec] scanning forward from the head of [s], which is offset [idx]
    of the whole text: the leftmost match. *)
Fixpoint search (r : regex) (s : text) (idx : nat) : option rmatch :=
  match match_here r s with
  | Some (n, caps) => Some (mkMatch idx (take n s) caps)
  | None =>
      match s with
      | [] => None
      | _ :: s' => search r s' (S idx)
      end
  end.

(** [s.match(r)] for a pattern without the g flag. *)
Definition str_match (r : regex) (s : text) : option rmatch := search r s 0.

(** [s.matchAll(r)] for a pattern with the g flag: the successive matches,
    each search resuming at the end of the previous match (one character
    later when that match was empty).  [skip] counts the characters of the
    last match still to pass over. *)
Fixpoint matchAll_from (r : regex) (s : text) (idx skip : nat) : list rmatch :=
  match skip with
  | S skip' =>
      match s with
      | [] => []
      | _ :: s' => matchAll_from r s' (S idx) skip'
      end
  | O =>
      match match_here r s with
      | Some (n, caps) =>
          mkMatch idx (take n s) caps ::
          match s with
          | [] => []
          | _ :: s' => matchAll_from r s' (S idx) (Nat.pred n)
          end
      | None =>
          match s with
          | [] => []
          | _ :: s' => matchAll_from r s' (S idx) 0
          end
      end
  end.

Definition matchAll (r : regex) (s : text) : list rmatch := matchAll_from r s 0 0.

(** ** Parsing utilities *)

Definition is_open (c : ascii) : bool :=
  chr_eqb c "(" || chr_eqb c "{" || chr_eqb c "[".
Definition is_close (c : ascii) : bool :=
  chr_eqb c ")" || chr_eqb c "}" || chr_eqb c "]".

(** The depth after reading [c] at depth [depth]. *)
Definition bracket_step (depth : Z) (c : ascii) : Z :=
  if is_open c then (depth + 1)%Z
  else if is_close c then (depth - 1)%Z
  else depth.

(** The loop of [findMatchingBrace]: [rest] is [code] from offset [i] on. *)
Fixpoint findMatchingBrace_loop (rest : text) (i : nat) (depth : Z) : option nat :=
  match rest with
  | [] => None
  | c :: rest' =>
      let depth' := bracket_step depth c in
      if (depth' =? 0)%Z then Some i
      else findMatchingBrace_loop rest' (S i) depth'
  end.

Definition findMatchingBrace (code : text) (start : nat) : outcome nat :=
  match findMatchingBrace_loop (drop start code) start 1 with
  | Some i => Ok i
  | None => Err (UnmatchedBrace start)
  end.

(** The loop of [splitByComma] over the characters still to read; [parts] is
    kept in order. *)
Fixpoint splitByComma_loop (str : text) (parts : list text) (current : text)
    (depth : Z) : list text :=
  match str with
  | [] =>
      match trim current with
      | [] => parts
      | t => parts ++ [t]
      end
  | char :: str' =>
      let depth' := bracket_step depth char in
      if chr_eqb char "," && (depth' =? 0)%Z
      then splitByComma_loop str' (parts ++ [trim current]) [] depth'
      else splitByComma_loop str' parts (current ++ [char]) depth'
  end.

Definition splitByComma (str : text) : list text :=
  splitByComma_loop str [] [] 0.

(** ** Patterns of the program

    Each pattern is quoted above its definition with blanks between its
    atoms. *)

(** [r1 r2 ... rn] *)
Fixpoint cat (rs : list regex) : regex :=
  match rs with
  | [] => Lit []
  | [r] => r
  | r :: rs' => Seq r (cat rs')
  end.

(** The number of capture groups of a pattern. *)
Fixpoint ngroups (r : regex) : nat :=
  match r with
  | Seq r1 r2 | Alt r1 r2 => ngroups r1 + ngroups r2
  | Opt r' => ngroups r'
  | Cap _ r' => S (ngroups r')
  | _ => 0
  end.

(** [--[\w-]+] *)
Definition ident_re : regex := Seq (Lit (txt "--")) (Plus is_ident).

(** /^(--[\w-]+)/ ; the caret pins the match to offset 0, see
    [str_match_start]. *)
Definition nameRegex : regex := Cap 1 ident_re.

(** /result \s* : \s* ([^;]+) (?:;|$)/ *)
Definition resultRegex : regex :=
  cat [Lit (txt "result"); Star is_space; Lit (txt ":"); Star is_space;
       Cap 1 (Plus (is_not ";")); Alt (Lit (txt ";")) Eoi].

(** /kw\( \s* (--[\w-]+) \s* (?:, \s* ([^)]+) )? \s* \)/g for [kw] one of [var],
    [env]. *)
Definition refRegex (kw : string) : regex :=
  cat [Lit (txt kw ++ txt "("); Star is_space; Cap 1 ident_re; Star is_space;
       Opt (cat [Lit (txt ","); Star is_space; Cap 2 (Plus (is_not ")"))]);
       Star is_space; Lit (txt ")")].

(** /@function \s+ (--[\w-]+) \s* \( ([^)]* ) \) (?: \s* returns \s* [^{]+ )? \s* \{/g *)
Definition functionRegex : regex :=
  cat [Lit (txt "@function"); Plus is_space; Cap 1 ident_re; Star is_space;
       Lit (txt "("); Cap 2 (Star (is_not ")")); Lit (txt ")");
       Opt (cat [Star is_space; Lit (txt "returns"); Star is_space;
                 Plus (is_not "{")]);
       Star is_space; Lit (txt "{")].

(** /@mixin \s+ (--[\w-]+) \s* \( ([^)]* ) \) \s* \{/g *)
Definition mixinRegex : regex :=
  cat [Lit (txt "@mixin"); Plus is_space; Cap 1 ident_re; Star is_space;
       Lit (txt "("); Cap 2 (Star (is_not ")")); Lit (txt ")");
       Star is_space; Lit (txt "{")].

(** /(--[\w-]+) \(/g *)
Definition callRegex : regex := cat [Cap 1 ident_re; Lit (txt "(")].

(** /@apply \s+ (--[\w-]+) (?: \s* \( ([^)]* ) \) )? \s* (?: \{ ([^}]* ) \} \s* ;? | ; )/g *)
Definition applyRegex : regex :=
  cat [Lit (txt "@apply"); Plus is_space; Cap 1 ident_re;
       Opt (cat [Star is_space; Lit (txt "("); Cap 2 (Star (is_not ")"));
                 Lit (txt ")")]);
       Star is_space;
       Alt (cat [Lit (txt "{"); Cap 3 (Star (is_not "}")); Lit (txt "}");
                 Star is_space; Opt (Lit (txt ";"))])
           (Lit (txt ";"))].

(** /@contents \s* (?: \{ [^}]* \} )? \s* ;?/g *)
Definition contentsAnyRegex : regex :=
  cat [Lit (txt "@contents"); Star is_space;
       Opt (cat [Lit (txt "{"); Star (is_not "}"); Lit (txt "}")]);
       Star is_space; Opt (Lit (txt ";"))].

(** /@contents \s* \{ ([^}]* ) \} \s* ;?/g *)
Definition contentsDefaultRegex : regex :=
  cat [Lit (txt "@contents"); Star is_space; Lit (txt "{");
       Cap 1 (Star (is_not "}")); Lit (txt "}"); Star is_space;
       Opt (Lit (txt ";"))].

(** /@contents \s* ;?/g *)
Definition contentsBareRegex : regex :=
  cat [Lit (txt "@contents"); Star is_space; Opt (Lit (txt ";"))].

(** /[^\n]/g *)
Definition notNewlineRegex : regex := Cls (is_not newline).

(** ** [String.prototype.replace] with a g pattern *)

(** [s.match(r)] for a pattern that opens with [^]. *)
Definition str_match_start (r : regex) (s : text) : option rmatch :=
  match match_here r s with
  | Some (n, caps) => Some (mkMatch 0 (take n s) caps)
  | None => None
  end.

Definition m_end (m : rmatch) : nat := m_index m + length (m_full m).

(** The text between and after the matches is kept, each match gives way to
    its replacement. *)
Fixpoint splice (s : text) (pos : nat) (ms : list rmatch)
    (repl : rmatch -> text) : text :=
  match ms with
  | [] => slice_from s pos
  | m :: ms' => slice s pos (m_index m) ++ repl m ++ splice s (m_end m) ms' repl
  end.

(** [s.replace(r, fn)] *)
Definition replace_fn (r : regex) (repl : rmatch -> text) (s : text) : text :=
  splice s 0 (matchAll r s) repl.

Definition digit_val (c : ascii) : option nat :=
  let n := nat_of_ascii c in
  if (48 <=? n) && (n <=? 57) then Some (n - 48) else None.

(** GetSubstitution: the expansion of a replacement string for the match [m]
    of a pattern with [ng] groups in [s].  [$$], [$&], [$`], [$'], [$n] and
    [$nn] are special; a group number above [ng] leaves the characters as
    they are. *)
Fixpoint substitution (ng : nat) (s : text) (m : rmatch) (tpl : text) : text :=
  let group n := default [] (m_caps m n) in
  match tpl with
  | [] => []
  | "$"%char :: tpl1 =>
      match tpl1 with
      | "$"%char :: tpl2 => "$"%char :: substitution ng s m tpl2
      | "&"%char :: tpl2 => m_full m ++ substitution ng s m tpl2
      | "`"%char :: tpl2 => take (m_index m) s ++ substitution ng s m tpl2
      | "'"%char :: tpl2 => drop (m_end m) s ++ substitution ng s m tpl2
      | d1 :: tpl2 =>
          match digit_val d1 with
          | Some n1 =>
              let one :=
                if (1 <=? n1) && (n1 <=? ng)
                then group n1 ++ substitution ng s m tpl2
                else "$"%char :: d1 :: substitution ng s m tpl2 in
              match tpl2 with
              | d2 :: tpl3 =>
                  match digit_val d2 with
                  | Some n2 =>
                      let nn := 10 * n1 + n2 in
                      if (1 <=? nn) && (nn <=? ng)
                      then group nn ++ substitution ng s m tpl3
                      else one
                  | None => one
                  end
              | [] => one
              end
          | None => "$"%char :: substitution ng s m tpl1
          end
      | [] => ["$"%char]
      end
  | c :: tpl' => c :: substitution ng s m tpl'
  end.

(** [s.replace(r, tpl)] for a replacement string. *)
Definition replace_str (r : regex) (tpl : text) (s : text) : text :=
  splice s 0 (matchAll r s) (fun m => substitution (ngroups r) s m tpl).

(** ** Types *)

Record FunctionParam : Type := mkParam {
  name : text;
  defaultValue : option text
}.

Record FunctionDef : Type := mkFunctionDef {
  fn_name : text;
  fn_params : list FunctionParam;
  fn_body : text
}.

Record MixinDef : Type := mkMixinDef {
  mx_name : text;
  mx_params : list FunctionParam;
  mx_body : text;
  hasContents : bool
}.

Definition MAX_RECURSION_DEPTH : nat := 10.

(** Group [n] of a match in which that group always takes part. *)
Definition group (m : rmatch) (n : nat) : text := default [] (m_caps m n).

(** ** Parameters, result clause, substitution *)

(** One turn of the loop of [parseParams] on the part [p]. *)
Definition parseParams_step (acc : list FunctionParam * bool) (p : text)
    : list FunctionParam * bool :=
  let '(params, contents) := acc in
  if text_eqb (trim p) (txt "@contents") then (params, true)
  else
    let colonIdx := indexOf p ":" in
    let namePart :=
      match colonIdx with
      | Some i => trim (slice p 0 i)
      | None => p
      end in
    let defaultValue :=
      match colonIdx with
      | Some i => Some (trim (slice_from p (i + 1)))
      | None => None
      end in
    let name :=
      match str_match_start nameRegex namePart with
      | Some nameMatch => group nameMatch 1
      | None => namePart
      end in
    match name with
    | [] => (params, contents)
    | _ => (params ++ [mkParam name defaultValue], contents)
    end.

(** [parseParams(paramStr)]: the pair [(params, hasContents)]. *)
Definition parseParams (paramStr : text) : list FunctionParam * bool :=
  foldl parseParams_step ([], false) (splitByComma paramStr).

Definition extractResult (body : text) : outcome text :=
  match str_match resultRegex body with
  | None => Err MissingResult
  | Some m => Ok (trim (group m 1))
  end.

(** [new Map(params.map((param, i) => [param.name, args[i] ?? param.defaultValue]))]:
    a later entry replaces an earlier one of the same name; the value is
    [None] where the source has [undefined]. *)
Definition makeArgMap (params : list FunctionParam) (args : list text)
    : gmap text (option text) :=
  foldl (fun m kv => <[fst kv := snd kv]> m) ∅
    (imap (fun i param =>
             (name param,
              match args !! i with
              | Some a => Some a
              | None => defaultValue param
              end)) params).

(** The callback of both substitutions:
    [argMap.get(varName) ?? fallback?.trim() ?? match]; a name that is
    absent and a name bound to [undefined] read the same. *)
Definition substituteRef (argMap : gmap text (option text)) (m : rmatch) : text :=
  match mjoin (argMap !! group m 1) with
  | Some v => v
  | None =>
      match m_caps m 2 with
      | Some fallback => trim fallback
      | None => m_full m
      end
  end.

Definition substituteVars (template : text) (params : list FunctionParam)
    (args : list text) : text :=
  replace_fn (refRegex "var") (substituteRef (makeArgMap params args)) template.

Definition substituteEnvVars (template : text) (params : list FunctionParam)
    (args : list text) : text :=
  replace_fn (refRegex "env") (substituteRef (makeArgMap params args)) template.

(** ** Extraction

    The registry is threaded through; a throw loses the state, which no
    caller inspects afterwards. *)

(** The loop of [extractFunctions] over the matches still to visit. *)
Fixpoint extractFunctions_loop (code : text) (ms : list rmatch)
    (registry : gmap text FunctionDef) (removals : list (nat * nat))
    : outcome (gmap text FunctionDef * list (nat * nat)) :=
  match ms with
  | [] => Ok (registry, removals)
  | m :: ms' =>
      let name := group m 1 in
      let paramStr := group m 2 in
      let bodyStart := m_index m + length (m_full m) in
      bodyEnd ← findMatchingBrace code bodyStart;
      let params := fst (parseParams paramStr) in
      extractFunctions_loop code ms'
        (<[name := mkFunctionDef name params (slice code bodyStart bodyEnd)]> registry)
        (removals ++ [(m_index m, bodyEnd + 1)])
  end.

Definition extractFunctions (code : text) (registry : gmap text FunctionDef)
    : outcome (gmap text FunctionDef * list (nat * nat)) :=
  extractFunctions_loop code (matchAll functionRegex code) registry [].

Fixpoint extractMixins_loop (code : text) (ms : list rmatch)
    (registry : gmap text MixinDef) (removals : list (nat * nat))
    : outcome (gmap text MixinDef * list (nat * nat)) :=
  match ms with
  | [] => Ok (registry, removals)
  | m :: ms' =>
      let name := group m 1 in
      let paramStr := group m 2 in
      let bodyStart := m_index m + length (m_full m) in
      bodyEnd ← findMatchingBrace code bodyStart;
      let '(params, contents) := parseParams paramStr in
      extractMixins_loop code ms'
        (<[name := mkMixinDef name params (slice code bodyStart bodyEnd) contents]> registry)
        (removals ++ [(m_index m, bodyEnd + 1)])
  end.

Definition extractMixins (code : text) (registry : gmap text MixinDef)
    : outcome (gmap text MixinDef * list (nat * nat)) :=
  extractMixins_loop code (matchAll mixinRegex code) registry [].

(** One turn of the loop of [stripDefinitions]. *)
Definition stripDefinitions_step (result : text) (r : nat * nat) : text :=
  let '(start, end_) := r in
  let blank := replace_str notNewlineRegex [] (slice result start end_) in
  slice result 0 start ++ blank ++ slice_from result end_.

Definition stripDefinitions (code : text) (removals : list (nat * nat)) : text :=
  foldl stripDefinitions_step code (rev removals).

(** ** Function call resolution *)

(** The loop of [resolveOnce] over the matches still to visit. *)
Fixpoint resolveOnce_loop (code : text) (registry : gmap text FunctionDef)
    (ms : list rmatch) (result : text) (lastIdx : nat) : outcome text :=
  match ms with
  | [] => Ok (result ++ slice_from code lastIdx)
  | m :: ms' =>
      let fullMatch := m_full m in
      let fnName := group m 1 in
      let start := m_index m in
      let argsStart := start + length fullMatch in
      let result := result ++ slice code lastIdx start in
      match registry !! fnName with
      | None => resolveOnce_loop code registry ms' (result ++ fullMatch) argsStart
      | Some def =>
          argsEnd ← findMatchingBrace code argsStart;
          let args := splitByComma (slice code argsStart argsEnd) in
          expr ← extractResult (fn_body def);
          resolveOnce_loop code registry ms'
            (result ++ substituteVars expr (fn_params def) args) (argsEnd + 1)
      end
  end.

Definition resolveOnce (code : text) (registry : gmap text FunctionDef)
    : outcome text :=
  resolveOnce_loop code registry (matchAll callRegex code) [] 0.

(** The loop of [resolveFunctionCalls], [n] turns left. *)
Fixpoint resolveFunctionCalls_loop (n : nat) (result : text)
    (registry : gmap text FunctionDef) : outcome text :=
  match n with
  | O => Ok result
  | S n' =>
      next ← resolveOnce result registry;
      if text_eqb next result then Ok result
      else resolveFunctionCalls_loop n' next registry
  end.

Definition resolveFunctionCalls (code : text) (registry : gmap text FunctionDef)
    : outcome text :=
  resolveFunctionCalls_loop MAX_RECURSION_DEPTH code registry.

(** ** Mixin application resolution *)

(** What one apply site becomes. *)
Definition applyMixin (registry : gmap text MixinDef) (m : rmatch) : text :=
  let mixinName := group m 1 in
  let argsStr := m_caps m 2 in
  let contentsBlock := m_caps m 3 in
  match registry !! mixinName with
  | None => txt "/* Unknown mixin: " ++ mixinName ++ txt " */"
  | Some def =>
      let args :=
        match argsStr with
        | Some (c :: a) => splitByComma (c :: a)
        | _ => []
        end in
      let substituted := substituteEnvVars (mx_body def) (mx_params def) args in
      if hasContents def then
        match contentsBlock with
        | Some block => replace_str contentsAnyRegex (trim block) substituted
        | None =>
            replace_str contentsBareRegex []
              (replace_str contentsDefaultRegex (txt "$1") substituted)
        end
      else substituted
  end.

(** The loop of [resolveMixinsOnce] over the matches still to visit. *)
Fixpoint resolveMixinsOnce_loop (code : text) (registry : gmap text MixinDef)
    (ms : list rmatch) (result : text) (lastIdx : nat) : text :=
  match ms with
  | [] => result ++ slice_from code lastIdx
  | m :: ms' =>
      let start := m_index m in
      let result := result ++ slice code lastIdx start in
      resolveMixinsOnce_loop code registry ms'
        (result ++ applyMixin registry m) (start + length (m_full m))
  end.

Definition resolveMixinsOnce (code : text) (registry : gmap text MixinDef) : text :=
  resolveMixinsOnce_loop code registry (matchAll applyRegex code) [] 0.

Fixpoint resolveMixinApplications_loop (n : nat) (result : text)
    (registry : gmap text MixinDef) : text :=
  match n with
  | O => result
  | S n' =>
      let next := resolveMixinsOnce result registry in
      if text_eqb next result then result
      else resolveMixinApplications_loop n' next registry
  end.

Definition resolveMixinApplications (code : text) (registry : gmap text MixinDef)
    : text :=
  resolveMixinApplications_loop MAX_RECURSION_DEPTH code registry.

(** ** Merging ranges *)

(** [Array.prototype.sort] with the comparator [(a, b) => a[0] - b[0]]: the
    stable sort by start, computed by insertion. *)
Fixpoint insert_by_start (x : Z * Z) (l : list (Z * Z)) : list (Z * Z) :=
  match l with
  | [] => [x]
  | y :: l' =>
      if (fst x <=? fst y)%Z then x :: y :: l'
      else y :: insert_by_start x l'
  end.

Fixpoint sort_by_start (l : list (Z * Z)) : list (Z * Z) :=
  match l with
  | [] => []
  | x :: l' => insert_by_start x (sort_by_start l')
  end.

(** The loop of [mergeRanges] over [sorted] from its second element on. *)
Fixpoint mergeRanges_loop (rest : list (Z * Z)) (merged : list (Z * Z))
    (curStart curEnd : Z) : list (Z * Z) :=
  match rest with
  | [] => merged ++ [(curStart, curEnd)]
  | (s, e) :: rest' =>
      if (s <=? curEnd)%Z
      then mergeRanges_loop rest' merged curStart (Z.max curEnd e)
      else mergeRanges_loop rest' (merged ++ [(curStart, curEnd)]) s e
  end.

Definition mergeRanges (ranges : list (Z * Z)) : list (Z * Z) :=
  match sort_by_start ranges with
  | [] => []
  | (curStart, curEnd) :: rest => mergeRanges_loop rest [] curStart curEnd
  end.

(** ** Notions the statements use *)

(** The running depth of [findMatchingBrace] once it has read the character
    at offset [i], having started at [start] with depth 1. *)
Definition depth_at (code : text) (start i : nat) : Z :=
  foldl bracket_step 1%Z (slice code start (S i)).

(** An offset lies in a span [[start, end)]. *)
Definition in_span (x : Z) (sp : Z * Z) : Prop := (fst sp <= x < snd sp)%Z.

(** Two spans with no offset in common. *)
Definition span_disjoint (a b : Z * Z) : Prop :=
  forall x, ~ (in_span x a /\ in_span x b).

Definition pairwise_disjoint (l : list (Z * Z)) : Prop :=
  forall i j a b, i <> j -> l !! i = Some a -> l !! j = Some b -> span_disjoint a b.

Definition start_le (a b : Z * Z) : Prop := (fst a <= fst b)%Z.

(** The first span ends before the second starts. *)
Definition ends_before (a b : Z * Z) : Prop := (snd a < fst b)%Z.

(** The merging rule in the words of the specification: a span whose start
    is at most the running end of the current group joins that group, whose
    end becomes the larger of the two ends; any other span closes the group
    and opens the next one. *)
Fixpoint coalesce (cur : Z * Z) (rest : list (Z * Z)) : list (Z * Z) :=
  match rest with
  | [] => [cur]
  | sp :: rest' =>
      if (fst sp <=? snd cur)%Z
      then coalesce (fst cur, Z.max (snd cur) (snd sp)) rest'
      else cur :: coalesce sp rest'
  end.

Definition mergeSpans_spec (spans : list (Z * Z)) : list (Z * Z) :=
  match sort_by_start spans with
  | [] => []
  | cur :: rest => coalesce cur rest
  end.

(** A match seen from [k] characters further left. *)
Definition shift (k : nat) (m : rmatch) : rmatch :=
  mkMatch (k + m_index m) (m_full m) (m_caps m).

(** The matches [ms] lie in [code] from offset [pos] on, one after the other,
    each holding the text of [code] at its place. *)
Fixpoint matches_ok (code : text) (pos : nat) (ms : list rmatch) : Prop :=
  match ms with
  | [] => True
  | m :: ms' =>
      pos <= m_index m /\ m_end m <= length code /\
      m_full m = slice code (m_index m) (m_end m) /\
      matches_ok code (m_end m) ms'
  end.

(** A text of the shape [--[\w-]+]. *)
Definition is_identifier (nm : text) : bool :=
  match nm with
  | "-"%char :: "-"%char :: c :: w => forallb is_ident (c :: w)
  | _ => false
  end.

Definition is_newline (c : ascii) : bool := chr_eqb c newline.

Definition count_newlines (s : text) : nat := length (List.filter is_newline s).

(** Offset [i] lies in one of the spans [[start, end)]. *)
Definition in_spans (i : nat) (spans : list (nat * nat)) : bool :=
  existsb (fun sp => (fst sp <=? i) && (i <? snd sp)) spans.

(** [code], which starts at offset [i] of the whole text, without the
    characters that lie in a span and are not newlines. *)
Fixpoint blank_from (i : nat) (code : text) (spans : list (nat * nat)) : text :=
  match code with
  | [] => []
  | c :: code' =>
      if is_newline c || negb (in_spans i spans)
      then c :: blank_from (S i) code' spans
      else blank_from (S i) code' spans
  end.

(** The text in which every character outside the spans and every newline
    is as it was, in order, and nothing else is left. *)
Definition blank_spans (code : text) (spans : list (nat * nat)) : text :=
  blank_from 0 code spans.

Definition span_ok (sp : nat * nat) : Prop := fst sp <= snd sp.

(** Spans no two of which share an offset, in any order. *)
Definition spans_disjoint (spans : list (nat * nat)) : Prop :=
  Forall span_ok spans /\
  forall i j a b, i <> j -> spans !! i = Some a -> spans !! j = Some b ->
                  snd a <= fst b \/ snd b <= fst a.

(** Spans in the order of the text from offset [lo] on: each starts where the
    one before it ended, or later. *)
Fixpoint ascending_from (lo : nat) (spans : list (nat * nat)) : Prop :=
  match spans with
  | [] => True
  | sp :: rest => lo <= fst sp /\ fst sp <= snd sp /\ ascending_from (snd sp) rest
  end.

Definition spans_ascending (spans : list (nat * nat)) : Prop :=
  ascending_from 0 spans.

(** [needle] occurs in [hay]. *)
Fixpoint occurs (needle hay : text) : bool :=
  is_prefix needle hay ||
  match hay with
  | [] => false
  | _ :: hay' => occurs needle hay'
  end.

(** ** The declarations of the worked examples *)

Definition nested_functions : text :=
  txt "@function --a(--x:1){result: var(--x);} @function --b(--y:2){result: --a(var(--y));}".

Definition fn_a : FunctionDef :=
  mkFunctionDef (txt "--a") [mkParam (txt "--x") (Some (txt "1"))]
    (txt "result: var(--x);").

Definition fn_b : FunctionDef :=
  mkFunctionDef (txt "--b") [mkParam (txt "--y") (Some (txt "2"))]
    (txt "result: --a(var(--y));").

Definition nested_registry : gmap text FunctionDef :=
  <[txt "--b" := fn_b]> (<[txt "--a" := fn_a]> ∅).

Definition box_mixin : text :=
  txt "@mixin --box(--c: red) { color: env(--c); }".

(** The definition of [--box] with the body [color: env(--c);], and with
    the body as [extractMixins] cuts it out of [box_mixin], the blanks next
    to the braces included. *)
Definition box_def : MixinDef :=
  mkMixinDef (txt "--box") [mkParam (txt "--c") (Some (txt "red"))]
    (txt "color: env(--c);") false.

Definition box_def_spaced : MixinDef :=
  mkMixinDef (txt "--box") [mkParam (txt "--c") (Some (txt "red"))]
    (txt " color: env(--c); ") false.

Definition box_registry : gmap text MixinDef := <[txt "--box" := box_def]> ∅.

(** The declaration written with no blank next to the braces of its body. *)
Definition box_mixin_tight : text :=
  txt "@mixin --box(--c: red) {color: env(--c);}".

(** The wrapping mixin declared without a parameter list, and declared with
    the contents marker as its parameter. *)
Definition wrap_mixin_bare : text :=
  txt "@mixin --wrap { @media (min-width: 1px) { @contents; } }".

Definition wrap_mixin : text :=
  txt "@mixin --wrap(@contents) { @media (min-width: 1px) { @contents; } }".

Definition wrap_apply : text := txt "@apply --wrap { .a { color: red; } }".

Definition wrap_body : text := txt " @media (min-width: 1px) { @contents; } ".

Definition wrap_registry : gmap text MixinDef :=
  <[txt "--wrap" := mkMixinDef (txt "--wrap") [] wrap_body true]> ∅.

(** The entry a declaration without the marker gives, wherever the registry
    got it from. *)
Definition wrap_registry_unmarked : gmap text MixinDef :=
  <[txt "--wrap" := mkMixinDef (txt "--wrap") [] wrap_body false]> ∅.

(** ** The plugin's transform hook

    [transform] of [plugin/src/index.ts]; the two registries of the plugin
    are the state it reads and writes.  A throw loses the state, as in
    [extractFunctions]. *)

Definition SOURCE_EXTENSIONS : list text :=
  [txt "css"; txt "scss"; txt "sass"; txt "less"; txt "styl"; txt "stylus"].

Definition ALL_EXTENSIONS : list text :=
  SOURCE_EXTENSIONS ++ [txt "svelte"; txt "vue"].

(** [s.split(c)[0]]: the text before the first [c]. *)
Fixpoint before_first (c : ascii) (s : text) : text :=
  match s with
  | [] => []
  | x :: s' => if chr_eqb x c then [] else x :: before_first c s'
  end.

(** [s.split(c).at(-1)]: the text behind the last [c]. *)
Definition after_last (c : ascii) (s : text) : text :=
  rev (before_first c (rev s)).

(** [id.split("?")[0].split(".").at(-1)] *)
Definition id_extension (id : text) : text :=
  after_last "." (before_first "?" id).

Record registries : Type := mkRegistries {
  functionRegistry : gmap text FunctionDef;
  mixinRegistry : gmap text MixinDef
}.

(** [None] stands for the [null] the hook returns for a file it leaves
    alone. *)
Definition transform (code id : text) (st : registries)
    : outcome (option text * registries) :=
  let ext := id_extension id in
  if negb (bool_decide (ext ∈ ALL_EXTENSIONS)) then Ok (None, st)
  else
    fx ← extractFunctions code (functionRegistry st);
    let processed := stripDefinitions code (snd fx) in
    mx ← extractMixins processed (mixinRegistry st);
    let processed := stripDefinitions processed (snd mx) in
    let processed := resolveMixinApplications processed (fst mx) in
    processed ← resolveFunctionCalls processed (fst fx);
    Ok (Some processed, mkRegistries (fst fx) (fst mx)).

(** ** The build-folder variant

    [extractMixins], [substituteVars] and [transformExcludingRanges] as the
    variant of the file that holds [mergeRanges] and the [strip] option has
    them.  Its other functions read as those of [plugin/src/index.ts]; the
    function-call resolvers are written out again because they run over the
    variant's [substituteVars]. *)

(** /@mixin \s+ (--[\w-]+) \s* ( \( [^)]* \) )? \s* \{/g *)
Definition mixinRegexOptional : regex :=
  cat [Lit (txt "@mixin"); Plus is_space; Cap 1 ident_re; Star is_space;
       Opt (Cap 2 (cat [Lit (txt "("); Star (is_not ")"); Lit (txt ")")]));
       Star is_space; Lit (txt "{")].

Fixpoint extractMixinsOptional_loop (code : text) (ms : list rmatch)
    (registry : gmap text MixinDef) (removals : list (nat * nat))
    : outcome (gmap text MixinDef * list (nat * nat)) :=
  match ms with
  | [] => Ok (registry, removals)
  | m :: ms' =>
      let name := group m 1 in
      let paramsWithParens := m_caps m 2 in
      let bodyStart := m_index m + length (m_full m) in
      bodyEnd ← findMatchingBrace code bodyStart;
      let paramStr :=
        match paramsWithParens with
        | Some (c :: p) => slice (c :: p) 1 (length (c :: p) - 1)
        | _ => []
        end in
      let '(params, contents) := parseParams paramStr in
      extractMixinsOptional_loop code ms'
        (<[name := mkMixinDef name params (slice code bodyStart bodyEnd) contents]> registry)
        (removals ++ [(m_index m, bodyEnd + 1)])
  end.

Definition extractMixinsOptional (code : text) (registry : gmap text MixinDef)
    : outcome (gmap text MixinDef * list (nat * nat)) :=
  extractMixinsOptional_loop code (matchAll mixinRegexOptional code) registry [].

(** [mergeRanges] on offsets: the numbers it returns are numbers of its
    input, so nothing is lost on the way to [Z] and back. *)
Definition mergeOffsets (ranges : list (nat * nat)) : list (nat * nat) :=
  map (fun r => (Z.to_nat (fst r), Z.to_nat (snd r)))
    (mergeRanges (map (fun r => (Z.of_nat (fst r), Z.of_nat (snd r))) ranges)).

(** /var\( \s* (--[\w-]+) \s* (?:, \s* [^)]+ )? \s* \)/g : the pattern of
    [substituteVars] in the variant; the fallback is in no group. *)
Definition varRegexNoFallback : regex :=
  cat [Lit (txt "var("); Star is_space; Cap 1 ident_re; Star is_space;
       Opt (cat [Lit (txt ","); Star is_space; Plus (is_not ")")]);
       Star is_space; Lit (txt ")")].

(** [substituteVars] of the variant: its callback is
    [argMap.get(varName) ?? match], so a reference to a name that is not
    bound stays as it is, fallback and all. *)
Definition substituteVarsNoFallback (template : text) (params : list FunctionParam)
    (args : list text) : text :=
  let argMap := makeArgMap params args in
  replace_fn varRegexNoFallback
    (fun m =>
       match mjoin (argMap !! group m 1) with
       | Some v => v
       | None => m_full m
       end) template.

(** [resolveOnce] and [resolveFunctionCalls] of the variant: as in
    [plugin/src/index.ts], over the variant's [substituteVars]. *)
Fixpoint resolveOnceNoFallback_loop (code : text) (registry : gmap text FunctionDef)
    (ms : list rmatch) (result : text) (lastIdx : nat) : outcome text :=
  match ms with
  | [] => Ok (result ++ slice_from code lastIdx)
  | m :: ms' =>
      let fullMatch := m_full m in
      let fnName := group m 1 in
      let start := m_index m in
      let argsStart := start + length fullMatch in
      let result := result ++ slice code lastIdx start in
      match registry !! fnName with
      | None =>
          resolveOnceNoFallback_loop code registry ms' (result ++ fullMatch) argsStart
      | Some def =>
          argsEnd ← findMatchingBrace code argsStart;
          let args := splitByComma (slice code argsStart argsEnd) in
          expr ← extractResult (fn_body def);
          resolveOnceNoFallback_loop code registry ms'
            (result ++ substituteVarsNoFallback expr (fn_params def) args)
            (argsEnd + 1)
      end
  end.

Definition resolveOnceNoFallback (code : text) (registry : gmap text FunctionDef)
    : outcome text :=
  resolveOnceNoFallback_loop code registry (matchAll callRegex code) [] 0.

Fixpoint resolveFunctionCallsNoFallback_loop (n : nat) (result : text)
    (registry : gmap text FunctionDef) : outcome text :=
  match n with
  | O => Ok result
  | S n' =>
      next ← resolveOnceNoFallback result registry;
      if text_eqb next result then Ok result
      else resolveFunctionCallsNoFallback_loop n' next registry
  end.

Definition resolveFunctionCallsNoFallback (code : text)
    (registry : gmap text FunctionDef) : outcome text :=
  resolveFunctionCallsNoFallback_loop MAX_RECURSION_DEPTH code registry.

(** What a chunk outside the declarations becomes: its mixin applications
    are resolved, then its function calls. *)
Definition processChunk (chunk : text) (mixins : gmap text MixinDef)
    (functions : gmap text FunctionDef) : outcome text :=
  resolveFunctionCallsNoFallback (resolveMixinApplications chunk mixins) functions.

(** The loop of [transformExcludingRanges] over the merged ranges. *)
Fixpoint transformExcludingRanges_loop (code : text) (ranges : list (nat * nat))
    (mixins : gmap text MixinDef) (functions : gmap text FunctionDef)
    (strip : bool) (result : text) (cursor : nat) : outcome text :=
  match ranges with
  | [] =>
      processedTail ← processChunk (slice_from code cursor) mixins functions;
      Ok (result ++ processedTail)
  | (start, end_) :: ranges' =>
      processedChunk ← processChunk (slice code cursor start) mixins functions;
      let result := result ++ processedChunk in
      let result :=
        if strip
        then result ++ replace_str notNewlineRegex [] (slice code start end_)
        else result ++ slice code start end_ in
      transformExcludingRanges_loop code ranges' mixins functions strip result end_
  end.

Definition transformExcludingRanges (code : text) (exclude : list (nat * nat))
    (mixins : gmap text MixinDef) (functions : gmap text FunctionDef)
    (strip : bool) : outcome text :=
  transformExcludingRanges_loop code (mergeOffsets exclude) mixins functions strip [] 0.

(** ** More notions the statements use *)

(** A text with no blank at either end. *)
Definition trimmed (t : text) : Prop :=
  drop_space t = t /\ drop_space (rev t) = rev t.

(** [k] passes of [resolveOnce], one after the other. *)
Fixpoint resolve_passes (k : nat) (code : text)
    (registry : gmap text FunctionDef) : outcome text :=
  match k with
  | O => Ok code
  | S k' => next ← resolveOnce code registry; resolve_passes k' next registry
  end.

(** [k] passes of [resolveMixinsOnce]. *)
Fixpoint mixin_passes (k : nat) (code : text)
    (registry : gmap text MixinDef) : text :=
  match k with
  | O => code
  | S k' => mixin_passes k' (resolveMixinsOnce code registry) registry
  end.

(** A source text that holds one mixin declaration, written with or without
    its parameter list. *)
Definition mixin_source (nm ps body : text) : text :=
  txt "@mixin " ++ nm ++ txt "(" ++ ps ++ txt ") {" ++ body ++ txt "}".

Definition mixin_source_bare (nm body : text) : text :=
  txt "@mixin " ++ nm ++ txt " {" ++ body ++ txt "}".

(** The outcome of a pass over the rest of a text, seen from the whole
    text: [written] is what the pass over the text before it wrote,
    [consumed] how long that text is. *)
Definition continue_after (written : text) (consumed : nat) (o : outcome text)
    : outcome text :=
  match o with
  | Ok out => Ok (written ++ out)
  | Err (UnmatchedBrace p) => Err (UnmatchedBrace (consumed + p))
  | Err MissingResult => Err MissingResult
  end.

(** The variables [result] and [lastIdx] of [resolveOnce] once its loop has
    visited the matches [ms], having started from the given values. *)
Fixpoint resolveOnce_scan (code : text) (registry : gmap text FunctionDef)
    (ms : list rmatch) (result : text) (lastIdx : nat) : outcome (text * nat) :=
  match ms with
  | [] => Ok (result, lastIdx)
  | m :: ms' =>
      let fullMatch := m_full m in
      let fnName := group m 1 in
      let start := m_index m in
      let argsStart := start + length fullMatch in
      let result := result ++ slice code lastIdx start in
      match registry !! fnName with
      | None => resolveOnce_scan code registry ms' (result ++ fullMatch) argsStart
      | Some def =>
          argsEnd ← findMatchingBrace code argsStart;
          let args := splitByComma (slice code argsStart argsEnd) in
          expr ← extractResult (fn_body def);
          resolveOnce_scan code registry ms'
            (result ++ substituteVars expr (fn_params def) args) (argsEnd + 1)
      end
  end.

(** The turn of the loop of [resolveOnce] for the match [m] raises nothing:
    the name is not registered, or the parenthesis has its match and the
    body of the function its result clause. *)
Definition call_resolves (code : text) (registry : gmap text FunctionDef)
    (m : rmatch) : Prop :=
  match registry !! group m 1 with
  | None => True
  | Some def =>
      (exists argsEnd, findMatchingBrace code (m_end m) = Ok argsEnd) /\
      (exists expr, extractResult (fn_body def) = Ok expr)
  end.

(** A text without brackets. *)
Definition flat (s : text) : bool :=
  forallb (fun c => negb (is_open c || is_close c)) s.

(** A registry entry that [extractFunctions] makes of a header of [code]. *)
Definition from_header (code k : text) (d : FunctionDef) : Prop :=
  exists m bodyEnd,
    m ∈ matchAll functionRegex code /\ group m 1 = k /\
    findMatchingBrace code (m_end m) = Ok bodyEnd /\
    d = mkFunctionDef k (fst (parseParams (group m 2)))
          (slice code (m_end m) bodyEnd).

(** * Facts *)

(** * The matcher *)

Lemma is_prefix_app (l s : text) : is_prefix l (l ++ s) = true.
Proof.
  induction l as [| a l IH]; simpl; [reflexivity |].
  unfold chr_eqb. rewrite Ascii.eqb_refl. exact IH.
Qed.

Lemma is_prefix_length (l s : text) : is_prefix l s = true -> length l <= length s.
Proof.
  revert s. induction l as [| a l IH]; intros [| b s] H; simpl in *;
    try lia; try discriminate.
  apply andb_true_iff in H as [_ H]. apply IH in H. lia.
Qed.

Section EngineFacts.
Context {R : Type}.

(** Whatever [star_loop] returns, the continuation returned it, some way
    into the text. *)
Lemma star_loop_sound (p : ascii -> bool) (s : text) :
  forall (i : nat) (k : text -> nat -> option R) (x : R),
    star_loop p s i k = Some x ->
    exists n, n <= length s /\ k (drop n s) (i + n) = Some x.
Proof.
  induction s as [| c s IH]; intros i k x H; simpl in H.
  - exists 0. rewrite Nat.add_0_r. split; [simpl; lia | exact H].
  - destruct (p c).
    + destruct (star_loop p s (S i) k) as [r |] eqn:E.
      * injection H as <-. apply IH in E as (n & Hn & Hk).
        exists (S n). simpl. split; [lia |].
        rewrite <- Nat.add_succ_comm. exact Hk.
      * exists 0. rewrite Nat.add_0_r. split; [simpl; lia | exact H].
    + exists 0. rewrite Nat.add_0_r. split; [simpl; lia | exact H].
Qed.

(** A run of the class followed by a character outside it is consumed
    whole when the continuation accepts what follows. *)
Lemma star_loop_run (p : ascii -> bool) (run rest : text) :
  forall (i : nat) (k : text -> nat -> option R) (x : R),
    forallb p run = true ->
    match rest with [] => True | c :: _ => p c = false end ->
    k rest (i + length run) = Some x ->
    star_loop p (run ++ rest) i k = Some x.
Proof.
  induction run as [| c run IH]; intros i k x Hrun Hrest Hk; simpl in *.
  - rewrite Nat.add_0_r in Hk.
    destruct rest as [| c rest]; simpl; [exact Hk |].
    rewrite Hrest. exact Hk.
  - apply andb_true_iff in Hrun as [Hc Hrun]. rewrite Hc.
    rewrite (IH (S i) k x Hrun Hrest); [reflexivity |].
    rewrite <- Hk. f_equal. lia.
Qed.

Lemma rx_sound (r : regex) :
  forall (s : text) (i : nat) (caps : captures)
         (k : text -> nat -> captures -> option R) (x : R),
    rx r s i caps k = Some x ->
    exists n caps', n <= length s /\ k (drop n s) (i + n) caps' = Some x.
Proof.
  induction r as [l | p | p | p | r1 IH1 r2 IH2 | r1 IH1 r2 IH2 | r IH | g r IH |];
    intros s i caps k x H; simpl in H.
  - destruct (is_prefix l s) eqn:E; [| discriminate].
    exists (length l), caps. split; [by apply is_prefix_length | exact H].
  - destruct s as [| c s]; [discriminate |].
    destruct (p c); [| discriminate].
    exists 1, caps. simpl. rewrite drop_0. split; [lia |].
    rewrite Nat.add_1_r. exact H.
  - apply star_loop_sound in H as (n & Hn & Hk). by exists n, caps.
  - destruct s as [| c s]; [discriminate |].
    destruct (p c); [| discriminate].
    apply star_loop_sound in H as (n & Hn & Hk).
    exists (S n), caps. simpl. split; [lia |].
    rewrite <- Nat.add_succ_comm. exact Hk.
  - apply IH1 in H as (n1 & c1 & Hn1 & H).
    apply IH2 in H as (n2 & c2 & Hn2 & H).
    rewrite length_drop in Hn2.
    exists (n1 + n2), c2. split; [lia |].
    rewrite drop_drop in H. rewrite Nat.add_assoc. exact H.
  - destruct (rx r1 s i caps k) as [y |] eqn:E.
    + injection H as <-. by apply IH1 in E.
    + by apply IH2 in H.
  - destruct (rx r s i caps _) as [y |] eqn:E.
    + injection H as <-. apply IH in E as (n & c' & Hn & E).
      destruct (i + n =? i); [discriminate |]. by exists n, c'.
    + exists 0, caps. rewrite Nat.add_0_r. split; [lia | exact H].
  - apply IH in H as (n & c' & Hn & H). by eexists n, _.
  - destruct s; [| discriminate].
    exists 0, caps. rewrite Nat.add_0_r. split; [simpl; lia | exact H].
Qed.
End EngineFacts.

Lemma rx_Seq_Lit {R : Type} (l : text) (r : regex) (s : text) (i : nat)
    (caps : captures) (k : text -> nat -> captures -> option R) :
  rx (Seq (Lit l) r) s i caps k =
  if is_prefix l s then rx r (drop (length l) s) (i + length l) caps k else None.
Proof. reflexivity. Qed.

Lemma match_here_length (r : regex) (s : text) (n : nat) (caps : captures) :
  match_here r s = Some (n, caps) -> n <= length s.
Proof.
  unfold match_here. intros H.
  apply rx_sound in H as (n' & c' & Hn & H). simpl in H. by injection H as <- _.
Qed.

(** ** The matcher at work *)

(** The blanks after the colon are given back one at a time until the
    group has a character to take. *)
Example extractResult_blank : extractResult (txt "result:  ;") = Ok [].
Proof. vm_compute. reflexivity. Qed.

Example extractResult_to_semicolon :
  extractResult (txt "a: b; result : calc(var(--x) * 2) ; c") =
  Ok (txt "calc(var(--x) * 2)").
Proof. vm_compute. reflexivity. Qed.

Example extractResult_to_end :
  extractResult (txt "result: 1px solid") = Ok (txt "1px solid").
Proof. vm_compute. reflexivity. Qed.

Example extractResult_empty : extractResult (txt "result:;") = Err MissingResult.
Proof. vm_compute. reflexivity. Qed.

(** A reference takes the argument, else the default, else its own fallback,
    else it stays. *)
Example substituteVars_order :
  substituteVars (txt "var(--a) var( --b , 7 ) var(--c, 8) var(--d)")
    [mkParam (txt "--a") (Some (txt "1")); mkParam (txt "--b") (Some (txt "2"));
     mkParam (txt "--c") None]
    [txt "x"] =
  txt "x 2 8 var(--d)".
Proof. vm_compute. reflexivity. Qed.

Example splitByComma_nested :
  splitByComma (txt " a, f(b, c) ,, d) , e, ") =
  [txt "a"; txt "f(b, c)"; []; txt "d) , e,"].
Proof. vm_compute. reflexivity. Qed.

Example parseParams_typed :
  parseParams (txt "--x <length>: 1px, @contents, --y") =
  ([mkParam (txt "--x") (Some (txt "1px")); mkParam (txt "--y") None], true).
Proof. vm_compute. reflexivity. Qed.

(** * The list of matches *)

Lemma matchAll_from_shift (r : regex) (k : nat) (s : text) :
  forall idx skip,
    matchAll_from r s (k + idx) skip = map (shift k) (matchAll_from r s idx skip).
Proof.
  induction s as [| c s IH]; intros idx skip.
  - destruct skip; simpl; [| reflexivity].
    destruct (match_here r []) as [[n caps] |]; reflexivity.
  - destruct skip as [| skip]; simpl.
    + destruct (match_here r (c :: s)) as [[n caps] |]; simpl.
      * f_equal. rewrite <- IH. f_equal. lia.
      * rewrite <- IH. f_equal. lia.
    + rewrite <- IH. f_equal. lia.
Qed.

Lemma matchAll_from_skip (r : regex) (pre s : text) :
  forall idx,
    matchAll_from r (pre ++ s) idx (length pre) = matchAll_from r s (idx + length pre) 0.
Proof.
  induction pre as [| c pre IH]; intros idx; simpl.
  - by rewrite Nat.add_0_r.
  - rewrite IH. f_equal. lia.
Qed.

(** After a match that is not empty the search resumes right behind it. *)
Lemma matchAll_from_match (r : regex) (s : text) (idx n : nat) (caps : captures) :
  match_here r s = Some (n, caps) -> 0 < n ->
  matchAll_from r s idx 0 =
  mkMatch idx (take n s) caps :: matchAll_from r (drop n s) (idx + n) 0.
Proof.
  intros Hm Hn. pose proof (match_here_length _ _ _ _ Hm) as Hlen.
  destruct s as [| c s]; [simpl in Hlen; lia |].
  simpl matchAll_from. rewrite Hm. f_equal.
  destruct n as [| n]; [lia |]. simpl in *.
  pose proof (matchAll_from_skip r (take n s) (drop n s) (S idx)) as Hs.
  rewrite take_drop, length_take in Hs.
  replace (n `min` length s) with n in Hs by lia.
  rewrite Hs. f_equal. lia.
Qed.

Lemma matches_ok_weaken (code : text) (ms : list rmatch) (pos pos' : nat) :
  pos' <= pos -> matches_ok code pos ms -> matches_ok code pos' ms.
Proof.
  destruct ms as [| m ms]; simpl; [tauto |].
  intros Hle (H1 & H2 & H3 & H4). repeat split; try assumption. lia.
Qed.

Lemma matchAll_from_ok (r : regex) (s : text) :
  forall (pre : text) (skip : nat),
    matches_ok (pre ++ s) (length pre + skip) (matchAll_from r s (length pre) skip).
Proof.
  induction s as [| c s IH]; intros pre skip.
  - destruct skip; simpl; [| exact I].
    destruct (match_here r []) as [[n caps] |] eqn:E; simpl; [| exact I].
    apply match_here_length in E. simpl in E. assert (n = 0) as -> by lia.
    unfold m_end, slice. simpl. rewrite length_app. simpl.
    repeat split; try lia.
    rewrite Nat.add_0_r, Nat.sub_diag. reflexivity.
  - assert (forall skip', matches_ok (pre ++ c :: s) (S (length pre) + skip')
                            (matchAll_from r s (S (length pre)) skip')) as IH'.
    { intros skip'. specialize (IH (pre ++ [c]) skip').
      rewrite <- app_assoc, length_app in IH. simpl in IH.
      rewrite Nat.add_1_r in IH. exact IH. }
    destruct skip as [| skip]; simpl.
    + destruct (match_here r (c :: s)) as [[n caps] |] eqn:E; simpl.
      * apply match_here_length in E.
        assert (length (take n (c :: s)) = n) as Hlen by (rewrite length_take; lia).
        unfold m_end. simpl m_index. simpl m_full. rewrite Hlen.
        repeat split.
        -- lia.
        -- rewrite length_app. lia.
        -- unfold slice. rewrite drop_app_length.
           f_equal. lia.
        -- eapply matches_ok_weaken; [| apply IH']. lia.
      * eapply matches_ok_weaken; [| apply IH']. lia.
    + eapply matches_ok_weaken; [| apply IH']. lia.
Qed.

Lemma matchAll_ok (r : regex) (code : text) : matches_ok code 0 (matchAll r code).
Proof. apply (matchAll_from_ok r code [] 0). Qed.

(** * Brace matching *)

Lemma bracket_step_cases (d : Z) (c : ascii) :
  (In c [")"; "}"; "]"]%char -> bracket_step d c = (d - 1)%Z) /\
  (In c ["("; "{"; "["]%char -> bracket_step d c = (d + 1)%Z) /\
  (~ In c ["("; "{"; "["; ")"; "}"; "]"]%char -> bracket_step d c = d).
Proof.
  unfold bracket_step, is_open, is_close, chr_eqb.
  repeat split.
  - intros [<- | [<- | [<- | []]]]; reflexivity.
  - intros [<- | [<- | [<- | []]]]; reflexivity.
  - intros Hn.
    repeat match goal with
    | |- context [Ascii.eqb c ?x] =>
        destruct (Ascii.eqb_spec c x) as [-> | _];
        [exfalso; apply Hn; simpl; tauto |]
    end.
    reflexivity.
Qed.

Lemma findMatchingBrace_loop_spec (rest : text) :
  forall (i : nat) (d : Z),
    match findMatchingBrace_loop rest i d with
    | Some r =>
        exists k, r = i + k /\ k < length rest /\
          foldl bracket_step d (take (S k) rest) = 0%Z /\
          forall j, j < k -> foldl bracket_step d (take (S j) rest) <> 0%Z
    | None =>
        forall k, k < length rest ->
          foldl bracket_step d (take (S k) rest) <> 0%Z
    end.
Proof.
  induction rest as [| c rest IH]; intros i d; simpl.
  - intros k Hk. lia.
  - destruct (Z.eqb_spec (bracket_step d c) 0) as [Hz | Hz].
    + exists 0. split; [lia |]. split; [lia |]. split; [exact Hz |].
      intros j Hj. lia.
    + specialize (IH (S i) (bracket_step d c)).
      destruct (findMatchingBrace_loop rest (S i) (bracket_step d c)) as [r |].
      * destruct IH as (k & -> & Hk & Hzero & Hfirst).
        exists (S k). split; [lia |]. split; [lia |]. split; [exact Hzero |].
        intros [| j] Hj; [exact Hz | apply Hfirst; lia].
      * intros [| k] Hk; [exact Hz | apply IH; lia].
Qed.

Lemma depth_at_offset (code : text) (start k : nat) :
  depth_at code start (start + k) =
  foldl bracket_step 1%Z (take (S k) (drop start code)).
Proof.
  unfold depth_at, slice. replace (S (start + k) - start) with (S k) by lia.
  reflexivity.
Qed.

(** C7. [findMatchingBrace] starts at depth 1 just after an opening bracket,
    adds one for each of "(", "{", "[" and takes one off for each of ")", "}",
    "]" whatever the family, and returns the first offset at which the running
    depth is zero; it throws the unmatched-brace error exactly when the depth
    is zero at no offset from [start] to the end of the text. *)
Theorem findMatchingBrace_first_zero (code : text) (start : nat) :
  (forall d c, In c [")"; "}"; "]"]%char -> bracket_step d c = (d - 1)%Z) /\
  (forall d c, In c ["("; "{"; "["]%char -> bracket_step d c = (d + 1)%Z) /\
  (forall d c, ~ In c ["("; "{"; "["; ")"; "}"; "]"]%char -> bracket_step d c = d) /\
  (forall i,
     findMatchingBrace code start = Ok i <->
     (start <= i < length code /\ depth_at code start i = 0%Z /\
      forall j, start <= j < i -> depth_at code start j <> 0%Z)) /\
  (forall e,
     findMatchingBrace code start = Err e <->
     (e = UnmatchedBrace start /\
      forall i, start <= i < length code -> depth_at code start i <> 0%Z)).
Proof.
  split; [intros d c; apply bracket_step_cases |].
  split; [intros d c; apply bracket_step_cases |].
  split; [intros d c; apply bracket_step_cases |].
  unfold findMatchingBrace.
  pose proof (findMatchingBrace_loop_spec (drop start code) start 1%Z) as Hloop.
  destruct (findMatchingBrace_loop (drop start code) start 1%Z) as [r |].
  - destruct Hloop as (k & -> & Hk & Hzero & Hfirst).
    rewrite length_drop in Hk.
    split.
    + intros i. split.
      * intros [= <-]. split; [lia |]. split.
        -- rewrite depth_at_offset. exact Hzero.
        -- intros j Hj. replace j with (start + (j - start)) by lia.
           rewrite depth_at_offset. apply Hfirst. lia.
      * intros (Hi & Hz & Hf). f_equal.
        destruct (Nat.lt_trichotomy i (start + k)) as [Hlt | [-> | Hgt]].
        -- exfalso. replace i with (start + (i - start)) in Hz by lia.
           rewrite depth_at_offset in Hz.
           apply (Hfirst (i - start)); [lia | exact Hz].
        -- reflexivity.
        -- exfalso. apply (Hf (start + k)); [lia |].
           rewrite depth_at_offset. exact Hzero.
    + intros e. split; [discriminate |].
      intros [_ Hnz]. exfalso. apply (Hnz (start + k)); [lia |].
      rewrite depth_at_offset. exact Hzero.
  - split.
    + intros i. split; [discriminate |].
      intros (Hi & Hz & _). exfalso.
      replace i with (start + (i - start)) in Hz by lia.
      rewrite depth_at_offset in Hz.
      apply (Hloop (i - start)); [rewrite length_drop; lia | exact Hz].
    + intros e. split.
      * intros [= <-]. split; [reflexivity |].
        intros i Hi. replace i with (start + (i - start)) by lia.
        rewrite depth_at_offset. apply Hloop. rewrite length_drop. lia.
      * intros [-> _]. reflexivity.
Qed.

(** * Merging ranges *)

Section MergeRanges.
Local Open Scope Z_scope.

Lemma insert_by_start_perm (x : Z * Z) (l : list (Z * Z)) :
  Permutation (insert_by_start x l) (x :: l).
Proof.
  induction l as [| y l IH]; simpl; [reflexivity |].
  destruct (fst x <=? fst y); [reflexivity |].
  rewrite IH. apply perm_swap.
Qed.

Lemma sort_by_start_perm (l : list (Z * Z)) : Permutation (sort_by_start l) l.
Proof.
  induction l as [| x l IH]; simpl; [reflexivity |].
  rewrite insert_by_start_perm. by constructor.
Qed.

Lemma insert_by_start_sorted (x : Z * Z) (l : list (Z * Z)) :
  StronglySorted start_le l -> StronglySorted start_le (insert_by_start x l).
Proof.
  induction l as [| y l IH]; intros Hs; simpl.
  - repeat constructor.
  - destruct (Z.leb_spec (fst x) (fst y)) as [Hle | Hgt].
    + constructor; [exact Hs |].
      constructor; [exact Hle |].
      apply StronglySorted_inv in Hs as [_ Hy].
      eapply Forall_impl; [exact Hy |]. unfold start_le. intros; simpl in *; lia.
    + apply StronglySorted_inv in Hs as [Hl Hy].
      constructor; [by apply IH |].
      rewrite insert_by_start_perm.
      constructor; [unfold start_le; lia | exact Hy].
Qed.

Lemma sort_by_start_sorted (l : list (Z * Z)) :
  StronglySorted start_le (sort_by_start l).
Proof.
  induction l as [| x l IH]; simpl; [constructor |].
  by apply insert_by_start_sorted.
Qed.

(** Sorting leaves a list that is in order as it is. *)
Lemma sort_by_start_id (l : list (Z * Z)) :
  StronglySorted start_le l -> sort_by_start l = l.
Proof.
  induction l as [| x l IH]; intros Hs; simpl; [reflexivity |].
  apply StronglySorted_inv in Hs as [Hl Hx].
  rewrite IH by exact Hl.
  destruct l as [| y l]; simpl; [reflexivity |].
  apply Forall_cons in Hx as [Hxy _].
  unfold start_le in Hxy. destruct (Z.leb_spec (fst x) (fst y)); [reflexivity | lia].
Qed.

Lemma mergeRanges_loop_coalesce (rest merged : list (Z * Z)) (curStart curEnd : Z) :
  mergeRanges_loop rest merged curStart curEnd =
  merged ++ coalesce (curStart, curEnd) rest.
Proof.
  revert merged curStart curEnd.
  induction rest as [| [s e] rest IH]; intros merged curStart curEnd; simpl.
  - reflexivity.
  - destruct (s <=? curEnd).
    + apply IH.
    + rewrite IH, <- app_assoc. reflexivity.
Qed.

Lemma mergeRanges_spec (l : list (Z * Z)) : mergeRanges l = mergeSpans_spec l.
Proof.
  unfold mergeRanges, mergeSpans_spec.
  destruct (sort_by_start l) as [| [s e] rest]; [reflexivity |].
  apply mergeRanges_loop_coalesce.
Qed.

(** What [coalesce] yields from a group and spans sorted after it. *)
Lemma coalesce_shape (rest : list (Z * Z)) :
  forall cur,
    StronglySorted start_le (cur :: rest) ->
    StronglySorted start_le (coalesce cur rest) /\
    StronglySorted ends_before (coalesce cur rest) /\
    Forall (start_le cur) (coalesce cur rest).
Proof.
  induction rest as [| sp rest IH]; intros cur Hs; simpl.
  - repeat split; repeat constructor. unfold start_le. lia.
  - apply StronglySorted_inv in Hs as [Hrest Hcur].
    apply Forall_cons in Hcur as [Hsp Hcur].
    pose proof Hrest as Hrest'.
    apply StronglySorted_inv in Hrest' as [Hrest' Hspall].
    destruct (Z.leb_spec (fst sp) (snd cur)) as [Hle | Hgt].
    + apply (IH (fst cur, Z.max (snd cur) (snd sp))).
      constructor; [exact Hrest' |].
      eapply Forall_impl; [exact Hcur |]. unfold start_le. simpl. intros; lia.
    + destruct (IH sp Hrest) as (Hs1 & Hs2 & Hall).
      assert (Forall (start_le cur) (coalesce sp rest)) as Hcurall.
      { eapply Forall_impl; [exact Hall |]. unfold start_le in *. intros; lia. }
      repeat split.
      * constructor; assumption.
      * constructor; [exact Hs2 |].
        eapply Forall_impl; [exact Hall |].
        unfold start_le, ends_before in *. intros; lia.
      * constructor; [unfold start_le; lia | exact Hcurall].
Qed.

Lemma coalesce_separated_id (rest : list (Z * Z)) :
  forall cur, StronglySorted ends_before (cur :: rest) -> coalesce cur rest = cur :: rest.
Proof.
  induction rest as [| sp rest IH]; intros cur Hs; simpl; [reflexivity |].
  apply StronglySorted_inv in Hs as [Hrest Hcur].
  apply Forall_cons in Hcur as [Hsp _]. unfold ends_before in Hsp.
  destruct (Z.leb_spec (fst sp) (snd cur)); [lia |].
  by rewrite IH.
Qed.

Lemma mergeSpans_spec_shape (l : list (Z * Z)) :
  StronglySorted start_le (mergeSpans_spec l) /\
  StronglySorted ends_before (mergeSpans_spec l).
Proof.
  unfold mergeSpans_spec.
  pose proof (sort_by_start_sorted l) as Hs.
  destruct (sort_by_start l) as [| cur rest]; [split; constructor |].
  destruct (coalesce_shape rest cur Hs) as (H1 & H2 & _). by split.
Qed.

Lemma ends_before_disjoint (l : list (Z * Z)) :
  StronglySorted start_le l -> StronglySorted ends_before l -> pairwise_disjoint l.
Proof.
  intros Hst Hsep.
  assert (forall i j a b, (i < j)%nat -> l !! i = Some a -> l !! j = Some b ->
                          ends_before a b) as Hlt.
  { clear Hst. induction Hsep as [| x l Hl IH Hx]; intros i j a b Hij Ha Hb.
    - by rewrite lookup_nil in Ha.
    - destruct j as [| j]; [lia |]. simpl in Hb.
      destruct i as [| i]; simpl in Ha.
      + injection Ha as <-. rewrite Forall_forall in Hx. apply Hx.
        eapply list_elem_of_lookup_2. exact Hb.
      + apply (IH i j); [lia | assumption | assumption]. }
  intros i j a b Hij Ha Hb x [Hxa Hxb].
  unfold in_span in *.
  destruct (Nat.lt_trichotomy i j) as [H | [H | H]]; [| lia |].
  - specialize (Hlt i j a b H Ha Hb). unfold ends_before in Hlt. lia.
  - specialize (Hlt j i b a H Hb Ha). unfold ends_before in Hlt. lia.
Qed.

(** The offsets covered by a group and the spans after it are those the
    coalesced list covers. *)
Lemma coalesce_cover (rest : list (Z * Z)) :
  forall cur x,
    StronglySorted start_le (cur :: rest) ->
    (Exists (in_span x) (coalesce cur rest) <-> Exists (in_span x) (cur :: rest)).
Proof.
  induction rest as [| sp rest IH]; intros cur x Hs; simpl; [reflexivity |].
  apply StronglySorted_inv in Hs as [Hrest Hcur].
  apply Forall_cons in Hcur as [Hsp Hcur]. unfold start_le in Hsp.
  destruct (Z.leb_spec (fst sp) (snd cur)) as [Hle | Hgt].
  - rewrite IH.
    + rewrite !Exists_cons. unfold in_span. simpl. split.
      * intros [H | H]; [| tauto].
        destruct (Z.lt_ge_cases x (snd cur)); [left; lia | right; left; lia].
      * intros [H | [H | H]]; [left; lia | left; lia | tauto].
    + apply StronglySorted_inv in Hrest as [Hrest _].
      constructor; [exact Hrest |].
      eapply Forall_impl; [exact Hcur |]. unfold start_le. simpl. intros; lia.
  - rewrite (Exists_cons _ cur), IH by exact Hrest.
    rewrite !Exists_cons. tauto.
Qed.

Lemma mergeSpans_spec_cover (l : list (Z * Z)) (x : Z) :
  Exists (in_span x) (mergeSpans_spec l) <-> Exists (in_span x) l.
Proof.
  unfold mergeSpans_spec.
  pose proof (sort_by_start_sorted l) as Hs.
  assert (Exists (in_span x) (sort_by_start l) <-> Exists (in_span x) l) as <-.
  { rewrite !Exists_exists. by setoid_rewrite (sort_by_start_perm l). }
  destruct (sort_by_start l) as [| cur rest]; [reflexivity |].
  by apply coalesce_cover.
Qed.

(** C8. [mergeRanges] applied to its own output changes nothing; its output
    is sorted by start, each span ends before every later one starts, so
    the spans are pairwise disjoint; it is the input sorted by start and
    coalesced by the rule of the specification (a span whose start is at
    most the running end joins the current group, whose end becomes the
    maximum); and it covers exactly the offsets the input covers. *)
Theorem mergeRanges_idempotent_sorted_disjoint (ranges : list (Z * Z)) :
  mergeRanges (mergeRanges ranges) = mergeRanges ranges /\
  StronglySorted start_le (mergeRanges ranges) /\
  StronglySorted ends_before (mergeRanges ranges) /\
  pairwise_disjoint (mergeRanges ranges) /\
  mergeRanges ranges = mergeSpans_spec ranges /\
  (forall x, Exists (in_span x) (mergeRanges ranges) <-> Exists (in_span x) ranges).
Proof.
  rewrite !mergeRanges_spec.
  destruct (mergeSpans_spec_shape ranges) as [Hst Hsep].
  split; [| split; [exact Hst | split; [exact Hsep | split; [| split]]]].
  - unfold mergeSpans_spec at 1. rewrite sort_by_start_id by exact Hst.
    destruct (mergeSpans_spec ranges) as [| cur rest]; [reflexivity |].
    by apply coalesce_separated_id.
  - by apply ends_before_disjoint.
  - reflexivity.
  - intros x. apply mergeSpans_spec_cover.
Qed.
End MergeRanges.

(** * One pass of function call resolution *)

Lemma slice_extend (code : text) (a b : nat) :
  a <= b -> take a code ++ slice code a b = take b code.
Proof.
  intros H. unfold slice. rewrite take_take_drop. f_equal. lia.
Qed.

Section ResolveOnce.
Variable registry : gmap text FunctionDef.

(** Where no matched name is registered the pass copies the text. *)
Lemma resolveOnce_loop_unknown (code : text) (ms : list rmatch) :
  forall pos,
    matches_ok code pos ms ->
    Forall (fun m => registry !! group m 1 = None) ms ->
    resolveOnce_loop code registry ms (take pos code) pos = Ok code.
Proof.
  induction ms as [| m ms IH]; intros pos Hok Hun; simpl.
  - unfold slice_from. by rewrite take_drop.
  - destruct Hok as (Hpos & Hend & Hfull & Hok).
    apply Forall_cons in Hun as [Hm Hun]. rewrite Hm.
    rewrite slice_extend by exact Hpos.
    assert (take (m_index m) code ++ m_full m = take (m_end m) code) as ->.
    { rewrite Hfull. apply slice_extend. unfold m_end. lia. }
    by apply IH.
Qed.

(** Unregistered calls at the head of the list are copied through: the pass
    goes on from a later offset with the text up to there written out. *)
Lemma resolveOnce_loop_unknown_prefix (code : text) (ms1 ms2 : list rmatch) :
  forall pos,
    matches_ok code pos (ms1 ++ ms2) ->
    Forall (fun m => registry !! group m 1 = None) ms1 ->
    exists p, pos <= p /\ matches_ok code p ms2 /\
      resolveOnce_loop code registry (ms1 ++ ms2) (take pos code) pos =
      resolveOnce_loop code registry ms2 (take p code) p.
Proof.
  induction ms1 as [| m ms1 IH]; intros pos Hok Hun.
  - exists pos. by repeat split.
  - destruct Hok as (Hpos & Hend & Hfull & Hok).
    apply Forall_cons in Hun as [Hm Hun].
    destruct (IH _ Hok Hun) as (p & Hp & Hok2 & Heq).
    exists p. split; [unfold m_end in Hp; lia |]. split; [exact Hok2 |].
    cbn [app resolveOnce_loop]. rewrite Hm.
    rewrite slice_extend by exact Hpos.
    assert (take (m_index m) code ++ m_full m = take (m_end m) code) as ->.
    { rewrite Hfull. apply slice_extend. unfold m_end. lia. }
    exact Heq.
Qed.

(** The pass only ever adds to what it has written. *)
Lemma resolveOnce_loop_extends (code : text) (ms : list rmatch) :
  forall acc lastIdx out,
    resolveOnce_loop code registry ms acc lastIdx = Ok out ->
    exists b, out = acc ++ b.
Proof.
  induction ms as [| m ms IH]; intros acc lastIdx out H; simpl in H.
  - injection H as <-. by eexists.
  - destruct (registry !! group m 1) as [def |].
    + destruct (findMatchingBrace code _) as [argsEnd | e]; [| discriminate].
      destruct (extractResult (fn_body def)) as [expr | e]; [| discriminate].
      simpl in H. apply IH in H as [b ->].
      rewrite <- !app_assoc. by eexists.
    + apply IH in H as [b ->]. rewrite <- !app_assoc. by eexists.
Qed.

End ResolveOnce.

(** C6, as stated, fails: the call to the unregistered [--u] does not come
    out as it went in, the registered call among its arguments is resolved. *)
Lemma unknown_call_text_changed_counterexample :
  nested_registry !! txt "--u" = None /\
  resolveOnce (txt "--u(--b())") nested_registry = Ok (txt "--u(--a(2))") /\
  occurs (txt "--u(--b())") (txt "--u(--a(2))") = false.
Proof. repeat split; vm_compute; reflexivity. Qed.

(** * Texts with something put in front *)

Lemma slice_app_shift (pre code : text) (a b : nat) :
  slice (pre ++ code) (length pre + a) (length pre + b) = slice code a b.
Proof.
  unfold slice. rewrite drop_app_add'; [| reflexivity]. f_equal. lia.
Qed.

Lemma slice_from_app_shift (pre code : text) (a : nat) :
  slice_from (pre ++ code) (length pre + a) = slice_from code a.
Proof. unfold slice_from. by rewrite drop_app_add'. Qed.

Lemma findMatchingBrace_loop_shift (k : nat) (rest : text) :
  forall i d,
    findMatchingBrace_loop rest (k + i) d =
    option_map (Nat.add k) (findMatchingBrace_loop rest i d).
Proof.
  induction rest as [| c rest IH]; intros i d; simpl; [reflexivity |].
  destruct (bracket_step d c =? 0)%Z; [reflexivity |].
  rewrite <- IH. f_equal. lia.
Qed.

Lemma findMatchingBrace_app_shift (pre code : text) (a : nat) :
  findMatchingBrace (pre ++ code) (length pre + a) =
  match findMatchingBrace code a with
  | Ok i => Ok (length pre + i)
  | Err (UnmatchedBrace p) => Err (UnmatchedBrace (length pre + p))
  | Err MissingResult => Err MissingResult
  end.
Proof.
  unfold findMatchingBrace. rewrite drop_app_add'; [| reflexivity].
  rewrite findMatchingBrace_loop_shift.
  by destruct (findMatchingBrace_loop (drop a code) a 1).
Qed.

(** * A call head at the head of a text *)

Lemma is_identifier_shape (nm : text) :
  is_identifier nm = true ->
  exists c w, nm = "-"%char :: "-"%char :: c :: w /\ is_ident c = true /\
              forallb is_ident w = true.
Proof.
  destruct nm as [| c1 [| c2 [| c w]]]; simpl; try discriminate.
  - destruct c1 as [[] [] [] [] [] [] [] []]; discriminate.
  - destruct c1 as [[] [] [] [] [] [] [] []]; try discriminate;
      destruct c2 as [[] [] [] [] [] [] [] []]; discriminate.
  - destruct c1 as [[] [] [] [] [] [] [] []]; try discriminate;
      destruct c2 as [[] [] [] [] [] [] [] []]; try discriminate.
    intros H. apply andb_true_iff in H as [Hc Hw]. by exists c, w.
Qed.

Lemma match_here_call (nm rest : text) :
  is_identifier nm = true ->
  match_here callRegex (nm ++ "("%char :: rest) =
  Some (length nm + 1, set_cap 1 nm no_caps).
Proof.
  intros H. apply is_identifier_shape in H as (c & w & -> & Hc & Hw).
  unfold match_here, callRegex, ident_re. simpl. rewrite Hc.
  erewrite star_loop_run; [reflexivity | exact Hw | reflexivity |].
  simpl. rewrite take_app_length. reflexivity.
Qed.

Lemma matchAll_call_head (nm rest : text) :
  is_identifier nm = true ->
  matchAll callRegex (nm ++ "("%char :: rest) =
  mkMatch 0 (nm ++ ["("%char]) (set_cap 1 nm no_caps) ::
  map (shift (length (nm ++ ["("%char]))) (matchAll callRegex rest).
Proof.
  intros H. unfold matchAll.
  rewrite (matchAll_from_match _ _ 0 _ _ (match_here_call nm rest H)) by lia.
  replace (nm ++ "("%char :: rest) with ((nm ++ ["("%char]) ++ rest)
    by (by rewrite <- app_assoc).
  replace (length nm + 1) with (length (nm ++ ["("%char]))
    by (rewrite length_app; reflexivity).
  rewrite take_app_length, drop_app_length.
  f_equal. rewrite <- matchAll_from_shift. f_equal. lia.
Qed.

(** * Function headers *)

Lemma star_loop_stop {R : Type} (p : ascii -> bool) (c : ascii) (s : text)
    (i : nat) (k : text -> nat -> option R) :
  p c = false -> star_loop p (c :: s) i k = k (c :: s) i.
Proof. intros H. simpl. by rewrite H. Qed.

Lemma forallb_is_not (x : ascii) (s : text) :
  x ∉ s -> forallb (is_not x) s = true.
Proof.
  induction s as [| c s IH]; intros H; simpl; [reflexivity |].
  apply not_elem_of_cons in H as [Hc Hs].
  rewrite (IH Hs), andb_true_r. unfold is_not, chr_eqb.
  destruct (Ascii.eqb_spec c x); [congruence | reflexivity].
Qed.

Lemma match_here_function_none (s : text) :
  match s with [] => True | c :: _ => c <> "@"%char end ->
  match_here functionRegex s = None.
Proof.
  intros H. unfold match_here, functionRegex. cbn [cat]. rewrite rx_Seq_Lit.
  destruct s as [| c s]; [reflexivity |].
  change (is_prefix (txt "@function") (c :: s))
    with (chr_eqb "@" c && is_prefix (txt "function") s).
  unfold chr_eqb.
  destruct (Ascii.eqb_spec "@"%char c) as [<- | _]; [congruence | reflexivity].
Qed.

Lemma matchAll_from_function_none (s : text) :
  "@"%char ∉ s -> forall idx skip, matchAll_from functionRegex s idx skip = [].
Proof.
  induction s as [| c s IH]; intros H idx skip.
  - destruct skip; cbn [matchAll_from]; [| reflexivity].
    by rewrite match_here_function_none.
  - apply not_elem_of_cons in H as [Hc Hs].
    destruct skip; cbn [matchAll_from]; [| by apply IH].
    rewrite match_here_function_none by congruence. by apply IH.
Qed.

(** * The worked examples of function calls *)

(** A pass over a given text starts from the list of its matches. *)
Ltac take_matches ms :=
  match goal with
  | |- context [matchAll ?r ?s] =>
      replace (matchAll r s) with ms by (vm_compute; reflexivity)
  end.

Section NestedCall.
Variable registry : gmap text FunctionDef.
Hypothesis has_a : registry !! txt "--a" = Some fn_a.
Hypothesis has_b : registry !! txt "--b" = Some fn_b.

Lemma resolveOnce_b : resolveOnce (txt "--b()") registry = Ok (txt "--a(2)").
Proof.
  unfold resolveOnce.
  take_matches [mkMatch 0 (txt "--b(") (set_cap 1 (txt "--b") no_caps)].
  cbn [resolveOnce_loop]. change (group _ 1) with (txt "--b").
  rewrite has_b. vm_compute. reflexivity.
Qed.

Lemma resolveOnce_a : resolveOnce (txt "--a(2)") registry = Ok (txt "2").
Proof.
  unfold resolveOnce.
  take_matches [mkMatch 0 (txt "--a(") (set_cap 1 (txt "--a") no_caps)].
  cbn [resolveOnce_loop]. change (group _ 1) with (txt "--a").
  rewrite has_a. vm_compute. reflexivity.
Qed.

Lemma resolveOnce_2 : resolveOnce (txt "2") registry = Ok (txt "2").
Proof. vm_compute. reflexivity. Qed.

Lemma resolveFunctionCalls_b (n : nat) :
  resolveFunctionCalls_loop (3 + n) (txt "--b()") registry = Ok (txt "2").
Proof.
  cbn [Nat.add resolveFunctionCalls_loop].
  rewrite resolveOnce_b. cbn [mbind result_bind].
  replace (text_eqb (txt "--a(2)") (txt "--b()")) with false
    by (vm_compute; reflexivity).
  rewrite resolveOnce_a. cbn [mbind result_bind].
  replace (text_eqb (txt "2") (txt "--a(2)")) with false
    by (vm_compute; reflexivity).
  rewrite resolveOnce_2. cbn [mbind result_bind].
  replace (text_eqb (txt "2") (txt "2")) with true by (vm_compute; reflexivity).
  reflexivity.
Qed.
End NestedCall.

(** C1. In a registry that holds [--a] and [--b] as their declarations give
    them, [--b()] resolves to [2], the text that putting [2] for [--x] in the
    result expression of [--a] gives.  The first pass yields [--a(2)], the
    second [2], the third changes nothing: three of the ten turns are used.
    [extractFunctions] builds such a registry from the declarations. *)
Theorem nested_call_resolves (registry : gmap text FunctionDef) :
  registry !! txt "--a" = Some fn_a ->
  registry !! txt "--b" = Some fn_b ->
  resolveFunctionCalls (txt "--b()") registry = Ok (txt "2") /\
  (expr ← extractResult (fn_body fn_a);
   Ok (substituteVars expr (fn_params fn_a) [txt "2"])) = Ok (txt "2") /\
  resolveOnce (txt "--b()") registry = Ok (txt "--a(2)") /\
  resolveOnce (txt "--a(2)") registry = Ok (txt "2") /\
  resolveOnce (txt "2") registry = Ok (txt "2") /\
  resolveFunctionCalls_loop 3 (txt "--b()") registry = Ok (txt "2") /\
  extractFunctions nested_functions ∅ = Ok (nested_registry, [(0, 39); (40, 84)]).
Proof.
  intros Ha Hb.
  split; [apply (resolveFunctionCalls_b registry Ha Hb 7) |].
  split; [vm_compute; reflexivity |].
  split; [by apply resolveOnce_b |].
  split; [by apply resolveOnce_a |].
  split; [apply resolveOnce_2 |].
  split; [apply (resolveFunctionCalls_b registry Ha Hb 0) |].
  vm_compute. reflexivity.
Qed.

Lemma nested_call_resolves_witness :
  nested_registry !! txt "--a" = Some fn_a /\
  nested_registry !! txt "--b" = Some fn_b /\
  resolveFunctionCalls (txt "--b()") nested_registry = Ok (txt "2").
Proof.
  assert (nested_registry !! txt "--a" = Some fn_a) as Ha
    by (vm_compute; reflexivity).
  assert (nested_registry !! txt "--b" = Some fn_b) as Hb
    by (vm_compute; reflexivity).
  split; [exact Ha | split; [exact Hb |]].
  exact (proj1 (nested_call_resolves nested_registry Ha Hb)).
Defined.

(** * Splitting a list of matches at one of them *)

Lemma matchAll_from_index_ge (r : regex) (s : text) :
  forall idx skip m, m ∈ matchAll_from r s idx skip -> idx + skip <= m_index m.
Proof.
  induction s as [| c s IH]; intros idx skip m Hin.
  - destruct skip; simpl in Hin; [| by apply elem_of_nil in Hin].
    destruct (match_here r []) as [[n caps] |]; [| by apply elem_of_nil in Hin].
    apply list_elem_of_singleton in Hin as ->. simpl. lia.
  - destruct skip as [| skip]; simpl in Hin.
    + destruct (match_here r (c :: s)) as [[n caps] |].
      * apply elem_of_cons in Hin as [-> | Hin]; [simpl; lia |].
        apply IH in Hin. lia.
      * apply IH in Hin. lia.
    + apply IH in Hin. lia.
Qed.

Section MatchTail.
Variable r : regex.
Hypothesis r_nonempty :
  forall s n caps, match_here r s = Some (n, caps) -> 0 < n.

(** Behind a match the list goes on as the list of what follows it. *)
Lemma matchAll_from_tail (s : text) :
  forall idx skip ms1 m ms2,
    matchAll_from r s idx skip = ms1 ++ m :: ms2 ->
    ms2 = matchAll_from r (drop (m_end m - idx) s) (m_end m) 0.
Proof.
  induction s as [| c s IH]; intros idx skip ms1 m ms2 H.
  - destruct skip; simpl in H; [| by destruct ms1].
    destruct (match_here r []) as [[n caps] |] eqn:E; [| by destruct ms1].
    pose proof (r_nonempty _ _ _ E). apply match_here_length in E. simpl in E. lia.
  - assert (forall skip' ms1',
              matchAll_from r s (S idx) skip' = ms1' ++ m :: ms2 ->
              ms2 = matchAll_from r (drop (m_end m - idx) (c :: s)) (m_end m) 0)
      as Hrec.
    { intros skip' ms1' H'.
      assert (S idx + skip' <= m_index m) as Hge.
      { apply matchAll_from_index_ge with (r := r) (s := s).
        rewrite H'. apply elem_of_app. right. apply elem_of_cons. by left. }
      assert (m_end m - idx = S (m_end m - S idx)) as -> by (unfold m_end; lia).
      simpl drop. by eapply IH. }
    destruct skip as [| skip]; simpl in H; [| by eapply Hrec].
    destruct (match_here r (c :: s)) as [[n caps] |] eqn:E; [| by eapply Hrec].
    destruct ms1 as [| m1 ms1]; [| injection H as _ H; by eapply Hrec].
    pose proof (matchAll_from_match r (c :: s) idx n caps E (r_nonempty _ _ _ E))
      as Hm.
    simpl matchAll_from in Hm. rewrite E in Hm.
    simpl in H. injection H as <- <-. injection Hm as ->.
    pose proof (match_here_length _ _ _ _ E) as Hlen.
    unfold m_end. simpl m_index. simpl m_full. rewrite length_take.
    replace (n `min` length (c :: s)) with n by lia.
    f_equal. f_equal. lia.
Qed.

Lemma matchAll_tail (code : text) (ms1 ms2 : list rmatch) (m : rmatch) :
  matchAll r code = ms1 ++ m :: ms2 ->
  ms2 = map (shift (m_end m)) (matchAll r (drop (m_end m) code)).
Proof.
  intros H. unfold matchAll in *.
  apply matchAll_from_tail in H. rewrite Nat.sub_0_r in H.
  rewrite <- matchAll_from_shift, Nat.add_0_r. exact H.
Qed.
End MatchTail.

Lemma matches_ok_app (code : text) (ms1 : list rmatch) :
  forall pos m ms2,
    matches_ok code pos (ms1 ++ m :: ms2) ->
    pos <= m_index m /\ m_end m <= length code /\
    m_full m = slice code (m_index m) (m_end m).
Proof.
  induction ms1 as [| m1 ms1 IH]; intros pos m ms2 H; simpl in H.
  - tauto.
  - destruct H as (Hpos & _ & _ & H). apply IH in H as (H1 & H2 & H3).
    repeat split; try assumption. unfold m_end in *. lia.
Qed.

(** * One pass of mixin resolution *)

Lemma slice_take (code : text) (a b k : nat) :
  b <= k -> slice (take k code) a b = slice code a b.
Proof.
  intros H. unfold slice.
  destruct (decide (a <= b)) as [Hab | Hab].
  - replace k with (a + (k - a)) by lia.
    rewrite <- take_drop_commute, take_take. f_equal. lia.
  - replace (b - a) with 0 by lia. by rewrite !take_0.
Qed.

Lemma splice_split (code : text) (repl : rmatch -> text) (ms1 : list rmatch) :
  forall pos m ms2,
    matches_ok code pos (ms1 ++ m :: ms2) ->
    splice code pos (ms1 ++ m :: ms2) repl =
    splice (take (m_index m) code) pos ms1 repl ++ repl m ++
    splice code (m_end m) ms2 repl.
Proof.
  induction ms1 as [| m1 ms1 IH]; intros pos m ms2 Hok; simpl.
  - f_equal. unfold slice_from, slice.
    destruct Hok as (Hpos & _).
    replace (m_index m) with (pos + (m_index m - pos)) at 2 by lia.
    by rewrite <- take_drop_commute.
  - destruct Hok as (Hpos & Hend & Hfull & Hok).
    rewrite (IH _ _ _ Hok), <- !app_assoc.
    apply matches_ok_app in Hok as (Hle & _).
    rewrite slice_take by (unfold m_end in Hle; lia).
    reflexivity.
Qed.

Lemma splice_shift (pre code : text) (repl : rmatch -> text) (ms : list rmatch) :
  (forall m, repl (shift (length pre) m) = repl m) ->
  forall pos,
    splice (pre ++ code) (length pre + pos) (map (shift (length pre)) ms) repl =
    splice code pos ms repl.
Proof.
  intros Hrepl. induction ms as [| m ms IH]; intros pos; simpl.
  - apply slice_from_app_shift.
  - rewrite slice_app_shift, Hrepl. do 2 f_equal.
    unfold m_end in *. simpl. rewrite <- Nat.add_assoc. apply IH.
Qed.

Lemma resolveMixinsOnce_loop_splice (registry : gmap text MixinDef) (code : text)
    (ms : list rmatch) :
  forall acc pos,
    resolveMixinsOnce_loop code registry ms acc pos =
    acc ++ splice code pos ms (applyMixin registry).
Proof.
  induction ms as [| m ms IH]; intros acc pos; simpl; [reflexivity |].
  rewrite IH, <- !app_assoc. reflexivity.
Qed.

Lemma applyRegex_nonempty (s : text) (n : nat) (caps : captures) :
  match_here applyRegex s = Some (n, caps) -> 0 < n.
Proof.
  unfold match_here, applyRegex. cbn [cat]. rewrite rx_Seq_Lit.
  destruct (is_prefix _ s); [| discriminate].
  intros H. apply rx_sound in H as (n' & c' & _ & H).
  simpl in H. injection H as <- _. lia.
Qed.

(** C5, amended.  What the apply pattern matches of a site whose mixin name
    is not registered gives way, whole, to the comment that names the mixin:
    the text before the match, with the sites in it resolved, is followed by
    the comment, and the text behind the match is resolved as any text is.
    The pass is a total function; nothing is raised. *)
Theorem resolveMixinsOnce_unknown_marker (code : text)
    (registry : gmap text MixinDef) (ms1 ms2 : list rmatch) (m : rmatch) :
  matchAll applyRegex code = ms1 ++ m :: ms2 ->
  registry !! group m 1 = None ->
  m_full m = slice code (m_index m) (m_end m) /\
  resolveMixinsOnce code registry =
    resolveMixinsOnce_loop (take (m_index m) code) registry ms1 [] 0 ++
    (txt "/* Unknown mixin: " ++ group m 1 ++ txt " */") ++
    resolveMixinsOnce (drop (m_end m) code) registry.
Proof.
  intros Hsplit Hun.
  pose proof (matchAll_ok applyRegex code) as Hok. rewrite Hsplit in Hok.
  pose proof (matches_ok_app _ _ _ _ _ Hok) as (_ & Hend & Hfull).
  split; [exact Hfull |].
  unfold resolveMixinsOnce. rewrite !resolveMixinsOnce_loop_splice.
  rewrite !app_nil_l.
  rewrite Hsplit, (splice_split _ _ _ _ _ _ Hok).
  assert (applyMixin registry m = txt "/* Unknown mixin: " ++ group m 1 ++ txt " */")
    as -> by (unfold applyMixin; by rewrite Hun).
  rewrite (matchAll_tail _ applyRegex_nonempty _ _ _ _ Hsplit).
  pose proof (splice_shift (take (m_end m) code) (drop (m_end m) code)
                (applyMixin registry)
                (matchAll applyRegex (drop (m_end m) code))
                (fun _ => eq_refl) 0) as Hs.
  rewrite take_drop, length_take, Nat.add_0_r in Hs.
  replace (m_end m `min` length code) with (m_end m) in Hs by lia.
  rewrite Hs. reflexivity.
Qed.

Lemma resolveMixinsOnce_unknown_marker_witness :
  let code := txt "a { @apply --nope(1, 2); b: c; }" in
  exists m,
    matchAll applyRegex code = [] ++ m :: [] /\
    box_registry !! group m 1 = None /\
    m_full m = txt "@apply --nope(1, 2);" /\
    resolveMixinsOnce code box_registry =
      txt "a { " ++ txt "/* Unknown mixin: --nope */" ++
      resolveMixinsOnce (txt " b: c; }") box_registry.
Proof.
  intros code.
  exists (mkMatch 4 (txt "@apply --nope(1, 2);")
            (set_cap 2 (txt "1, 2") (set_cap 1 (txt "--nope") no_caps))).
  assert (matchAll applyRegex code =
          [] ++ mkMatch 4 (txt "@apply --nope(1, 2);")
                  (set_cap 2 (txt "1, 2") (set_cap 1 (txt "--nope") no_caps)) :: [])
    as Hsplit by (vm_compute; reflexivity).
  split; [exact Hsplit |]. split; [vm_compute; reflexivity |].
  split; [reflexivity |].
  exact (proj2 (resolveMixinsOnce_unknown_marker code box_registry [] [] _
                  Hsplit eq_refl)).
Defined.

(** * The worked examples of mixins *)

Section BoxMixin.
Variables (registry : gmap text MixinDef) (def : MixinDef).
Hypothesis has_box : registry !! txt "--box" = Some def.
Hypothesis box_plain : hasContents def = false.

Lemma resolveMixinsOnce_box_blue :
  resolveMixinsOnce (txt "@apply --box(blue);") registry =
  substituteEnvVars (mx_body def) (mx_params def) [txt "blue"].
Proof.
  unfold resolveMixinsOnce.
  take_matches [mkMatch 0 (txt "@apply --box(blue);")
                  (set_cap 2 (txt "blue") (set_cap 1 (txt "--box") no_caps))].
  cbn [resolveMixinsOnce_loop]. unfold applyMixin. cbv zeta.
  change (group _ 1) with (txt "--box"). rewrite has_box, box_plain.
  match goal with
  | |- context [substituteEnvVars _ _ ?a] =>
      replace a with [txt "blue"] by (vm_compute; reflexivity)
  end.
  change ([] ++ slice _ 0 _) with (@nil ascii).
  change (slice_from _ _) with (@nil ascii).
  by rewrite app_nil_l, app_nil_r.
Qed.

Lemma resolveMixinsOnce_box_default :
  resolveMixinsOnce (txt "@apply --box;") registry =
  substituteEnvVars (mx_body def) (mx_params def) [].
Proof.
  unfold resolveMixinsOnce.
  take_matches [mkMatch 0 (txt "@apply --box;")
                  (set_cap 1 (txt "--box") no_caps)].
  cbn [resolveMixinsOnce_loop]. unfold applyMixin. cbv zeta.
  change (group _ 1) with (txt "--box"). rewrite has_box, box_plain.
  match goal with
  | |- context [substituteEnvVars _ _ ?a] =>
      replace a with (@nil text) by (vm_compute; reflexivity)
  end.
  change ([] ++ slice _ 0 _) with (@nil ascii).
  change (slice_from _ _) with (@nil ascii).
  by rewrite app_nil_l, app_nil_r.
Qed.
End BoxMixin.

(** One more pass over a text that holds no apply site ends the loop. *)
Lemma resolveMixinApplications_two_passes (registry : gmap text MixinDef)
    (code out : text) :
  resolveMixinsOnce code registry = out ->
  matchAll applyRegex out = [] ->
  resolveMixinApplications code registry = out.
Proof.
  intros Hone Hnone.
  assert (resolveMixinsOnce out registry = out) as Hfix.
  { unfold resolveMixinsOnce. rewrite Hnone. apply drop_0. }
  unfold resolveMixinApplications, MAX_RECURSION_DEPTH.
  cbn [resolveMixinApplications_loop]. rewrite Hone, Hfix.
  unfold text_eqb. rewrite (bool_decide_eq_true_2 (out = out)) by reflexivity.
  by destruct (bool_decide (out = code)) eqn:E; [apply bool_decide_eq_true_1 in E |].
Qed.

(** C3. In a registry that holds [--box] with the parameter [--c], default
    [red], and the body [color: env(--c);], the application
    [@apply --box(blue);] yields [color: blue;] and [@apply --box;] yields
    [color: red;].  [extractMixins] takes the body as the text between the
    braces: from the declaration written with a blank next to each brace it
    registers the body with those blanks, and the two outputs carry them. *)
Theorem box_argument_and_default (registry : gmap text MixinDef) :
  (registry !! txt "--box" = Some box_def ->
   resolveMixinApplications (txt "@apply --box(blue);") registry =
     txt "color: blue;" /\
   resolveMixinApplications (txt "@apply --box;") registry =
     txt "color: red;") /\
  (registry !! txt "--box" = Some box_def_spaced ->
   resolveMixinApplications (txt "@apply --box(blue);") registry =
     txt " color: blue; " /\
   resolveMixinApplications (txt "@apply --box;") registry =
     txt " color: red; ") /\
  extractMixins box_mixin_tight ∅ = Ok (<[txt "--box" := box_def]> ∅, [(0, 41)]) /\
  extractMixins box_mixin ∅ = Ok (<[txt "--box" := box_def_spaced]> ∅, [(0, 43)]).
Proof.
  split; [| split; [| split; vm_compute; reflexivity]].
  - intros H. split.
    + apply resolveMixinApplications_two_passes.
      * rewrite (resolveMixinsOnce_box_blue registry box_def H eq_refl).
        vm_compute. reflexivity.
      * vm_compute. reflexivity.
    + apply resolveMixinApplications_two_passes.
      * rewrite (resolveMixinsOnce_box_default registry box_def H eq_refl).
        vm_compute. reflexivity.
      * vm_compute. reflexivity.
  - intros H. split.
    + apply resolveMixinApplications_two_passes.
      * rewrite (resolveMixinsOnce_box_blue registry box_def_spaced H eq_refl).
        vm_compute. reflexivity.
      * vm_compute. reflexivity.
    + apply resolveMixinApplications_two_passes.
      * rewrite (resolveMixinsOnce_box_default registry box_def_spaced H eq_refl).
        vm_compute. reflexivity.
      * vm_compute. reflexivity.
Qed.

Lemma box_argument_and_default_witness :
  box_registry !! txt "--box" = Some box_def /\
  resolveMixinApplications (txt "@apply --box(blue);") box_registry =
    txt "color: blue;" /\
  resolveMixinApplications (txt "@apply --box;") box_registry =
    txt "color: red;".
Proof.
  assert (box_registry !! txt "--box" = Some box_def) as H
    by (vm_compute; reflexivity).
  split; [exact H |].
  exact (proj1 (box_argument_and_default box_registry) H).
Defined.

(** C2, as stated, fails.  Declared without a parameter list the mixin is
    not registered, and the application becomes the unknown-mixin comment; an
    entry without the contents marker leaves the placeholder where it is.
    Either way the text of the block is not in the output. *)
Lemma contents_without_marker_counterexample :
  extractMixins wrap_mixin_bare ∅ = Ok (∅, []) /\
  resolveMixinApplications wrap_apply ∅ = txt "/* Unknown mixin: --wrap */}" /\
  resolveMixinApplications wrap_apply wrap_registry_unmarked =
    txt " @media (min-width: 1px) { @contents; } }" /\
  occurs (txt "color: red") (resolveMixinApplications wrap_apply ∅) = false /\
  occurs (txt "color: red")
    (resolveMixinApplications wrap_apply wrap_registry_unmarked) = false.
Proof. repeat split; vm_compute; reflexivity. Qed.

(** C2, amended.  Declared with the contents marker as its parameter, the
    mixin is registered with [hasContents] set, and the application yields
    the body with the placeholder replaced by the content of the block. *)
Theorem contents_with_marker_spliced :
  extractMixins wrap_mixin ∅ = Ok (wrap_registry, [(0, 67)]) /\
  resolveMixinsOnce wrap_apply wrap_registry =
    txt " @media (min-width: 1px) { .a { color: red; } }" /\
  resolveMixinApplications wrap_apply wrap_registry =
    txt " @media (min-width: 1px) { .a { color: red; } }".
Proof. repeat split; vm_compute; reflexivity. Qed.

(** * Blanking definitions *)

Lemma slice_split (code : text) (a b c : nat) :
  a <= b -> b <= c -> slice code a c = slice code a b ++ slice code b c.
Proof.
  intros Hab Hbc. unfold slice.
  replace (c - a) with ((b - a) + (c - b)) by lia.
  rewrite <- take_take_drop, drop_drop. do 3 f_equal. lia.
Qed.

Lemma splice_gap (code : text) (repl : rmatch -> text) (ms : list rmatch)
    (pos pos' : nat) :
  pos <= pos' -> matches_ok code pos' ms ->
  splice code pos ms repl = slice code pos pos' ++ splice code pos' ms repl.
Proof.
  intros Hle Hok. destruct ms as [| m ms]; simpl.
  - unfold slice_from, slice.
    rewrite <- (take_drop (pos' - pos) (drop pos code)) at 1.
    rewrite drop_drop. do 2 f_equal. lia.
  - destruct Hok as (Hpos & _).
    rewrite (slice_split code pos pos' (m_index m)) by assumption.
    by rewrite <- app_assoc.
Qed.

(** Replacing each character of a class by nothing keeps the others. *)
Lemma replace_class_empty (p : ascii -> bool) (s : text) :
  replace_str (Cls p) [] s = List.filter (fun c => negb (p c)) s.
Proof.
  unfold replace_str. simpl ngroups. simpl substitution.
  enough (forall pre,
            splice (pre ++ s) (length pre)
              (matchAll_from (Cls p) s (length pre) 0) (fun _ => []) =
            List.filter (fun c => negb (p c)) s) as H by apply (H []).
  induction s as [| c s IH]; intros pre.
  - simpl. unfold slice_from. by rewrite app_nil_r, drop_all.
  - specialize (IH (pre ++ [c])).
    rewrite <- app_assoc, length_app, Nat.add_1_r in IH. simpl app in IH.
    simpl matchAll_from. unfold match_here. simpl rx.
    destruct (p c) eqn:Hp; simpl.
    + unfold slice at 1. rewrite Nat.sub_diag, take_0. simpl.
      unfold m_end. simpl. rewrite Nat.add_1_r, Hp. exact IH.
    + rewrite (splice_gap _ _ _ _ (S (length pre))); [| lia |].
      * rewrite IH, Hp. unfold slice. rewrite drop_app_length.
        replace (S (length pre) - length pre) with 1 by lia. reflexivity.
      * pose proof (matchAll_from_ok (Cls p) s (pre ++ [c]) 0) as Hok.
        rewrite <- app_assoc, length_app, Nat.add_1_r, Nat.add_0_r in Hok.
        exact Hok.
Qed.

Lemma stripDefinitions_step_chars (result : text) (s e : nat) :
  stripDefinitions_step result (s, e) =
  take s result ++ List.filter is_newline (slice result s e) ++ drop e result.
Proof.
  unfold stripDefinitions_step, notNewlineRegex, slice_from.
  rewrite replace_class_empty. unfold slice at 1. rewrite drop_0, Nat.sub_0_r.
  do 2 f_equal. apply filter_ext. intros c. unfold is_not, is_newline.
  apply negb_involutive.
Qed.

Lemma stripDefinitions_cons (code : text) (sp : nat * nat) (rest : list (nat * nat)) :
  stripDefinitions code (sp :: rest) =
  stripDefinitions_step (stripDefinitions code rest) sp.
Proof. unfold stripDefinitions. simpl. by rewrite foldl_app. Qed.

Lemma count_newlines_app (a b : text) :
  count_newlines (a ++ b) = count_newlines a + count_newlines b.
Proof. unfold count_newlines. by rewrite List.filter_app, length_app. Qed.

Lemma filter_filter_same {A : Type} (f : A -> bool) (l : list A) :
  List.filter f (List.filter f l) = List.filter f l.
Proof.
  induction l as [| x l IH]; simpl; [reflexivity |].
  destruct (f x) eqn:E; simpl; [rewrite E; by f_equal | exact IH].
Qed.

Lemma text_three_parts (code : text) (s e : nat) :
  s <= e -> code = take s code ++ slice code s e ++ drop e code.
Proof.
  intros Hse. unfold slice. rewrite <- (take_drop s code) at 1. f_equal.
  rewrite <- (take_drop (e - s) (drop s code)) at 1. f_equal.
  rewrite drop_drop. f_equal. lia.
Qed.

Lemma stripDefinitions_step_newlines (result : text) (s e : nat) :
  s <= e ->
  count_newlines (stripDefinitions_step result (s, e)) = count_newlines result.
Proof.
  intros Hse. rewrite stripDefinitions_step_chars, !count_newlines_app.
  assert (count_newlines (List.filter is_newline (slice result s e)) =
          count_newlines (slice result s e)) as ->
    by (unfold count_newlines; by rewrite filter_filter_same).
  rewrite <- !count_newlines_app. f_equal. symmetry. by apply text_three_parts.
Qed.

Lemma stripDefinitions_newlines (code : text) (spans : list (nat * nat)) :
  Forall span_ok spans ->
  count_newlines (stripDefinitions code spans) = count_newlines code.
Proof.
  induction spans as [| [s e] rest IH]; intros Hok; [reflexivity |].
  apply Forall_cons in Hok as [Hse Hok].
  rewrite stripDefinitions_cons, stripDefinitions_step_newlines by exact Hse.
  by apply IH.
Qed.

(** ** The characters that stay *)

Lemma blank_from_app (a b : text) (spans : list (nat * nat)) :
  forall i,
    blank_from i (a ++ b) spans =
    blank_from i a spans ++ blank_from (i + length a) b spans.
Proof.
  induction a as [| c a IH]; intros i; simpl.
  - by rewrite Nat.add_0_r.
  - rewrite IH, <- Nat.add_succ_comm.
    by destruct (is_newline c || negb (in_spans i spans)).
Qed.

Lemma blank_from_ext (a : text) (spans spans' : list (nat * nat)) :
  forall i,
    (forall j, i <= j -> in_spans j spans = in_spans j spans') ->
    blank_from i a spans = blank_from i a spans'.
Proof.
  induction a as [| c a IH]; intros i H; simpl; [reflexivity |].
  rewrite (H i) by lia. rewrite (IH (S i)); [reflexivity |].
  intros j Hj. apply H. lia.
Qed.

Lemma blank_from_outside (a : text) (spans : list (nat * nat)) :
  forall i,
    (forall j, i <= j < i + length a -> in_spans j spans = false) ->
    blank_from i a spans = a.
Proof.
  induction a as [| c a IH]; intros i H; simpl; [reflexivity |].
  rewrite (H i) by (simpl; lia). rewrite orb_true_r. f_equal.
  apply IH. intros j Hj. apply H. simpl. lia.
Qed.

Lemma blank_from_inside (a : text) (spans : list (nat * nat)) :
  forall i,
    (forall j, i <= j < i + length a -> in_spans j spans = true) ->
    blank_from i a spans = List.filter is_newline a.
Proof.
  induction a as [| c a IH]; intros i H; simpl; [reflexivity |].
  rewrite (H i) by (simpl; lia). rewrite orb_false_r.
  rewrite (IH (S i)); [reflexivity |].
  intros j Hj. apply H. simpl. lia.
Qed.

Lemma in_spans_below (spans : list (nat * nat)) :
  forall lo j, ascending_from lo spans -> j < lo -> in_spans j spans = false.
Proof.
  induction spans as [| [s e] rest IH]; intros lo j Hasc Hj; simpl; [reflexivity |].
  destruct Hasc as (Hlo & Hse & Hasc). simpl in *.
  rewrite (IH e j Hasc) by lia. rewrite orb_false_r.
  apply andb_false_iff. left. apply Nat.leb_gt. lia.
Qed.

Lemma take_prefix_length (code : text) (n : nat) :
  length (take n code) = n \/ drop n code = [].
Proof.
  destruct (decide (n <= length code)).
  - left. rewrite length_take. lia.
  - right. apply drop_ge. lia.
Qed.

(** The text split at a span that lies before all the others. *)
Lemma blank_from_first_span (code : text) (s e : nat) (rest : list (nat * nat)) :
  s <= e -> ascending_from e rest ->
  blank_from 0 code ((s, e) :: rest) =
  take s code ++ List.filter is_newline (slice code s e) ++
  blank_from e (drop e code) rest.
Proof.
  intros Hse Hasc.
  rewrite (text_three_parts code s e Hse) at 1. rewrite !blank_from_app. simpl "+".
  f_equal; [| f_equal].
  - apply blank_from_outside. intros j Hj. rewrite length_take in Hj. simpl.
    rewrite (in_spans_below rest e j Hasc) by lia.
    rewrite orb_false_r. apply andb_false_iff. left. apply Nat.leb_gt. lia.
  - destruct (take_prefix_length code s) as [-> | Hnil].
    + apply blank_from_inside. intros j Hj. unfold slice in Hj.
      rewrite length_take, length_drop in Hj. simpl.
      apply orb_true_iff. left. apply andb_true_iff.
      split; [apply Nat.leb_le | apply Nat.ltb_lt]; lia.
    + unfold slice. rewrite Hnil, take_nil. reflexivity.
  - destruct (take_prefix_length code e) as [Hlen | Hnil].
    + assert (length (take s code) + length (slice code s e) = e) as ->.
      { unfold slice. rewrite length_take, length_take, length_drop.
        rewrite length_take in Hlen. lia. }
      apply blank_from_ext. intros j Hj. simpl.
      replace (j <? e) with false by (symmetry; apply Nat.ltb_ge; lia).
      by rewrite andb_false_r.
    + rewrite Hnil. reflexivity.
Qed.

Lemma blank_from_later_spans (code : text) (e : nat) (rest : list (nat * nat)) :
  ascending_from e rest ->
  blank_from 0 code rest = take e code ++ blank_from e (drop e code) rest.
Proof.
  intros Hasc. rewrite <- (take_drop e code) at 1. rewrite blank_from_app. simpl "+".
  f_equal.
  - apply blank_from_outside. intros j Hj. rewrite length_take in Hj.
    apply (in_spans_below rest e j Hasc). lia.
  - destruct (take_prefix_length code e) as [-> | ->]; reflexivity.
Qed.

Lemma stripDefinitions_ascending (code : text) (spans : list (nat * nat)) :
  forall lo, ascending_from lo spans -> stripDefinitions code spans = blank_from 0 code spans.
Proof.
  induction spans as [| [s e] rest IH]; intros lo Hasc.
  - unfold stripDefinitions. simpl. symmetry.
    apply blank_from_outside. reflexivity.
  - destruct Hasc as (Hlo & Hse & Hasc). simpl in Hlo, Hse, Hasc.
    rewrite stripDefinitions_cons, (IH e Hasc), stripDefinitions_step_chars.
    rewrite (blank_from_first_span code s e rest Hse Hasc).
    rewrite (blank_from_later_spans code e rest Hasc).
    set (X := blank_from e (drop e code) rest).
    assert (length (take e code) = e \/ X = []) as [Hlen | HX].
    { destruct (take_prefix_length code e) as [H | H]; [by left | right].
      unfold X. by rewrite H. }
    + assert (slice (take e code ++ X) s e = slice code s e) as ->.
      { rewrite <- (slice_take code s e e) by lia. unfold slice.
        rewrite drop_app_le by lia.
        rewrite take_app_le by (rewrite length_drop; lia). reflexivity. }
      rewrite take_app_le, take_take by lia.
      replace (s `min` e) with s by lia.
      rewrite drop_app_ge by lia. rewrite Hlen, Nat.sub_diag, drop_0.
      reflexivity.
    + rewrite HX, !app_nil_r.
      rewrite take_take. replace (s `min` e) with s by lia. f_equal.
      rewrite slice_take by lia. f_equal.
      rewrite (drop_ge (take e code) e) by (rewrite length_take; lia).
      by rewrite app_nil_r.
Qed.

(** C9, as stated, fails: for disjoint spans listed out of order the
    characters [g] and [h], which lie in no span, are removed, and [e] and
    [f], which lie in one, stay. *)
Lemma stripDefinitions_unordered_counterexample :
  spans_disjoint [(4, 6); (0, 2)] /\
  stripDefinitions (txt "abcdefgh") [(4, 6); (0, 2)] = txt "cdef" /\
  blank_spans (txt "abcdefgh") [(4, 6); (0, 2)] = txt "cdgh" /\
  stripDefinitions (txt "abcdefgh") [(4, 6); (0, 2)] <>
    blank_spans (txt "abcdefgh") [(4, 6); (0, 2)].
Proof.
  split; [| split; [| split]]; try (vm_compute; reflexivity).
  - split.
    + repeat constructor.
    + intros [| [| i]] [| [| j]] a b Hij Ha Hb; simpl in *;
        try congruence; simplify_eq; simpl; lia.
  - vm_compute. discriminate.
Qed.

(** * Trimming *)

Lemma drop_space_suffix (s : text) :
  exists pre, s = pre ++ drop_space s /\ forallb is_space pre = true.
Proof.
  induction s as [| c s IH]; simpl.
  - by exists [].
  - destruct (is_space c) eqn:E.
    + destruct IH as (pre & Hs & Hpre). exists (c :: pre). simpl.
      rewrite E, Hpre. split; [by f_equal | reflexivity].
    + by exists [].
Qed.

Lemma drop_space_head (s : text) (c : ascii) (r : text) :
  drop_space s = c :: r -> is_space c = false.
Proof.
  induction s as [| x s IH]; simpl; [discriminate |].
  destruct (is_space x) eqn:E; [exact IH |].
  by intros [= <- _].
Qed.

Lemma drop_space_fixed (s : text) :
  match s with [] => True | c :: _ => is_space c = false end ->
  drop_space s = s.
Proof. destruct s as [| c s]; simpl; [reflexivity |]. by intros ->. Qed.

Lemma drop_space_idem (s : text) : drop_space (drop_space s) = drop_space s.
Proof.
  apply drop_space_fixed.
  destruct (drop_space s) as [| c r] eqn:E; [exact I |].
  by eapply drop_space_head.
Qed.

Lemma trim_trimmed (s : text) : trimmed (trim s).
Proof.
  unfold trimmed, trim. rewrite rev_involutive.
  split; [| apply drop_space_idem].
  set (a := drop_space s).
  destruct (drop_space_suffix (rev a)) as (pre & Hrev & _).
  set (b := drop_space (rev a)) in *.
  apply drop_space_fixed.
  destruct (rev b) as [| c r] eqn:Eb; [exact I |].
  assert (a = rev b ++ rev pre) as Ha.
  { rewrite <- (rev_involutive a), Hrev, rev_app_distr. reflexivity. }
  rewrite Eb in Ha. simpl in Ha.
  by eapply (drop_space_head s c (r ++ rev pre)).
Qed.

Lemma trimmed_trim (t : text) : trimmed t -> trim t = t.
Proof.
  intros [H1 H2]. unfold trim. rewrite H1, H2. apply rev_involutive.
Qed.

Lemma trim_idem (s : text) : trim (trim s) = trim s.
Proof. apply trimmed_trim, trim_trimmed. Qed.

Lemma elem_of_rev_iff {A : Type} (x : A) (l : list A) : x ∈ rev l <-> x ∈ l.
Proof. rewrite !list_elem_of_In. symmetry. apply in_rev. Qed.

Lemma trim_elem (s : text) (c : ascii) : c ∈ trim s -> c ∈ s.
Proof.
  unfold trim. rewrite elem_of_rev_iff. intros H.
  destruct (drop_space_suffix (rev (drop_space s))) as (pre & Hs & _).
  assert (c ∈ rev (drop_space s)) as H'
    by (rewrite Hs; apply elem_of_app; by right).
  rewrite elem_of_rev_iff in H'.
  destruct (drop_space_suffix s) as (pre' & Hs' & _).
  rewrite Hs'. apply elem_of_app. by right.
Qed.

(** * Splitting at commas *)

Lemma splitByComma_loop_trimmed (str : text) :
  forall parts current depth,
    Forall trimmed parts ->
    Forall trimmed (splitByComma_loop str parts current depth).
Proof.
  induction str as [| c str IH]; intros parts current depth Hparts; simpl.
  - pose proof (trim_trimmed current) as Ht.
    destruct (trim current) as [| x t]; [exact Hparts |].
    apply Forall_app. split; [exact Hparts | by constructor].
  - destruct (chr_eqb c "," && (bracket_step depth c =? 0)%Z).
    + apply IH, Forall_app. split; [exact Hparts |].
      constructor; [apply trim_trimmed | constructor].
    + by apply IH.
Qed.

Lemma splitByComma_loop_no_comma (str : text) :
  ","%char ∉ str ->
  forall parts current depth,
    splitByComma_loop str parts current depth =
    match trim (current ++ str) with
    | [] => parts
    | t => parts ++ [t]
    end.
Proof.
  induction str as [| c str IH]; intros Hno parts current depth; simpl.
  - by rewrite app_nil_r.
  - apply not_elem_of_cons in Hno as [Hc Hno].
    assert (chr_eqb c "," = false) as ->.
    { unfold chr_eqb. destruct (Ascii.eqb_spec c ","%char); congruence. }
    simpl. rewrite (IH Hno), <- app_assoc. reflexivity.
Qed.

Lemma splitByComma_loop_length (str : text) :
  forall parts current depth,
    length (splitByComma_loop str parts current depth) <=
    length parts + S (length (List.filter (fun c => chr_eqb c ",") str)).
Proof.
  induction str as [| c str IH]; intros parts current depth; simpl.
  - destruct (trim current); [lia |]. rewrite length_app. simpl. lia.
  - destruct (chr_eqb c ","); simpl.
    + destruct (bracket_step depth c =? 0)%Z.
      * etrans; [apply IH |]. rewrite length_app. simpl. lia.
      * etrans; [apply IH |]. lia.
    + apply IH.
Qed.

(** X1. Every part [splitByComma] returns has no blank at either end; a
    text without a comma gives its trimmed self as the one part, or no part
    when that is empty; and there is at most one part more than there are
    commas. *)
Theorem splitByComma_parts (str : text) :
  Forall trimmed (splitByComma str) /\
  (","%char ∉ str ->
   splitByComma str = match trim str with [] => [] | t => [t] end) /\
  (length (splitByComma str) <=
     S (length (List.filter (fun c => chr_eqb c ",") str))).
Proof.
  split; [| split].
  - apply splitByComma_loop_trimmed. constructor.
  - intros H. unfold splitByComma.
    rewrite (splitByComma_loop_no_comma str H). simpl.
    by destruct (trim str).
  - apply (splitByComma_loop_length str [] [] 0%Z).
Qed.

Lemma splitByComma_parts_witness :
  (","%char ∉ txt "  calc(1 + 2)  ") /\
  splitByComma (txt "  calc(1 + 2)  ") = [txt "calc(1 + 2)"].
Proof.
  assert (","%char ∉ txt "  calc(1 + 2)  ") as H.
  { rewrite list_elem_of_In. simpl. intuition discriminate. }
  split; [exact H |].
  exact (proj1 (proj2 (splitByComma_parts (txt "  calc(1 + 2)  "))) H).
Defined.

(** * The closing bracket *)

Lemma findMatchingBrace_loop_closing (rest : text) :
  forall i d r,
    (1 <= d)%Z ->
    findMatchingBrace_loop rest i d = Some r ->
    exists k c, r = i + k /\ rest !! k = Some c /\ is_close c = true.
Proof.
  induction rest as [| c rest IH]; intros i d r Hd H; simpl in H; [discriminate |].
  destruct (Z.eqb_spec (bracket_step d c) 0) as [Hz | Hz].
  - injection H as <-. exists 0, c. split; [lia |]. split; [reflexivity |].
    unfold bracket_step in Hz.
    destruct (is_open c); [lia |]. destruct (is_close c); [reflexivity | lia].
  - apply IH in H as (k & c' & -> & Hk & Hc).
    + exists (S k), c'. split; [lia |]. by split.
    + unfold bracket_step in *.
      destruct (is_open c); [lia |]. destruct (is_close c); lia.
Qed.

Lemma findMatchingBrace_loop_more (rest more : text) :
  forall i d r,
    findMatchingBrace_loop rest i d = Some r ->
    findMatchingBrace_loop (rest ++ more) i d = Some r.
Proof.
  induction rest as [| c rest IH]; intros i d r H; simpl in *; [discriminate |].
  destruct (bracket_step d c =? 0)%Z; [exact H | by apply IH].
Qed.

Lemma findMatchingBrace_range (code : text) (start i : nat) :
  findMatchingBrace code start = Ok i -> start <= i < length code.
Proof.
  unfold findMatchingBrace.
  destruct (findMatchingBrace_loop (drop start code) start 1) as [r |] eqn:E;
    [| discriminate].
  intros [= ->].
  apply findMatchingBrace_loop_closing in E as (k & c & -> & Hk & Hc); [| lia].
  rewrite lookup_drop in Hk. apply lookup_lt_Some in Hk. lia.
Qed.

(** X2. The offset [findMatchingBrace] returns lies in the text, at or
    behind [start], and holds a closing bracket. *)
Theorem findMatchingBrace_closing (code : text) (start i : nat) :
  findMatchingBrace code start = Ok i ->
  start <= i < length code /\
  exists c, code !! i = Some c /\ is_close c = true.
Proof.
  unfold findMatchingBrace.
  destruct (findMatchingBrace_loop (drop start code) start 1) as [r |] eqn:E;
    [| discriminate].
  intros [= ->].
  apply findMatchingBrace_loop_closing in E as (k & c & -> & Hk & Hc); [| lia].
  rewrite lookup_drop in Hk.
  split; [| by exists c].
  apply lookup_lt_Some in Hk. lia.
Qed.

Lemma findMatchingBrace_closing_witness :
  findMatchingBrace (txt "a(b[c]d)e") 2 = Ok 7 /\
  exists c, txt "a(b[c]d)e" !! 7 = Some c /\ is_close c = true.
Proof.
  split; [reflexivity |].
  exact (proj2 (findMatchingBrace_closing (txt "a(b[c]d)e") 2 7 eq_refl)).
Defined.

(** X3. [findMatchingBrace] reads the text from [start] to the bracket it
    returns and nothing else: text put behind does not change the result,
    text put in front moves it by its length. *)
Theorem findMatchingBrace_local (pre code more : text) (start i : nat) :
  findMatchingBrace code start = Ok i ->
  findMatchingBrace (code ++ more) start = Ok i /\
  findMatchingBrace (pre ++ code) (length pre + start) = Ok (length pre + i).
Proof.
  intros H. split.
  - pose proof (findMatchingBrace_range code start i H) as Hi.
    unfold findMatchingBrace in *.
    rewrite drop_app_le by lia.
    destruct (findMatchingBrace_loop (drop start code) start 1) as [r |] eqn:E;
      [| discriminate].
    by rewrite (findMatchingBrace_loop_more _ more _ _ _ E).
  - rewrite findMatchingBrace_app_shift. by rewrite H.
Qed.

Lemma findMatchingBrace_local_witness :
  findMatchingBrace (txt "f(a)") 2 = Ok 3 /\
  findMatchingBrace (txt "f(a)" ++ txt " g(b)") 2 = Ok 3 /\
  findMatchingBrace (txt "x: " ++ txt "f(a)") (3 + 2) = Ok (3 + 3).
Proof.
  split; [reflexivity |].
  exact (findMatchingBrace_local (txt "x: ") (txt "f(a)") (txt " g(b)") 2 3 eq_refl).
Defined.

(** * Parameters *)

Lemma parseParams_step_spec (acc : list FunctionParam * bool) (p : text) :
  Forall (fun q => name q <> []) (fst acc) ->
  Forall (fun q => name q <> []) (fst (parseParams_step acc p)) /\
  length (fst (parseParams_step acc p)) <= S (length (fst acc)) /\
  snd (parseParams_step acc p) =
    snd acc || text_eqb (trim p) (txt "@contents").
Proof.
  destruct acc as [params contents]. intros Hacc. unfold parseParams_step.
  destruct (text_eqb (trim p) (txt "@contents")); simpl.
  - split; [exact Hacc |]. split; [lia | by rewrite orb_true_r].
  - match goal with
    | |- context [match ?n with [] => _ | _ :: _ => _ end] =>
        destruct n as [| c nm] eqn:En
    end; simpl.
    + split; [exact Hacc |]. split; [lia | by rewrite orb_false_r].
    + split; [| split; [rewrite length_app; simpl; lia | by rewrite orb_false_r]].
      apply Forall_app. split; [exact Hacc |]. by repeat constructor.
Qed.

Lemma parseParams_fold (parts : list text) :
  forall acc,
    Forall (fun q => name q <> []) (fst acc) ->
    Forall (fun q => name q <> []) (fst (foldl parseParams_step acc parts)) /\
    length (fst (foldl parseParams_step acc parts)) <=
      length (fst acc) + length parts /\
    snd (foldl parseParams_step acc parts) =
      snd acc || existsb (fun p => text_eqb (trim p) (txt "@contents")) parts.
Proof.
  induction parts as [| p parts IH]; intros acc Hacc; simpl.
  - split; [exact Hacc |]. split; [lia | by rewrite orb_false_r].
  - destruct (parseParams_step_spec acc p Hacc) as (H1 & H2 & H3).
    destruct (IH _ H1) as (H4 & H5 & H6).
    split; [exact H4 |]. split; [lia |].
    rewrite H6, H3, orb_assoc. reflexivity.
Qed.

(** X4. [parseParams] records no parameter with an empty name and at most
    one parameter for each part of the list; it reports a contents
    parameter exactly when one of the parts is [@contents]. *)
Theorem parseParams_facts (paramStr : text) :
  Forall (fun q => name q <> []) (fst (parseParams paramStr)) /\
  length (fst (parseParams paramStr)) <= length (splitByComma paramStr) /\
  (snd (parseParams paramStr) = true <->
   txt "@contents" ∈ splitByComma paramStr).
Proof.
  unfold parseParams.
  destruct (parseParams_fold (splitByComma paramStr) ([], false))
    as (H1 & H2 & H3); [constructor |].
  split; [exact H1 |]. split; [exact H2 |].
  rewrite H3. simpl. rewrite existsb_exists.
  pose proof (splitByComma_loop_trimmed paramStr [] [] 0%Z (List.Forall_nil _)) as Ht.
  fold (splitByComma paramStr) in Ht. rewrite Forall_forall in Ht.
  split.
  - intros (p & Hin & Hp). apply list_elem_of_In in Hin.
    unfold text_eqb in Hp. apply bool_decide_eq_true_1 in Hp.
    rewrite (trimmed_trim p (Ht p Hin)) in Hp. by rewrite <- Hp.
  - intros Hin. exists (txt "@contents").
    split; [by apply list_elem_of_In |].
    unfold text_eqb. apply bool_decide_eq_true_2.
    apply trimmed_trim. by apply Ht.
Qed.

(** * The result clause *)

Section StarClass.
Context {R : Type}.

(** What the loop hands on it has checked against the class. *)
Lemma star_loop_class (p : ascii -> bool) (s : text) :
  forall (i : nat) (k : text -> nat -> option R) (x : R),
    star_loop p s i k = Some x ->
    exists n, n <= length s /\ forallb p (take n s) = true /\
              k (drop n s) (i + n) = Some x.
Proof.
  induction s as [| c s IH]; intros i k x H; simpl in H.
  - exists 0. rewrite Nat.add_0_r. by repeat split.
  - destruct (p c) eqn:Hc.
    + destruct (star_loop p s (S i) k) as [r |] eqn:E.
      * injection H as <-. apply IH in E as (n & Hn & Hall & Hk).
        exists (S n). simpl. rewrite Hc, Hall.
        split; [lia |]. split; [reflexivity |].
        rewrite <- Nat.add_succ_comm. exact Hk.
      * exists 0. rewrite Nat.add_0_r. split; [simpl; lia |]. by split.
    + exists 0. rewrite Nat.add_0_r. split; [simpl; lia |]. by split.
Qed.
End StarClass.

Lemma search_sound (r : regex) (s : text) :
  forall idx m,
    search r s idx = Some m ->
    exists j n caps,
      match_here r (drop j s) = Some (n, caps) /\
      m = mkMatch (idx + j) (take n (drop j s)) caps.
Proof.
  induction s as [| c s IH]; intros idx m H; simpl in H.
  - destruct (match_here r []) as [[n caps] |] eqn:E; [| discriminate].
    injection H as <-. exists 0, n, caps. rewrite Nat.add_0_r. by split.
  - destruct (match_here r (c :: s)) as [[n caps] |] eqn:E.
    + injection H as <-. exists 0, n, caps. rewrite Nat.add_0_r. by split.
    + apply IH in H as (j & n & caps & Hm & ->).
      exists (S j), n, caps. split; [exact Hm |]. simpl. f_equal. lia.
Qed.

Lemma is_prefix_split (l s : text) :
  is_prefix l s = true -> s = l ++ drop (length l) s.
Proof.
  revert s. induction l as [| a l IH]; intros [| b s] H; simpl in *;
    try reflexivity; try discriminate.
  apply andb_true_iff in H as [Hab H]. unfold chr_eqb in Hab.
  apply Ascii.eqb_eq in Hab as ->. f_equal. by apply IH.
Qed.

Lemma match_here_result (s : text) (n : nat) (caps : captures) :
  match_here resultRegex s = Some (n, caps) ->
  is_prefix (txt "result") s = true /\
  exists g, caps 1 = Some g /\ forallb (is_not ";") g = true.
Proof.
  unfold match_here, resultRegex. cbn [cat]. rewrite rx_Seq_Lit.
  destruct (is_prefix (txt "result") s) eqn:Hp; [| discriminate].
  intros H. split; [reflexivity |].
  cbn [rx] in H.
  apply star_loop_class in H as (n1 & _ & _ & H).
  destruct (is_prefix (txt ":") _); [| discriminate].
  apply star_loop_class in H as (n2 & _ & _ & H).
  match type of H with
  | match ?t with _ => _ end = _ => destruct t as [| c s2] eqn:Es2; [discriminate |]
  end.
  destruct (is_not ";" c) eqn:Hc; [| discriminate].
  apply star_loop_class in H as (n3 & Hn3 & Hall & H).
  assert (forallb (is_not ";") (take (S n3) (c :: s2)) = true) as Hg
    by (simpl; by rewrite Hc, Hall).
  cbn beta in H.
  destruct (is_prefix (txt ";") (drop n3 s2)).
  - injection H as <- <-. eexists. split; [reflexivity |].
    match goal with |- forallb _ (take ?k _) = true =>
      replace k with (S n3) by lia end.
    exact Hg.
  - destruct (drop n3 s2); [| discriminate].
    injection H as <- <-. eexists. split; [reflexivity |].
    match goal with |- forallb _ (take ?k _) = true =>
      replace k with (S n3) by lia end.
    exact Hg.
Qed.

(** X5. The expression [extractResult] returns has no blank at either end
    and holds no semicolon, and a body it accepts holds the word [result]. *)
Theorem extractResult_facts (body expr : text) :
  extractResult body = Ok expr ->
  trimmed expr /\ (";"%char ∉ expr) /\
  exists pre post, body = pre ++ txt "result" ++ post.
Proof.
  unfold extractResult, str_match.
  destruct (search resultRegex body 0) as [m |] eqn:E; [| discriminate].
  intros [= <-]. split; [apply trim_trimmed |].
  apply search_sound in E as (j & n & caps & Hm & ->).
  apply match_here_result in Hm as (Hp & g & Hg & Hall).
  split.
  - unfold group. simpl. rewrite Hg. simpl. intros Hin.
    apply trim_elem in Hin. rewrite forallb_forall in Hall.
    apply list_elem_of_In in Hin. specialize (Hall _ Hin).
    unfold is_not, chr_eqb in Hall. by rewrite Ascii.eqb_refl in Hall.
  - exists (take j body), (drop (length (txt "result")) (drop j body)).
    rewrite <- (is_prefix_split _ _ Hp). by rewrite take_drop.
Qed.

Lemma extractResult_facts_witness :
  extractResult (txt "a: 1; result:  calc(2 * 3) ; b: 2") = Ok (txt "calc(2 * 3)") /\
  trimmed (txt "calc(2 * 3)") /\ (";"%char ∉ txt "calc(2 * 3)").
Proof.
  split; [reflexivity |].
  pose proof (extractResult_facts (txt "a: 1; result:  calc(2 * 3) ; b: 2")
                (txt "calc(2 * 3)") eq_refl) as (H1 & H2 & _).
  by split.
Defined.

(** * References to parameters *)

Lemma slice_then_drop (code : text) (a b : nat) :
  a <= b -> slice code a b ++ drop b code = drop a code.
Proof.
  intros H. unfold slice.
  rewrite <- (take_drop (b - a) (drop a code)) at 2.
  rewrite drop_drop. do 2 f_equal. lia.
Qed.

Lemma splice_same (code : text) (repl : rmatch -> text) (ms : list rmatch) :
  forall pos,
    matches_ok code pos ms ->
    Forall (fun m => repl m = m_full m) ms ->
    splice code pos ms repl = slice_from code pos.
Proof.
  induction ms as [| m ms IH]; intros pos Hok Hrepl; simpl; [reflexivity |].
  destruct Hok as (Hpos & Hend & Hfull & Hok).
  apply Forall_cons in Hrepl as [Hm Hrepl].
  rewrite Hm, (IH _ Hok Hrepl), Hfull. unfold slice_from.
  assert (pos <= m_end m) as Hle by (unfold m_end; lia).
  rewrite app_assoc, <- (slice_split code pos (m_index m) (m_end m))
    by (unfold m_end; lia).
  by apply slice_then_drop.
Qed.

Lemma is_prefix_elem (l s : text) (c : ascii) :
  is_prefix l s = true -> c ∈ l -> c ∈ s.
Proof.
  intros H Hc. rewrite (is_prefix_split l s H). apply elem_of_app. by left.
Qed.

Lemma matchAll_from_lit_absent (l : text) (r : regex) (c : ascii) (s : text) :
  c ∈ l -> c ∉ s ->
  forall idx skip, matchAll_from (Seq (Lit l) r) s idx skip = [].
Proof.
  intros Hl. induction s as [| x s IH]; intros Hs idx skip.
  - destruct skip; cbn [matchAll_from]; [| reflexivity].
    unfold match_here. rewrite rx_Seq_Lit.
    destruct (is_prefix l []) eqn:E; [| reflexivity].
    exfalso. apply Hs. by apply (is_prefix_elem l).
  - assert (c ∉ s) as Hs' by (by apply not_elem_of_cons in Hs as [_ ?]).
    destruct skip; cbn [matchAll_from]; [| by apply IH].
    unfold match_here. rewrite rx_Seq_Lit.
    destruct (is_prefix l (x :: s)) eqn:E; [| by apply IH].
    exfalso. apply Hs. by apply (is_prefix_elem l).
Qed.

(** X6. [substituteVars] and [substituteEnvVars] change nothing in a
    template without an opening parenthesis, and leave every reference as
    it is that names no parameter (or one without argument and default) and
    carries no fallback. *)
Theorem substitute_unbound_stays (template : text) (params : list FunctionParam)
    (args : list text) :
  ("("%char ∉ template ->
   substituteVars template params args = template /\
   substituteEnvVars template params args = template) /\
  ((forall m, m ∈ matchAll (refRegex "var") template ->
      mjoin (makeArgMap params args !! group m 1) = None /\ m_caps m 2 = None) ->
   substituteVars template params args = template) /\
  ((forall m, m ∈ matchAll (refRegex "env") template ->
      mjoin (makeArgMap params args !! group m 1) = None /\ m_caps m 2 = None) ->
   substituteEnvVars template params args = template).
Proof.
  assert (forall kw,
            (forall m, m ∈ matchAll (refRegex kw) template ->
               mjoin (makeArgMap params args !! group m 1) = None /\
               m_caps m 2 = None) ->
            replace_fn (refRegex kw) (substituteRef (makeArgMap params args))
              template = template) as Hstay.
  { intros kw H. unfold replace_fn.
    rewrite splice_same; [apply drop_0 | apply matchAll_ok |].
    apply List.Forall_forall. intros m Hm.
    apply (proj2 (list_elem_of_In _ _)), H in Hm as [H1 H2].
    unfold substituteRef. by rewrite H1, H2. }
  split; [| split; apply Hstay].
  intros Hno.
  assert (forall kw, matchAll (refRegex kw) template = []) as Hnone.
  { intros kw. unfold matchAll, refRegex. cbn [cat].
    apply (matchAll_from_lit_absent _ _ "("%char); [| exact Hno].
    apply elem_of_app. right. by apply list_elem_of_singleton. }
  split; apply Hstay; intros m Hm; rewrite Hnone in Hm; by apply elem_of_nil in Hm.
Qed.

Lemma substitute_unbound_stays_witness :
  ("("%char ∉ txt "1px solid red") /\
  substituteVars (txt "1px solid red") [mkParam (txt "--x") None] [txt "2"] =
    txt "1px solid red" /\
  substituteVars (txt "a var(--y) b") [mkParam (txt "--x") None] [txt "2"] =
    txt "a var(--y) b".
Proof.
  assert ("("%char ∉ txt "1px solid red") as H.
  { rewrite list_elem_of_In. simpl. intuition discriminate. }
  split; [exact H |]. split.
  - exact (proj1 (proj1 (substitute_unbound_stays _ _ _) H)).
  - apply (proj1 (proj2 (substitute_unbound_stays _ _ _))).
    intros m Hm. vm_compute in Hm.
    apply list_elem_of_singleton in Hm as ->. split; vm_compute; reflexivity.
Defined.

(** * The argument map *)

Section FoldInsert.
Context {V : Type}.

Lemma foldl_insert_absent (l : list (text * V)) (k : text) :
  forall m0 : gmap text V,
    k ∉ l.*1 ->
    foldl (fun m kv => <[fst kv := snd kv]> m) m0 l !! k = m0 !! k.
Proof.
  induction l as [| [k' v'] l IH]; intros m0 Hk; simpl; [reflexivity |].
  simpl in Hk. apply not_elem_of_cons in Hk as [Hne Hk].
  rewrite (IH _ Hk). by apply lookup_insert_ne.
Qed.

Lemma foldl_insert_present (l : list (text * V)) (k : text) (v : V) :
  forall m0 : gmap text V,
    NoDup (l.*1) -> (k, v) ∈ l ->
    foldl (fun m kv => <[fst kv := snd kv]> m) m0 l !! k = Some v.
Proof.
  induction l as [| [k' v'] l IH]; intros m0 Hnd Hin; simpl.
  - by apply elem_of_nil in Hin.
  - simpl in Hnd. apply NoDup_cons in Hnd as [Hk' Hnd].
    apply elem_of_cons in Hin as [[= -> ->] | Hin].
    + rewrite (foldl_insert_absent _ _ _ Hk'). apply lookup_insert_eq.
    + by apply IH.
Qed.
End FoldInsert.

(** X7. When the parameters have different names, the argument map gives
    each the argument at its position, or its default when the call has
    fewer arguments; a name that is no parameter is not in the map. *)
Theorem makeArgMap_lookup (params : list FunctionParam) (args : list text) :
  NoDup (map name params) ->
  (forall i p,
     params !! i = Some p ->
     makeArgMap params args !! name p =
     Some (match args !! i with Some a => Some a | None => defaultValue p end)) /\
  (forall k, k ∉ map name params -> makeArgMap params args !! k = None).
Proof.
  intros Hnd. unfold makeArgMap.
  set (F := fun (j : nat) (q : FunctionParam) =>
              (name q, match args !! j with
                       | Some a => Some a
                       | None => defaultValue q
                       end)).
  assert ((imap F params).*1 = map name params) as Hkeys.
  { rewrite fmap_imap. unfold F. simpl.
    rewrite (imap_ext _ (fun _ => name)) by done. apply imap_const. }
  split.
  - intros i p Hp. apply foldl_insert_present.
    + by rewrite Hkeys.
    + apply (elem_of_lookup_imap_2 F params p i Hp).
  - intros k Hk. rewrite foldl_insert_absent; [apply lookup_empty |].
    by rewrite Hkeys.
Qed.

Lemma makeArgMap_lookup_witness :
  let params := [mkParam (txt "--a") (Some (txt "1")); mkParam (txt "--b") None] in
  NoDup (map name params) /\
  makeArgMap params [txt "x"] !! txt "--a" = Some (Some (txt "x")) /\
  makeArgMap params [txt "x"] !! txt "--b" = Some None.
Proof.
  intros params.
  assert (NoDup (map name params)) as Hnd.
  { simpl. repeat constructor; rewrite ?list_elem_of_In; simpl;
      intuition discriminate. }
  split; [exact Hnd |]. split.
  - exact (proj1 (makeArgMap_lookup params [txt "x"] Hnd) 0 _ eq_refl).
  - exact (proj1 (makeArgMap_lookup params [txt "x"] Hnd) 1 _ eq_refl).
Defined.

(** * What extraction returns *)

Lemma matchAll_from_full_length (r : regex) (s : text) :
  (forall s' n caps, match_here r s' = Some (n, caps) -> 0 < n) ->
  forall idx skip m, m ∈ matchAll_from r s idx skip -> 0 < length (m_full m).
Proof.
  intros Hne. induction s as [| c s IH]; intros idx skip m Hin.
  - destruct skip; cbn [matchAll_from] in Hin; [| by apply elem_of_nil in Hin].
    destruct (match_here r []) as [[n caps] |] eqn:E; [| by apply elem_of_nil in Hin].
    pose proof (Hne _ _ _ E). apply match_here_length in E. simpl in E. lia.
  - destruct skip as [| skip]; cbn [matchAll_from] in Hin; [| by eapply IH].
    destruct (match_here r (c :: s)) as [[n caps] |] eqn:E; [| by eapply IH].
    apply elem_of_cons in Hin as [-> | Hin]; [| by eapply IH].
    pose proof (Hne _ _ _ E). apply match_here_length in E.
    simpl m_full. rewrite length_take. lia.
Qed.

Lemma matches_ok_starts (code : text) (ms : list rmatch) :
  forall pos,
    matches_ok code pos ms ->
    Forall (fun m => 0 < length (m_full m)) ms ->
    StronglySorted lt (map m_index ms) /\ Forall (le pos) (map m_index ms).
Proof.
  induction ms as [| m ms IH]; intros pos Hok Hne; simpl.
  - split; constructor.
  - destruct Hok as (Hpos & _ & _ & Hok).
    apply Forall_cons in Hne as [Hm Hne].
    destruct (IH _ Hok Hne) as [Hs Hge].
    assert (Forall (lt (m_index m)) (map m_index ms)) as Hlt.
    { eapply Forall_impl; [exact Hge |]. unfold m_end. simpl. intros; lia. }
    split; [by constructor |].
    constructor; [exact Hpos |].
    eapply Forall_impl; [exact Hlt |]. simpl. intros; lia.
Qed.

Lemma functionRegex_nonempty (s : text) (n : nat) (caps : captures) :
  match_here functionRegex s = Some (n, caps) -> 0 < n.
Proof.
  unfold match_here, functionRegex. cbn [cat]. rewrite rx_Seq_Lit.
  destruct (is_prefix _ s); [| discriminate].
  intros H. apply rx_sound in H as (n' & c' & _ & H).
  simpl in H. injection H as <- _. lia.
Qed.

Section ExtractFunctions.
Variable code : text.

Lemma extractFunctions_loop_spec (ms : list rmatch) :
  forall registry removals registry' removals',
    (forall m, m ∈ ms -> m ∈ matchAll functionRegex code) ->
    extractFunctions_loop code ms registry removals = Ok (registry', removals') ->
    (exists new,
       removals' = removals ++ new /\ map fst new = map m_index ms /\
       Forall (fun sp => fst sp < snd sp <= length code) new) /\
    (forall k d, registry !! k = Some d -> is_Some (registry' !! k)) /\
    (forall k d, registry' !! k = Some d ->
                 registry !! k = Some d \/ from_header code k d) /\
    (forall m, m ∈ ms -> is_Some (registry' !! group m 1)).
Proof.
  induction ms as [| m ms IH]; intros registry removals registry' removals' Hsub H.
  - simpl in H. injection H as <- <-.
    split; [exists []; rewrite app_nil_r; by repeat split |].
    split; [by eauto |]. split; [by left |].
    intros m Hm. by apply elem_of_nil in Hm.
  - cbn [extractFunctions_loop] in H. fold (m_end m) in H.
    destruct (findMatchingBrace code (m_end m)) as [bodyEnd | e] eqn:Eb;
      [| discriminate].
    cbn [mbind result_bind] in H.
    apply IH in H as ((new & -> & Hfst & Hwf) & Hkeep & Hfrom & Hreg).
    2: { intros m' Hm'. apply Hsub. by right. }
    pose proof (findMatchingBrace_range _ _ _ Eb) as Hb.
    split; [| split; [| split]].
    + exists ((m_index m, bodyEnd + 1) :: new). rewrite <- app_assoc.
      split; [reflexivity |]. split; [simpl; by f_equal |].
      constructor; [| exact Hwf]. unfold m_end in Hb. simpl. lia.
    + intros k d Hk. destruct (decide (group m 1 = k)) as [<- | Hne].
      * eapply Hkeep. apply lookup_insert_eq.
      * eapply Hkeep. rewrite lookup_insert_ne by exact Hne. exact Hk.
    + intros k d Hk. apply Hfrom in Hk as [Hk | Hk]; [| by right].
      destruct (decide (group m 1 = k)) as [<- | Hne].
      * rewrite lookup_insert_eq in Hk. injection Hk as <-. right.
        exists m, bodyEnd. split; [apply Hsub; by left |]. by repeat split.
      * rewrite lookup_insert_ne in Hk by exact Hne. by left.
    + intros m' Hm'. apply elem_of_cons in Hm' as [-> | Hm']; [| by apply Hreg].
      eapply Hkeep. apply lookup_insert_eq.
Qed.

Lemma extractFunctions_loop_error (ms : list rmatch) :
  forall registry removals e,
    extractFunctions_loop code ms registry removals = Err e ->
    exists m, m ∈ ms /\ e = UnmatchedBrace (m_end m) /\
              findMatchingBrace code (m_end m) = Err e.
Proof.
  induction ms as [| m ms IH]; intros registry removals e H; [discriminate |].
  cbn [extractFunctions_loop] in H. fold (m_end m) in H.
  destruct (findMatchingBrace code (m_end m)) as [bodyEnd | e'] eqn:Eb.
  - cbn [mbind result_bind] in H. apply IH in H as (m' & Hin & He & Hb).
    exists m'. split; [by right | by split].
  - cbn [mbind result_bind] in H. injection H as <-.
    exists m. split; [by left |]. split; [| exact Eb].
    unfold findMatchingBrace in Eb.
    destruct (findMatchingBrace_loop _ _ _); [discriminate | by injection Eb].
Qed.
End ExtractFunctions.

(** X8. When [extractFunctions] returns, it returns one span for each
    header of the text, in the order of the text: the spans start where the
    headers start, at ever larger offsets, and each ends behind its start and
    within the text.  Nothing is taken out of the registry; every header's
    name is in it; and every entry is an entry it had or is made of a header
    of the text, its body the text between the braces. *)
Theorem extractFunctions_returns (code : text) (registry registry' : gmap text FunctionDef)
    (removals : list (nat * nat)) :
  extractFunctions code registry = Ok (registry', removals) ->
  map fst removals = map m_index (matchAll functionRegex code) /\
  StronglySorted lt (map fst removals) /\
  Forall (fun sp => fst sp < snd sp <= length code) removals /\
  (forall k d, registry !! k = Some d -> is_Some (registry' !! k)) /\
  (forall m, m ∈ matchAll functionRegex code -> is_Some (registry' !! group m 1)) /\
  (forall k d, registry' !! k = Some d ->
               registry !! k = Some d \/ from_header code k d).
Proof.
  intros H. unfold extractFunctions in H.
  apply extractFunctions_loop_spec in H
    as ((new & Hnew & Hfst & Hwf) & Hkeep & Hfrom & Hreg); [| done].
  simpl in Hnew. subst new.
  split; [exact Hfst |]. split; [| by repeat split].
  rewrite Hfst.
  apply (matches_ok_starts code _ 0 (matchAll_ok functionRegex code)).
  apply Forall_forall. intros m Hm.
  by apply (matchAll_from_full_length functionRegex code functionRegex_nonempty 0 0).
Qed.

Lemma extractFunctions_returns_witness :
  extractFunctions nested_functions ∅ = Ok (nested_registry, [(0, 39); (40, 84)]) /\
  StronglySorted lt (map fst [(0, 39); (40, 84)]) /\
  is_Some (nested_registry !! txt "--a").
Proof.
  assert (extractFunctions nested_functions ∅ =
          Ok (nested_registry, [(0, 39); (40, 84)])) as H
    by (vm_compute; reflexivity).
  split; [exact H |].
  pose proof (extractFunctions_returns _ _ _ _ H) as (_ & Hs & _ & _ & Hreg & _).
  split; [exact Hs |].
  apply (Hreg (mkMatch 0 (txt "@function --a(--x:1){")
                 (set_cap 2 (txt "--x:1") (set_cap 1 (txt "--a") no_caps)))).
  vm_compute. left.
Defined.

(** X9. [extractFunctions] raises nothing but the unmatched-brace error, at
    the offset behind a header whose brace has no match; a text without
    the character [@] leaves the registry as it is and gives no span. *)
Theorem extractFunctions_errors (code : text) (registry : gmap text FunctionDef) :
  (forall e,
     extractFunctions code registry = Err e ->
     exists m, m ∈ matchAll functionRegex code /\
               e = UnmatchedBrace (m_end m) /\
               findMatchingBrace code (m_end m) = Err e) /\
  ("@"%char ∉ code -> extractFunctions code registry = Ok (registry, [])).
Proof.
  split.
  - intros e. apply extractFunctions_loop_error.
  - intros H. unfold extractFunctions, matchAll.
    by rewrite matchAll_from_function_none.
Qed.

Lemma extractFunctions_errors_witness :
  extractFunctions (txt "@function --f() { result: 1;") ∅ = Err (UnmatchedBrace 17) /\
  ("@"%char ∉ txt "a { b: c }") /\
  extractFunctions (txt "a { b: c }") nested_registry = Ok (nested_registry, []).
Proof.
  assert ("@"%char ∉ txt "a { b: c }") as H.
  { rewrite list_elem_of_In. simpl. intuition discriminate. }
  split; [| split; [exact H |]].
  - assert (exists e, extractFunctions (txt "@function --f() { result: 1;") ∅ = Err e)
      as [e He] by (eexists; vm_compute; reflexivity).
    destruct (proj1 (extractFunctions_errors _ _) e He) as (m & Hm & -> & _).
    rewrite He. vm_compute in Hm. apply list_elem_of_singleton in Hm as ->.
    reflexivity.
  - exact (proj2 (extractFunctions_errors _ nested_registry) H).
Defined.

(** * Blanking only deletes *)

Lemma filter_sublist {A : Type} (f : A -> bool) (l : list A) :
  List.filter f l `sublist_of` l.
Proof.
  induction l as [| x l IH]; simpl; [constructor |].
  destruct (f x); by constructor.
Qed.

Lemma stripDefinitions_step_sublist (result : text) (s e : nat) :
  s <= e -> stripDefinitions_step result (s, e) `sublist_of` result.
Proof.
  intros Hse. rewrite stripDefinitions_step_chars.
  rewrite (text_three_parts result s e Hse) at 4.
  apply sublist_app; [reflexivity |].
  apply sublist_app; [apply filter_sublist | reflexivity].
Qed.

Lemma stripDefinitions_sublist (code : text) (spans : list (nat * nat)) :
  Forall span_ok spans -> stripDefinitions code spans `sublist_of` code.
Proof.
  intros Hok. induction spans as [| [s e] rest IH]; [reflexivity |].
  apply Forall_cons in Hok as [Hse Hok].
  rewrite stripDefinitions_cons.
  etrans; [by apply stripDefinitions_step_sublist | by apply IH].
Qed.

(** X10. For spans that end where they start or later, [stripDefinitions]
    only takes characters out: its output is the input with some characters
    left out, in the same order, so it is never longer. *)
Theorem stripDefinitions_deletes_only (code : text) (spans : list (nat * nat)) :
  Forall span_ok spans ->
  stripDefinitions code spans `sublist_of` code /\
  length (stripDefinitions code spans) <= length code.
Proof.
  intros Hok. pose proof (stripDefinitions_sublist code spans Hok) as H.
  split; [exact H | by apply sublist_length].
Qed.

Lemma stripDefinitions_deletes_only_witness :
  Forall span_ok [(2, 5); (1, 3)] /\
  stripDefinitions (txt "abcdefg") [(2, 5); (1, 3)] `sublist_of` txt "abcdefg".
Proof.
  assert (Forall span_ok [(2, 5); (1, 3)]) as H
    by (repeat constructor; unfold span_ok; simpl; lia).
  split; [exact H |].
  exact (proj1 (stripDefinitions_deletes_only (txt "abcdefg") _ H)).
Defined.

(** * Stripping what extraction found *)

Lemma extractMixins_loop_spans (code : text) (ms : list rmatch) :
  forall registry removals registry' removals',
    extractMixins_loop code ms registry removals = Ok (registry', removals') ->
    Forall span_ok removals -> Forall span_ok removals'.
Proof.
  induction ms as [| m ms IH]; intros registry removals registry' removals' H Hok.
  - simpl in H. by injection H as <- <-.
  - cbn [extractMixins_loop] in H.
    destruct (findMatchingBrace code _) as [bodyEnd | e] eqn:Eb; [| discriminate].
    cbn [mbind result_bind] in H.
    destruct (parseParams (group m 2)) as [params contents].
    apply IH in H; [exact H |].
    apply Forall_app. split; [exact Hok |].
    constructor; [| constructor].
    apply findMatchingBrace_range in Eb. unfold span_ok. simpl. lia.
Qed.

(** X11. The two stripping steps of [transform] keep every newline: the
    text left after the function declarations and then the mixin
    declarations are blanked has as many newlines as the source, and is no
    longer. *)
Theorem strip_after_extract_keeps_lines (code : text)
    (functions functions' : gmap text FunctionDef)
    (mixins mixins' : gmap text MixinDef)
    (functionRemovals mixinRemovals : list (nat * nat)) :
  extractFunctions code functions = Ok (functions', functionRemovals) ->
  extractMixins (stripDefinitions code functionRemovals) mixins =
    Ok (mixins', mixinRemovals) ->
  let processed :=
    stripDefinitions (stripDefinitions code functionRemovals) mixinRemovals in
  count_newlines processed = count_newlines code /\
  length processed <= length code.
Proof.
  intros Hf Hm processed.
  assert (Forall span_ok functionRemovals) as Hokf.
  { unfold extractFunctions in Hf.
    apply extractFunctions_loop_spec in Hf as ((new & Hnew & _ & Hwf) & _);
      [| done].
    simpl in Hnew. subst new.
    eapply Forall_impl; [exact Hwf |]. unfold span_ok. simpl. intros; lia. }
  assert (Forall span_ok mixinRemovals) as Hokm.
  { unfold extractMixins in Hm.
    eapply extractMixins_loop_spans; [exact Hm | constructor]. }
  unfold processed. split.
  - by rewrite !stripDefinitions_newlines.
  - pose proof (sublist_length _ _ (stripDefinitions_sublist code _ Hokf)) as H1.
    pose proof (sublist_length _ _
                  (stripDefinitions_sublist
                     (stripDefinitions code functionRemovals) _ Hokm)) as H2.
    lia.
Qed.

Lemma strip_after_extract_keeps_lines_witness :
  let code :=
    txt "@function --a() {" ++ newline :: txt "  result: 1;" ++ newline ::
    txt "}" ++ newline :: txt "@mixin --m() {" ++ newline :: txt "  x: y;" ++
    newline :: txt "}" ++ newline :: txt "b { c: --a(); }" in
  let functions : gmap text FunctionDef :=
    <[txt "--a" := mkFunctionDef (txt "--a") []
                     (newline :: txt "  result: 1;" ++ [newline])]> ∅ in
  let mixins : gmap text MixinDef :=
    <[txt "--m" := mkMixinDef (txt "--m") []
                     (newline :: txt "  x: y;" ++ [newline]) false]> ∅ in
  extractFunctions code ∅ = Ok (functions, [(0, 32)]) /\
  extractMixins (stripDefinitions code [(0, 32)]) ∅ = Ok (mixins, [(3, 27)]) /\
  count_newlines (stripDefinitions (stripDefinitions code [(0, 32)]) [(3, 27)]) =
    count_newlines code.
Proof.
  intros code functions mixins.
  assert (extractFunctions code ∅ = Ok (functions, [(0, 32)])) as Ef
    by (vm_compute; reflexivity).
  assert (extractMixins (stripDefinitions code [(0, 32)]) ∅ = Ok (mixins, [(3, 27)]))
    as Em by (vm_compute; reflexivity).
  split; [exact Ef |]. split; [exact Em |].
  exact (proj1 (strip_after_extract_keeps_lines code ∅ functions ∅ mixins
                  [(0, 32)] [(3, 27)] Ef Em)).
Defined.

(** * The loops of passes *)

Lemma resolveFunctionCalls_loop_passes (registry : gmap text FunctionDef) (n : nat) :
  forall code,
    match resolveFunctionCalls_loop n code registry with
    | Ok out =>
        exists k, k <= n /\ resolve_passes k code registry = Ok out /\
                  (k < n -> resolveOnce out registry = Ok out)
    | Err e =>
        exists k mid, k < n /\ resolve_passes k code registry = Ok mid /\
                      resolveOnce mid registry = Err e
    end.
Proof.
  induction n as [| n IH]; intros code; cbn [resolveFunctionCalls_loop].
  - exists 0. split; [lia |]. split; [reflexivity | lia].
  - destruct (resolveOnce code registry) as [next | e] eqn:E;
      cbn [mbind result_bind].
    + unfold text_eqb. destruct (bool_decide (next = code)) eqn:Eq.
      * apply bool_decide_eq_true_1 in Eq as ->.
        exists 0. split; [lia |]. split; [reflexivity | by intros _].
      * specialize (IH next).
        destruct (resolveFunctionCalls_loop n next registry) as [out | e].
        -- destruct IH as (k & Hk & Hp & Hfix). exists (S k).
           split; [lia |]. split; [| intros; apply Hfix; lia].
           cbn [resolve_passes]. by rewrite E.
        -- destruct IH as (k & mid & Hk & Hp & He). exists (S k), mid.
           split; [lia |]. split; [| exact He].
           cbn [resolve_passes]. by rewrite E.
    + exists 0, code. split; [lia |]. by split.
Qed.

(** X12. What [resolveFunctionCalls] returns is what at most ten passes of
    [resolveOnce] make of the text, and a text that no further pass changes
    unless all ten were used; an error it raises is the error of one of
    those passes; and a text that a pass does not change is returned as it
    is. *)
Theorem resolveFunctionCalls_passes (code : text) (registry : gmap text FunctionDef) :
  (forall out,
     resolveFunctionCalls code registry = Ok out ->
     exists k, k <= MAX_RECURSION_DEPTH /\
               resolve_passes k code registry = Ok out /\
               (k < MAX_RECURSION_DEPTH -> resolveOnce out registry = Ok out)) /\
  (forall e,
     resolveFunctionCalls code registry = Err e ->
     exists k mid, k < MAX_RECURSION_DEPTH /\
                   resolve_passes k code registry = Ok mid /\
                   resolveOnce mid registry = Err e) /\
  (resolveOnce code registry = Ok code ->
   resolveFunctionCalls code registry = Ok code).
Proof.
  unfold resolveFunctionCalls.
  pose proof (resolveFunctionCalls_loop_passes registry MAX_RECURSION_DEPTH code) as H.
  split; [| split].
  - intros out Hout. by rewrite Hout in H.
  - intros e He. by rewrite He in H.
  - intros Hfix. unfold MAX_RECURSION_DEPTH. cbn [resolveFunctionCalls_loop].
    rewrite Hfix. cbn [mbind result_bind]. unfold text_eqb.
    by rewrite bool_decide_eq_true_2.
Qed.

Lemma resolveFunctionCalls_passes_witness :
  resolveFunctionCalls (txt "--b()") nested_registry = Ok (txt "2") /\
  exists k, k <= MAX_RECURSION_DEPTH /\
            resolve_passes k (txt "--b()") nested_registry = Ok (txt "2").
Proof.
  assert (resolveFunctionCalls (txt "--b()") nested_registry = Ok (txt "2")) as H
    by (vm_compute; reflexivity).
  split; [exact H |].
  destruct (proj1 (resolveFunctionCalls_passes _ _) _ H) as (k & Hk & Hp & _).
  by exists k.
Defined.

Lemma resolveMixinApplications_loop_passes (registry : gmap text MixinDef) (n : nat) :
  forall code,
    exists k, k <= n /\
      resolveMixinApplications_loop n code registry = mixin_passes k code registry /\
      (k < n ->
       resolveMixinsOnce (mixin_passes k code registry) registry =
       mixin_passes k code registry).
Proof.
  induction n as [| n IH]; intros code; cbn [resolveMixinApplications_loop].
  - exists 0. split; [lia |]. split; [reflexivity | lia].
  - unfold text_eqb.
    destruct (bool_decide (resolveMixinsOnce code registry = code)) eqn:Eq.
    + apply bool_decide_eq_true_1 in Eq.
      exists 0. split; [lia |]. split; [reflexivity | by intros _].
    + destruct (IH (resolveMixinsOnce code registry)) as (k & Hk & Hp & Hfix).
      exists (S k). split; [lia |]. split; [exact Hp |].
      intros Hlt. apply Hfix. lia.
Qed.

(** X13. [resolveMixinApplications] never raises; it returns what at most
    ten passes of [resolveMixinsOnce] make of the text, a text that no
    further pass changes unless all ten were used; and a text without the
    character [@] is returned as it is. *)
Theorem resolveMixinApplications_passes (code : text) (registry : gmap text MixinDef) :
  (exists k, k <= MAX_RECURSION_DEPTH /\
     resolveMixinApplications code registry = mixin_passes k code registry /\
     (k < MAX_RECURSION_DEPTH ->
      resolveMixinsOnce (resolveMixinApplications code registry) registry =
      resolveMixinApplications code registry)) /\
  ("@"%char ∉ code -> resolveMixinApplications code registry = code).
Proof.
  split.
  - destruct (resolveMixinApplications_loop_passes registry MAX_RECURSION_DEPTH code)
      as (k & Hk & Hp & Hfix).
    exists k. unfold resolveMixinApplications. rewrite Hp. by repeat split.
  - intros Hno.
    assert (resolveMixinsOnce code registry = code) as Hfix.
    { unfold resolveMixinsOnce, matchAll, applyRegex. cbn [cat].
      rewrite (matchAll_from_lit_absent _ _ "@"%char); [apply drop_0 | | exact Hno].
      by left. }
    unfold resolveMixinApplications, MAX_RECURSION_DEPTH.
    cbn [resolveMixinApplications_loop]. rewrite Hfix.
    unfold text_eqb. by rewrite bool_decide_eq_true_2.
Qed.

Lemma resolveMixinApplications_passes_witness :
  ("@"%char ∉ txt "a { color: red; }") /\
  resolveMixinApplications (txt "a { color: red; }") box_registry =
    txt "a { color: red; }".
Proof.
  assert ("@"%char ∉ txt "a { color: red; }") as H.
  { rewrite list_elem_of_In. simpl. intuition discriminate. }
  split; [exact H |].
  exact (proj2 (resolveMixinApplications_passes _ box_registry) H).
Defined.

(** * A registered call with plain arguments *)

Lemma match_here_call_inv (s : text) (n : nat) (caps : captures) :
  match_here callRegex s = Some (n, caps) ->
  exists w, forallb is_ident w = true /\ s = w ++ "("%char :: drop n s /\
            n = length w + 1.
Proof.
  unfold match_here, callRegex, ident_re. cbn [cat rx].
  destruct (is_prefix (txt "--") s) eqn:Hp; [| discriminate].
  apply is_prefix_split in Hp.
  destruct (drop (length (txt "--")) s) as [| c s'] eqn:Ed; [discriminate |].
  destruct (is_ident c) eqn:Hc; [| discriminate].
  intros H. apply star_loop_class in H as (k & Hk & Hall & H).
  destruct (is_prefix (txt "(") (drop k s')) eqn:Hq; [| discriminate].
  apply is_prefix_split in Hq. injection H as <- _.
  assert (s' = take k s' ++ "("%char :: drop (S k) s') as Hs'.
  { rewrite <- (take_drop k s') at 1. f_equal. rewrite Hq at 1.
    simpl. f_equal. rewrite drop_drop. f_equal. lia. }
  assert (s = txt "--" ++ c :: s') as Hs by (by rewrite Hp at 1).
  exists (txt "--" ++ c :: take k s').
  split; [simpl; by rewrite Hc, Hall |].
  split; [| simpl; rewrite length_take; lia].
  rewrite Hs. simpl. do 3 f_equal.
  rewrite Hs' at 1. f_equal. f_equal.
  replace (k + 1) with (S k) by lia. reflexivity.
Qed.

Lemma ident_run_not_flat (w : text) :
  forall t a u,
    forallb is_ident w = true -> "("%char ∉ a ->
    w ++ "("%char :: t = a ++ ")"%char :: u -> False.
Proof.
  induction w as [| y w IH]; intros t a u Hw Ha Heq.
  - destruct a as [| x a]; simpl in Heq; [discriminate |].
    injection Heq as <- _. apply Ha. by left.
  - simpl in Hw. apply andb_true_iff in Hw as [Hy Hw].
    destruct a as [| x a]; simpl in Heq.
    + injection Heq as -> _. discriminate.
    + injection Heq as -> Heq. apply (IH _ _ _ Hw) in Heq; [exact Heq |].
      by apply not_elem_of_cons in Ha as [_ ?].
Qed.

Lemma matchAll_from_no_start (r : regex) (a s : text) :
  forall idx,
    (forall j, j < length a -> match_here r (drop j (a ++ s)) = None) ->
    matchAll_from r (a ++ s) idx 0 = matchAll_from r s (idx + length a) 0.
Proof.
  induction a as [| c a IH]; intros idx H.
  - simpl. by rewrite Nat.add_0_r.
  - pose proof (H 0 ltac:(simpl; lia)) as H0. cbn [drop app] in H0.
    cbn [app matchAll_from]. rewrite H0.
    rewrite IH.
    + f_equal. simpl. lia.
    + intros j Hj. apply (H (S j)). simpl. lia.
Qed.

Lemma flat_no_paren (a : text) (c : ascii) :
  flat a = true -> is_open c || is_close c = true -> c ∉ a.
Proof.
  unfold flat. intros Hf Hc Hin. rewrite forallb_forall in Hf.
  apply list_elem_of_In, Hf in Hin. by rewrite Hc in Hin.
Qed.

Lemma findMatchingBrace_loop_flat (a u : text) :
  forall i,
    flat a = true ->
    findMatchingBrace_loop (a ++ ")"%char :: u) i 1 = Some (i + length a).
Proof.
  induction a as [| c a IH]; intros i Hf; simpl.
  - f_equal. lia.
  - unfold flat in Hf. simpl in Hf. apply andb_true_iff in Hf as [Hc Hf].
    apply negb_true_iff, orb_false_iff in Hc as [Ho Hcl].
    unfold bracket_step. rewrite Ho, Hcl. simpl.
    rewrite (IH (S i) Hf). f_equal. lia.
Qed.

Section KnownCall.
Variable registry : gmap text FunctionDef.

Lemma resolveOnce_loop_moved (pre code : text) (ms : list rmatch) :
  forall acc lastIdx,
    resolveOnce_loop (pre ++ code) registry (map (shift (length pre)) ms)
      acc (length pre + lastIdx) =
    continue_after [] (length pre) (resolveOnce_loop code registry ms acc lastIdx).
Proof.
  induction ms as [| m ms IH]; intros acc lastIdx; simpl.
  - by rewrite slice_from_app_shift.
  - unfold group at 1. simpl m_caps. fold (group m 1).
    rewrite slice_app_shift.
    destruct (registry !! group m 1) as [def |].
    + rewrite <- Nat.add_assoc, findMatchingBrace_app_shift.
      destruct (findMatchingBrace code (m_index m + length (m_full m)))
        as [argsEnd | [p |]]; simpl; try reflexivity.
      rewrite slice_app_shift.
      destruct (extractResult (fn_body def)) as [expr | [p |]] eqn:E; simpl.
      * rewrite <- Nat.add_assoc. apply IH.
      * unfold extractResult in E. by destruct (str_match _ _).
      * reflexivity.
    + rewrite <- Nat.add_assoc. apply IH.
Qed.

Lemma resolveOnce_loop_written (code : text) (ms : list rmatch) :
  forall acc lastIdx,
    resolveOnce_loop code registry ms acc lastIdx =
    continue_after acc 0 (resolveOnce_loop code registry ms [] lastIdx).
Proof.
  induction ms as [| m ms IH]; intros acc lastIdx; simpl; [reflexivity |].
  destruct (registry !! group m 1) as [def |].
  - destruct (findMatchingBrace code _) as [argsEnd | [p |]]; try reflexivity.
    destruct (extractResult (fn_body def)) as [expr | [p |]] eqn:E;
      try reflexivity.
    simpl. rewrite IH. symmetry. rewrite IH.
    destruct (resolveOnce_loop code registry ms [] (argsEnd + 1)) as [out | [p |]];
      simpl; try reflexivity.
    by rewrite <- !app_assoc.
  - rewrite IH. symmetry. rewrite IH.
    destruct (resolveOnce_loop code registry ms [] _) as [out | [p |]];
      simpl; try reflexivity.
    by rewrite <- !app_assoc.
Qed.
End KnownCall.

Lemma matchAll_call_flat_args (args rest : text) :
  flat args = true ->
  matchAll callRegex (args ++ ")"%char :: rest) =
  map (shift (length (args ++ [")"%char]))) (matchAll callRegex rest).
Proof.
  intros Hf. unfold matchAll.
  replace (args ++ ")"%char :: rest) with ((args ++ [")"%char]) ++ rest)
    by (by rewrite <- app_assoc).
  rewrite matchAll_from_no_start.
  - rewrite <- matchAll_from_shift. f_equal. lia.
  - intros j Hj. rewrite length_app in Hj. simpl in Hj.
    destruct (match_here callRegex (drop j ((args ++ [")"%char]) ++ rest)))
      as [[n caps] |] eqn:E; [| reflexivity].
    exfalso. apply match_here_call_inv in E as (w & Hw & Heq & _).
    rewrite <- app_assoc in Heq. simpl in Heq.
    rewrite drop_app_le in Heq by lia. symmetry in Heq.
    apply (ident_run_not_flat _ _ _ _ Hw) in Heq; [exact Heq |].
    intros Hin. apply (flat_no_paren args "("%char Hf eq_refl).
    rewrite <- (take_drop j args). apply elem_of_app. by right.
Qed.

(** X14. A call of a registered function whose argument list holds no
    bracket is replaced, from its name to its closing parenthesis, by the
    result expression of the function with the arguments put in, and the
    text behind the call is resolved as a text of its own. *)
Theorem resolveOnce_known_flat (registry : gmap text FunctionDef)
    (nm args rest expr : text) (def : FunctionDef) :
  is_identifier nm = true ->
  registry !! nm = Some def ->
  extractResult (fn_body def) = Ok expr ->
  flat args = true ->
  resolveOnce (nm ++ "("%char :: args ++ ")"%char :: rest) registry =
  continue_after (substituteVars expr (fn_params def) (splitByComma args))
    (length (nm ++ "("%char :: args ++ [")"%char]))
    (resolveOnce rest registry).
Proof.
  intros Hid Hdef Hres Hf. unfold resolveOnce.
  rewrite (matchAll_call_head nm _ Hid).
  cbn [resolveOnce_loop m_index m_full]. change (group _ 1) with nm.
  rewrite Hdef, Nat.add_0_l.
  assert (findMatchingBrace (nm ++ "("%char :: args ++ ")"%char :: rest)
            (length (nm ++ ["("%char])) =
          Ok (length (nm ++ ["("%char]) + length args)) as Hb.
  { replace (nm ++ "("%char :: args ++ ")"%char :: rest)
      with ((nm ++ ["("%char]) ++ args ++ ")"%char :: rest)
      by (by rewrite <- app_assoc).
    unfold findMatchingBrace. rewrite drop_app_length.
    by rewrite findMatchingBrace_loop_flat. }
  rewrite Hb. cbn [mbind result_bind]. rewrite Hres. cbn [mbind result_bind].
  assert (slice (nm ++ "("%char :: args ++ ")"%char :: rest)
            (length (nm ++ ["("%char]))
            (length (nm ++ ["("%char]) + length args) = args) as ->.
  { replace (nm ++ "("%char :: args ++ ")"%char :: rest)
      with ((nm ++ ["("%char]) ++ args ++ ")"%char :: rest)
      by (by rewrite <- app_assoc).
    unfold slice. rewrite drop_app_length.
    replace (length (nm ++ ["("%char]) + length args - length (nm ++ ["("%char]))
      with (length args) by lia.
    apply take_app_length. }
  unfold slice at 1. rewrite Nat.sub_diag, take_0. cbn [app].
  rewrite (matchAll_call_flat_args args rest Hf), map_map.
  set (pre := nm ++ "("%char :: args ++ [")"%char]).
  replace (nm ++ "("%char :: args ++ ")"%char :: rest) with (pre ++ rest)
    by (unfold pre; rewrite <- !app_assoc; simpl; by rewrite <- app_assoc).
  assert (length (nm ++ ["("%char]) + length args + 1 = length pre + 0) as ->
    by (unfold pre; rewrite !length_app; simpl; rewrite length_app; simpl; lia).
  rewrite (map_ext _ (shift (length pre))).
  2: { intros m. unfold shift, pre. simpl. f_equal.
       rewrite !length_app. simpl. rewrite !length_app. simpl. lia. }
  rewrite resolveOnce_loop_moved, resolveOnce_loop_written.
  by destruct (resolveOnce_loop rest registry (matchAll callRegex rest) [] 0)
    as [out | [p |]].
Qed.

Lemma resolveOnce_known_flat_witness :
  let double :=
    mkFunctionDef (txt "--double") [mkParam (txt "--x") (Some (txt "1"))]
      (txt " result: calc(var(--x) * 2); ") in
  let registry : gmap text FunctionDef := <[txt "--double" := double]> ∅ in
  registry !! txt "--double" = Some double /\
  resolveOnce (txt "--double(3); h: --double();") registry =
    Ok (txt "calc(3 * 2); h: calc(1 * 2);").
Proof.
  intros double registry.
  assert (registry !! txt "--double" = Some double) as Hd
    by (vm_compute; reflexivity).
  split; [exact Hd |].
  pose proof (resolveOnce_known_flat registry (txt "--double") (txt "3")
                (txt "; h: --double();") (txt "calc(var(--x) * 2)") double
                eq_refl Hd eq_refl eq_refl) as H.
  etrans; [exact H |]. vm_compute. reflexivity.
Defined.

(** * The transform hook *)

Lemma before_first_stop (c : ascii) (a b : text) :
  c ∉ a -> before_first c (a ++ c :: b) = a.
Proof.
  induction a as [| x a IH]; intros Ha; simpl.
  - unfold chr_eqb. by rewrite Ascii.eqb_refl.
  - apply not_elem_of_cons in Ha as [Hx Ha].
    unfold chr_eqb. destruct (Ascii.eqb_spec x c); [congruence |].
    by rewrite IH.
Qed.

Lemma before_first_absent (c : ascii) (a : text) :
  c ∉ a -> before_first c a = a.
Proof.
  induction a as [| x a IH]; intros Ha; simpl; [reflexivity |].
  apply not_elem_of_cons in Ha as [Hx Ha].
  unfold chr_eqb. destruct (Ascii.eqb_spec x c); [congruence |].
  by rewrite IH.
Qed.

Lemma after_last_stop (c : ascii) (a b : text) :
  c ∉ b -> after_last c (a ++ c :: b) = b.
Proof.
  intros Hb. unfold after_last.
  rewrite rev_app_distr. simpl. rewrite <- app_assoc. simpl.
  rewrite before_first_stop; [apply rev_involutive |].
  by rewrite elem_of_rev_iff.
Qed.

Lemma occurs_cons (l : text) (x : ascii) (s : text) :
  occurs l (x :: s) = false -> is_prefix l (x :: s) = false /\ occurs l s = false.
Proof. cbn [occurs]. intros H. by apply orb_false_iff in H. Qed.

Lemma matchAll_from_lit_none (l : text) (r : regex) (s : text) :
  occurs l s = false ->
  forall idx skip, matchAll_from (Seq (Lit l) r) s idx skip = [].
Proof.
  induction s as [| x s IH]; intros Hs idx skip.
  - destruct skip; cbn [matchAll_from]; [| reflexivity].
    unfold match_here. rewrite rx_Seq_Lit.
    cbn [occurs] in Hs. apply orb_false_iff in Hs as [-> _]. reflexivity.
  - apply occurs_cons in Hs as [Hp Hs].
    destruct skip; cbn [matchAll_from]; [| by apply IH].
    unfold match_here. rewrite rx_Seq_Lit, Hp. by apply IH.
Qed.

Lemma resolveFunctionCalls_unknown (code : text) (registry : gmap text FunctionDef) :
  (forall m, m ∈ matchAll callRegex code -> registry !! group m 1 = None) ->
  resolveFunctionCalls code registry = Ok code.
Proof.
  intros Hun.
  assert (resolveOnce code registry = Ok code) as Hone.
  { unfold resolveOnce.
    pose proof (resolveOnce_loop_unknown registry code (matchAll callRegex code) 0
                  (matchAll_ok _ _)) as H.
    rewrite take_0 in H. apply H.
    apply List.Forall_forall. intros m Hm. apply Hun. by apply list_elem_of_In. }
  unfold resolveFunctionCalls, MAX_RECURSION_DEPTH.
  cbn [resolveFunctionCalls_loop]. rewrite Hone. cbn [mbind result_bind].
  unfold text_eqb. by rewrite bool_decide_eq_true_2.
Qed.

Lemma resolveMixinApplications_no_site (code : text) (registry : gmap text MixinDef) :
  matchAll applyRegex code = [] -> resolveMixinApplications code registry = code.
Proof.
  intros Hnone. apply resolveMixinApplications_two_passes; [| exact Hnone].
  unfold resolveMixinsOnce. rewrite Hnone. apply drop_0.
Qed.

(** X15. The extension the hook looks at is the text between the last dot
    and the first question mark of the module id (the end of the id when it
    has no question mark); a module with another extension than the eight
    listed is handed back untouched, [null] for the code and the registries
    as they were. *)
Theorem transform_other_extension (code stem ext query : text) (st : registries) :
  "."%char ∉ ext -> "?"%char ∉ stem -> "?"%char ∉ ext ->
  id_extension (stem ++ "."%char :: ext) = ext /\
  id_extension (stem ++ "."%char :: ext ++ "?"%char :: query) = ext /\
  (ext ∉ ALL_EXTENSIONS ->
   transform code (stem ++ "."%char :: ext) st = Ok (None, st) /\
   transform code (stem ++ "."%char :: ext ++ "?"%char :: query) st = Ok (None, st)).
Proof.
  intros Hdot Hq1 Hq2.
  assert ("?"%char ∉ stem ++ "."%char :: ext) as Hq.
  { intros H. apply elem_of_app in H as [H | H]; [by apply Hq1 |].
    apply elem_of_cons in H as [H | H]; [discriminate | by apply Hq2]. }
  assert (id_extension (stem ++ "."%char :: ext) = ext) as H1.
  { unfold id_extension. rewrite before_first_absent by exact Hq.
    by apply after_last_stop. }
  assert (id_extension (stem ++ "."%char :: ext ++ "?"%char :: query) = ext) as H2.
  { unfold id_extension.
    replace (stem ++ "."%char :: ext ++ "?"%char :: query)
      with ((stem ++ "."%char :: ext) ++ "?"%char :: query)
      by (by rewrite <- app_assoc).
    rewrite before_first_stop by exact Hq. by apply after_last_stop. }
  split; [exact H1 |]. split; [exact H2 |].
  intros Hext. unfold transform. cbv zeta. rewrite H1, H2.
  by rewrite (bool_decide_eq_false_2 _ Hext).
Qed.

Lemma transform_other_extension_witness :
  id_extension (txt "src/App.test.tsx") = txt "tsx" /\
  id_extension (txt "src/App.test.tsx?v=1.2") = txt "tsx" /\
  transform (txt "a { b: --c(1) }") (txt "src/App.test.tsx?v=1.2")
    (mkRegistries ∅ ∅) = Ok (None, mkRegistries ∅ ∅).
Proof.
  assert ("."%char ∉ txt "tsx") as H1 by (rewrite list_elem_of_In; simpl; intuition discriminate).
  assert ("?"%char ∉ txt "src/App.test") as H2 by (rewrite list_elem_of_In; simpl; intuition discriminate).
  assert ("?"%char ∉ txt "tsx") as H3 by (rewrite list_elem_of_In; simpl; intuition discriminate).
  assert (txt "tsx" ∉ ALL_EXTENSIONS) as H4
    by (rewrite list_elem_of_In; simpl; intuition discriminate).
  destruct (transform_other_extension (txt "a { b: --c(1) }") (txt "src/App.test")
              (txt "tsx") (txt "v=1.2") (mkRegistries ∅ ∅) H1 H2 H3)
    as (Ha & Hb & Hc).
  split; [exact Ha |]. split; [exact Hb |]. exact (proj2 (Hc H4)).
Defined.

(** X16. A style module that holds no declaration and no apply site, and
    in which no name written before a parenthesis is a registered function,
    comes back as it went in, and the registries are as they were. *)
Theorem transform_plain_text (code id : text) (st : registries) :
  id_extension id ∈ ALL_EXTENSIONS ->
  occurs (txt "@function") code = false ->
  occurs (txt "@mixin") code = false ->
  occurs (txt "@apply") code = false ->
  (forall m, m ∈ matchAll callRegex code ->
             functionRegistry st !! group m 1 = None) ->
  transform code id st = Ok (Some code, st).
Proof.
  intros Hext Hf Hm Ha Hun. unfold transform. cbv zeta.
  rewrite (bool_decide_eq_true_2 _ Hext). cbn [negb].
  assert (extractFunctions code (functionRegistry st) = Ok (functionRegistry st, []))
    as ->.
  { unfold extractFunctions, matchAll, functionRegex. cbn [cat].
    by rewrite matchAll_from_lit_none. }
  cbn [mbind result_bind fst snd].
  change (stripDefinitions code []) with code.
  assert (extractMixins code (mixinRegistry st) = Ok (mixinRegistry st, [])) as ->.
  { unfold extractMixins, matchAll, mixinRegex. cbn [cat].
    by rewrite matchAll_from_lit_none. }
  cbn [mbind result_bind fst snd].
  change (stripDefinitions code []) with code.
  rewrite resolveMixinApplications_no_site.
  2: { unfold matchAll, applyRegex. cbn [cat]. by rewrite matchAll_from_lit_none. }
  rewrite (resolveFunctionCalls_unknown _ _ Hun). cbn [mbind result_bind].
  by destruct st.
Qed.

Lemma transform_plain_text_witness :
  let st := mkRegistries nested_registry box_registry in
  transform (txt "a { color: var(--x); width: --w(1) }") (txt "src/app.css?inline") st
  = Ok (Some (txt "a { color: var(--x); width: --w(1) }"), st).
Proof.
  intros st. apply transform_plain_text.
  - apply list_elem_of_In. vm_compute. by left.
  - vm_compute; reflexivity.
  - vm_compute; reflexivity.
  - vm_compute; reflexivity.
  - intros m Hm.
    revert Hm. vm_compute matchAll. intros Hm.
    repeat (apply elem_of_cons in Hm as [-> | Hm]; [vm_compute; reflexivity |]).
    by apply elem_of_nil in Hm.
Defined.

(** * Mixin declarations, with and without a parameter list *)

Lemma is_ident_plain (x : ascii) :
  is_ident x = true ->
  is_space x = false /\ x <> "("%char /\ x <> "@"%char.
Proof.
  intros H. repeat split; try (intros ->; discriminate).
  destruct (is_space x) eqn:E; [| reflexivity].
  unfold is_ident, is_word, is_space, chr_eqb in *.
  rewrite <- (ascii_nat_embedding x) in H.
  set (n := nat_of_ascii x) in *.
  assert (n = 9 \/ n = 10 \/ n = 11 \/ n = 12 \/ n = 13 \/ n = 32 \/ n = 160) as Hn.
  { cbv zeta in E. apply orb_true_iff in E as [E | E];
      [apply orb_true_iff in E as [E | E] |].
    - apply andb_true_iff in E as [E1 E2].
      apply Nat.leb_le in E1, E2. lia.
    - apply Nat.eqb_eq in E. lia.
    - apply Nat.eqb_eq in E. lia. }
  destruct Hn as [-> | [-> | [-> | [-> | [-> | [-> | ->]]]]]]; discriminate.
Qed.

Lemma ident_run_no_at (w : text) : forallb is_ident w = true -> "@"%char ∉ w.
Proof.
  induction w as [| x w IH]; simpl; intros H; [apply not_elem_of_nil |].
  apply andb_true_iff in H as [Hx Hw].
  apply not_elem_of_cons. split; [| by apply IH].
  apply is_ident_plain in Hx as (_ & _ & Hx). congruence.
Qed.

Lemma star_loop_none_run {R : Type} (p : ascii -> bool) (run rest : text) :
  forall (i : nat) (k : text -> nat -> option R),
    forallb p run = true ->
    match rest with [] => True | c :: _ => p c = false end ->
    (forall j, j <= length run -> k (drop j run ++ rest) (i + j) = None) ->
    star_loop p (run ++ rest) i k = None.
Proof.
  induction run as [| c run IH]; intros i k Hrun Hrest Hk.
  - pose proof (Hk 0 ltac:(simpl; lia)) as H0. rewrite Nat.add_0_r in H0.
    cbn [drop app] in *. destruct rest as [| c rest]; [exact H0 |].
    by rewrite star_loop_stop.
  - simpl in Hrun. apply andb_true_iff in Hrun as [Hc Hrun].
    cbn [app star_loop]. rewrite Hc.
    rewrite (IH (S i) k Hrun Hrest).
    + pose proof (Hk 0 ltac:(simpl; lia)) as H0. rewrite Nat.add_0_r in H0.
      exact H0.
    + intros j Hj. pose proof (Hk (S j) ltac:(simpl; lia)) as H1.
      cbn [drop] in H1. by replace (S i + j) with (i + S j) by lia.
Qed.

Lemma forallb_drop (p : ascii -> bool) (w : text) (j : nat) :
  forallb p w = true -> forallb p (drop j w) = true.
Proof.
  revert j. induction w as [| x w IH]; intros [| j] H; simpl; try reflexivity.
  - exact H.
  - simpl in H. apply andb_true_iff in H as [_ H]. by apply IH.
Qed.

(** The header written with a parameter list, as the pattern of
    [plugin/src/index.ts] reads it. *)
Lemma match_here_mixin (nm ps tail : text) :
  is_identifier nm = true -> ")"%char ∉ ps ->
  match_here mixinRegex (txt "@mixin " ++ nm ++ txt "(" ++ ps ++ txt ") {" ++ tail) =
  Some (length (txt "@mixin " ++ nm ++ txt "(" ++ ps ++ txt ") {"),
        set_cap 2 ps (set_cap 1 nm no_caps)).
Proof.
  intros Hid Hps. apply is_identifier_shape in Hid as (c & w & -> & Hc & Hw).
  unfold match_here, mixinRegex, ident_re.
  cbn [cat rx].
  change (txt "@mixin ") with (txt "@mixin" ++ [" "%char]).
  rewrite <- !app_assoc.
  rewrite is_prefix_app, drop_app_length.
  cbn [app]. change (is_space " ") with true. cbv iota.
  rewrite star_loop_stop by reflexivity.
  change (is_prefix (txt "--") ("-"%char :: "-"%char :: ?x)) with true.
  change (drop (length (txt "--")) ("-"%char :: "-"%char :: ?x)) with x.
  cbv iota. rewrite Hc.
  apply star_loop_run; [exact Hw | reflexivity |].
  change (txt "(" ++ ?x) with ("("%char :: x).
  rewrite star_loop_stop by reflexivity.
  change (is_prefix (txt "(") ("("%char :: ?x)) with true.
  change (drop (length (txt "(")) ("("%char :: ?x)) with x.
  cbv iota.
  apply star_loop_run; [by apply forallb_is_not | reflexivity |].
  change (txt ") {" ++ tail) with (")"%char :: " "%char :: "{"%char :: tail).
  change (is_prefix (txt ")") (")"%char :: ?x)) with true.
  change (drop (length (txt ")")) (")"%char :: ?x)) with x.
  cbv iota.
  apply (star_loop_run is_space [" "%char] ("{"%char :: tail));
    [reflexivity | reflexivity |].
  change (is_prefix (txt "{") ("{"%char :: ?x)) with true.
  cbv iota.
  f_equal. f_equal.
  - repeat (rewrite ?length_app; simpl). lia.
  - f_equal; [| f_equal].
    + match goal with |- take ?n _ = _ => replace n with (length ps) by (simpl; lia) end.
      apply take_app_length.
    + match goal with |- take ?n _ = _ => replace n with (3 + length w) by (simpl; lia) end.
      simpl. by rewrite take_app_length.
Qed.

(** The same header as the pattern of the build-folder variant reads it:
    group 2 holds the parentheses too. *)
Lemma match_here_mixin_optional (nm ps tail : text) :
  is_identifier nm = true -> ")"%char ∉ ps ->
  match_here mixinRegexOptional
    (txt "@mixin " ++ nm ++ txt "(" ++ ps ++ txt ") {" ++ tail) =
  Some (length (txt "@mixin " ++ nm ++ txt "(" ++ ps ++ txt ") {"),
        set_cap 2 ("("%char :: ps ++ [")"%char]) (set_cap 1 nm no_caps)).
Proof.
  intros Hid Hps. apply is_identifier_shape in Hid as (c & w & -> & Hc & Hw).
  unfold match_here, mixinRegexOptional, ident_re.
  cbn [cat rx].
  change (txt "@mixin ") with (txt "@mixin" ++ [" "%char]).
  rewrite <- !app_assoc.
  rewrite is_prefix_app, drop_app_length.
  cbn [app]. change (is_space " ") with true. cbv iota.
  rewrite star_loop_stop by reflexivity.
  change (is_prefix (txt "--") ("-"%char :: "-"%char :: ?x)) with true.
  change (drop (length (txt "--")) ("-"%char :: "-"%char :: ?x)) with x.
  cbv iota. rewrite Hc.
  apply star_loop_run; [exact Hw | reflexivity |].
  change (txt "(" ++ ?x) with ("("%char :: x).
  rewrite star_loop_stop by reflexivity.
  change (is_prefix (txt "(") ("("%char :: ?x)) with true.
  change (drop (length (txt "(")) ("("%char :: ?x)) with x.
  cbv iota.
  erewrite star_loop_run; [reflexivity | by apply forallb_is_not | reflexivity |].
  change (txt ") {" ++ tail) with (")"%char :: " "%char :: "{"%char :: tail).
  change (is_prefix (txt ")") (")"%char :: ?x)) with true.
  change (drop (length (txt ")")) (")"%char :: ?x)) with x.
  cbv iota.
  match goal with
  | |- (if ?a =? ?b then _ else _) = _ =>
      replace (a =? b) with false by (symmetry; apply Nat.eqb_neq; simpl; lia)
  end.
  erewrite (star_loop_run is_space [" "%char] ("{"%char :: tail));
    [reflexivity | reflexivity | reflexivity |].
  change (is_prefix (txt "{") ("{"%char :: ?x)) with true.
  cbv iota.
  f_equal. f_equal.
  - repeat (rewrite ?length_app; simpl). lia.
  - f_equal; [| f_equal].
    + match goal with
      | |- take ?n ?l = ?r =>
          replace l with (r ++ " "%char :: "{"%char :: tail)
            by (simpl; by rewrite <- app_assoc);
          replace n with (length r) by (simpl; rewrite length_app; simpl; lia)
      end.
      apply take_app_length.
    + match goal with |- take ?n _ = _ => replace n with (3 + length w) by (simpl; lia) end.
      simpl. by rewrite take_app_length.
Qed.

(** The header written without a parameter list. *)
Lemma match_here_mixin_bare_optional (nm tail : text) :
  is_identifier nm = true ->
  match_here mixinRegexOptional (txt "@mixin " ++ nm ++ txt " {" ++ tail) =
  Some (length (txt "@mixin " ++ nm ++ txt " {"), set_cap 1 nm no_caps).
Proof.
  intros Hid. apply is_identifier_shape in Hid as (c & w & -> & Hc & Hw).
  unfold match_here, mixinRegexOptional, ident_re.
  cbn [cat rx].
  change (txt "@mixin ") with (txt "@mixin" ++ [" "%char]).
  rewrite <- !app_assoc.
  rewrite is_prefix_app, drop_app_length.
  cbn [app]. change (is_space " ") with true. cbv iota.
  rewrite star_loop_stop by reflexivity.
  change (is_prefix (txt "--") ("-"%char :: "-"%char :: ?x)) with true.
  change (drop (length (txt "--")) ("-"%char :: "-"%char :: ?x)) with x.
  cbv iota. rewrite Hc.
  apply star_loop_run; [exact Hw | reflexivity |].
  change (txt " {" ++ tail) with ([" "%char] ++ "{"%char :: tail).
  apply star_loop_run; [reflexivity | reflexivity |].
  change (is_prefix (txt "(") ("{"%char :: tail)) with false. cbv iota.
  rewrite star_loop_stop by reflexivity.
  change (is_prefix (txt "{") ("{"%char :: ?x)) with true.
  cbv iota.
  f_equal. f_equal.
  - repeat (rewrite ?length_app; simpl). lia.
  - f_equal.
    match goal with |- take ?n _ = _ => replace n with (3 + length w) by (simpl; lia) end.
    simpl. by rewrite take_app_length.
Qed.

Lemma match_here_mixin_bare (nm tail : text) :
  is_identifier nm = true ->
  match_here mixinRegex (txt "@mixin " ++ nm ++ txt " {" ++ tail) = None.
Proof.
  intros Hid. apply is_identifier_shape in Hid as (c & w & -> & Hc & Hw).
  unfold match_here, mixinRegex, ident_re.
  cbn [cat rx].
  change (txt "@mixin ") with (txt "@mixin" ++ [" "%char]).
  rewrite <- !app_assoc.
  rewrite is_prefix_app, drop_app_length.
  cbn [app]. change (is_space " ") with true. cbv iota.
  rewrite star_loop_stop by reflexivity.
  change (is_prefix (txt "--") ("-"%char :: "-"%char :: ?x)) with true.
  change (drop (length (txt "--")) ("-"%char :: "-"%char :: ?x)) with x.
  cbv iota. rewrite Hc.
  apply star_loop_none_run; [exact Hw | reflexivity |].
  intros j Hj.
  pose proof (forallb_drop is_ident w j Hw) as Hd.
  destruct (drop j w) as [| x w'].
  - reflexivity.
  - simpl in Hd. apply andb_true_iff in Hd as [Hx _].
    apply is_ident_plain in Hx as (Hs & Hp & _).
    cbn [app]. rewrite star_loop_stop by exact Hs.
    change (is_prefix (txt "(") (x :: ?t)) with (chr_eqb "(" x && true).
    unfold chr_eqb.
    by destruct (Ascii.eqb_spec "("%char x) as [<- | _].
Qed.

Lemma is_prefix_snoc (c : ascii) (l s : text) :
  c ∉ l -> is_prefix l (s ++ [c]) = true -> is_prefix l s = true.
Proof.
  revert s. induction l as [| a l IH]; intros s Hc H; [by destruct s |].
  apply not_elem_of_cons in Hc as [Hac Hc].
  destruct s as [| b s]; cbn [app is_prefix] in *.
  - apply andb_true_iff in H as [H _]. unfold chr_eqb in H.
    apply Ascii.eqb_eq in H. congruence.
  - apply andb_true_iff in H as [-> H]. by apply IH.
Qed.

Lemma occurs_snoc (c : ascii) (l s : text) :
  c ∉ l -> occurs l s = false -> occurs l (s ++ [c]) = false.
Proof.
  intros Hc. induction s as [| x s IH]; intros H.
  - cbn [occurs] in H. apply orb_false_iff in H as [H _].
    cbn [app occurs]. rewrite H.
    destruct (is_prefix l [c]) eqn:E; [| reflexivity].
    apply (is_prefix_snoc c l [] Hc) in E. congruence.
  - apply occurs_cons in H as [Hp H].
    cbn [app occurs]. rewrite (IH H), orb_false_r.
    destruct (is_prefix l (x :: s ++ [c])) eqn:E; [| reflexivity].
    apply (is_prefix_snoc c l (x :: s) Hc) in E. congruence.
Qed.

Lemma occurs_skip (h : ascii) (l a s : text) :
  h ∉ a -> occurs (h :: l) (a ++ s) = occurs (h :: l) s.
Proof.
  induction a as [| x a IH]; intros Ha; [reflexivity |].
  apply not_elem_of_cons in Ha as [Hx Ha].
  cbn [app occurs is_prefix]. unfold chr_eqb.
  destruct (Ascii.eqb_spec h x) as [-> | _]; [congruence |].
  by apply IH.
Qed.

Lemma tail_no_mixin (body : text) :
  occurs (txt "@mixin") body = false ->
  occurs (txt "@mixin") (body ++ txt "}") = false.
Proof.
  apply occurs_snoc. rewrite list_elem_of_In. simpl. intuition discriminate.
Qed.

Section MixinSource.
Variables (registry : gmap text MixinDef) (nm body : text).
Hypothesis nm_ident : is_identifier nm = true.
Hypothesis body_plain : occurs (txt "@mixin") body = false.
Hypothesis body_closed : findMatchingBrace (body ++ txt "}") 0 = Ok (length body).

Lemma body_found (header : text) :
  findMatchingBrace (header ++ body ++ txt "}") (length header) =
  Ok (length header + length body).
Proof.
  pose proof (findMatchingBrace_app_shift header (body ++ txt "}") 0) as Hb.
  by rewrite Nat.add_0_r, body_closed in Hb.
Qed.

Lemma body_slice (header : text) :
  slice (header ++ body ++ txt "}") (length header) (length header + length body)
  = body.
Proof.
  pose proof (slice_app_shift header (body ++ txt "}") 0 (length body)) as Hs.
  rewrite Nat.add_0_r in Hs. rewrite Hs.
  unfold slice. by rewrite drop_0, Nat.sub_0_r, take_app_length.
Qed.

Lemma matchAll_mixin_source (ps : text) :
  ")"%char ∉ ps ->
  matchAll mixinRegex (mixin_source nm ps body) =
  [mkMatch 0 (txt "@mixin " ++ nm ++ txt "(" ++ ps ++ txt ") {")
     (set_cap 2 ps (set_cap 1 nm no_caps))].
Proof.
  intros Hps. unfold matchAll, mixin_source.
  rewrite (matchAll_from_match _ _ 0 _ _
             (match_here_mixin nm ps (body ++ txt "}") nm_ident Hps)).
  - replace (txt "@mixin " ++ nm ++ txt "(" ++ ps ++ txt ") {" ++ body ++ txt "}")
      with ((txt "@mixin " ++ nm ++ txt "(" ++ ps ++ txt ") {") ++ body ++ txt "}")
      by (by rewrite <- !app_assoc).
    rewrite take_app_length, drop_app_length. f_equal.
    unfold mixinRegex. cbn [cat].
    apply matchAll_from_lit_none. by apply tail_no_mixin.
  - rewrite length_app. simpl. lia.
Qed.

Lemma matchAll_mixin_source_optional (ps : text) :
  ")"%char ∉ ps ->
  matchAll mixinRegexOptional (mixin_source nm ps body) =
  [mkMatch 0 (txt "@mixin " ++ nm ++ txt "(" ++ ps ++ txt ") {")
     (set_cap 2 ("("%char :: ps ++ [")"%char]) (set_cap 1 nm no_caps))].
Proof.
  intros Hps. unfold matchAll, mixin_source.
  rewrite (matchAll_from_match _ _ 0 _ _
             (match_here_mixin_optional nm ps (body ++ txt "}") nm_ident Hps)).
  - replace (txt "@mixin " ++ nm ++ txt "(" ++ ps ++ txt ") {" ++ body ++ txt "}")
      with ((txt "@mixin " ++ nm ++ txt "(" ++ ps ++ txt ") {") ++ body ++ txt "}")
      by (by rewrite <- !app_assoc).
    rewrite take_app_length, drop_app_length. f_equal.
    unfold mixinRegexOptional. cbn [cat].
    apply matchAll_from_lit_none. by apply tail_no_mixin.
  - rewrite length_app. simpl. lia.
Qed.

Lemma matchAll_mixin_bare_optional :
  matchAll mixinRegexOptional (mixin_source_bare nm body) =
  [mkMatch 0 (txt "@mixin " ++ nm ++ txt " {") (set_cap 1 nm no_caps)].
Proof.
  unfold matchAll, mixin_source_bare.
  rewrite (matchAll_from_match _ _ 0 _ _
             (match_here_mixin_bare_optional nm (body ++ txt "}") nm_ident)).
  - replace (txt "@mixin " ++ nm ++ txt " {" ++ body ++ txt "}")
      with ((txt "@mixin " ++ nm ++ txt " {") ++ body ++ txt "}")
      by (by rewrite <- !app_assoc).
    rewrite take_app_length, drop_app_length. f_equal.
    unfold mixinRegexOptional. cbn [cat].
    apply matchAll_from_lit_none. by apply tail_no_mixin.
  - rewrite length_app. simpl. lia.
Qed.

Lemma matchAll_mixin_bare :
  matchAll mixinRegex (mixin_source_bare nm body) = [].
Proof.
  unfold matchAll, mixin_source_bare.
  pose proof (match_here_mixin_bare nm (body ++ txt "}") nm_ident) as Hnone.
  change (txt "@mixin " ++ ?x) with ("@"%char :: txt "mixin " ++ x) in *.
  cbn [matchAll_from]. rewrite Hnone.
  unfold mixinRegex. cbn [cat].
  apply matchAll_from_lit_none.
  apply is_identifier_shape in nm_ident as (c & w & -> & Hc & Hw).
  change (txt "@mixin") with ("@"%char :: txt "mixin").
  rewrite occurs_skip
    by (rewrite list_elem_of_In; simpl; intuition discriminate).
  rewrite occurs_skip
    by (apply ident_run_no_at; simpl; by rewrite Hc, Hw).
  rewrite occurs_skip
    by (rewrite list_elem_of_In; simpl; intuition discriminate).
  by apply tail_no_mixin.
Qed.

End MixinSource.

(** X17. A text that is one mixin declaration with a parameter list is
    read the same way by both variants of [extractMixins]: the mixin is
    registered under its name with the parameters and the contents flag
    [parseParams] finds in the list and with the text between the braces as
    its body, and the single span to remove is the whole declaration. *)
Theorem extractMixins_declaration (registry : gmap text MixinDef)
    (nm ps body : text) :
  is_identifier nm = true ->
  ")"%char ∉ ps ->
  occurs (txt "@mixin") body = false ->
  findMatchingBrace (body ++ txt "}") 0 = Ok (length body) ->
  let entry := mkMixinDef nm (fst (parseParams ps)) body (snd (parseParams ps)) in
  let out := Ok (<[nm := entry]> registry, [(0, length (mixin_source nm ps body))]) in
  extractMixins (mixin_source nm ps body) registry = out /\
  extractMixinsOptional (mixin_source nm ps body) registry = out.
Proof.
  intros Hid Hps Hplain Hclosed entry out.
  set (header := txt "@mixin " ++ nm ++ txt "(" ++ ps ++ txt ") {").
  assert (mixin_source nm ps body = header ++ body ++ txt "}") as Hsrc
    by (unfold mixin_source, header; by rewrite <- !app_assoc).
  assert (length header + length body + 1 = length (mixin_source nm ps body)) as Hlen
    by (rewrite Hsrc, !length_app; simpl; lia).
  assert (slice (mixin_source nm ps body) (length header)
            (length header + length body) = body) as Hslice
    by (rewrite Hsrc; apply body_slice).
  split.
  - unfold extractMixins. rewrite (matchAll_mixin_source nm body Hid Hplain ps Hps).
    cbn [extractMixins_loop m_index m_full]. rewrite Nat.add_0_l.
    change (group _ 1) with nm. change (group _ 2) with ps.
    fold header. rewrite Hsrc at 1.
    rewrite (body_found body Hclosed header). cbn [mbind result_bind app].
    rewrite Hslice, Hlen.
    unfold out, entry. by destruct (parseParams ps).
  - unfold extractMixinsOptional.
    rewrite (matchAll_mixin_source_optional nm body Hid Hplain ps Hps).
    cbn [extractMixinsOptional_loop m_index m_full]. rewrite Nat.add_0_l.
    change (group _ 1) with nm.
    fold header. rewrite Hsrc at 1.
    rewrite (body_found body Hclosed header). cbn [mbind result_bind app].
    rewrite Hslice, Hlen.
    change (m_caps _ 2) with (Some ("("%char :: ps ++ [")"%char])).
    cbv iota.
    assert (slice ("("%char :: ps ++ [")"%char]) 1
              (length ("("%char :: ps ++ [")"%char]) - 1) = ps) as ->.
    { unfold slice. cbn [drop length]. rewrite drop_0, length_app. simpl.
      replace (length ps + 1 - 0 - 1) with (length ps) by lia.
      apply take_app_length. }
    unfold out, entry. by destruct (parseParams ps).
Qed.

Lemma extractMixins_declaration_witness :
  let src := txt "@mixin --box(--c: red, @contents) { color: env(--c); @contents; }" in
  let entry :=
    mkMixinDef (txt "--box") [mkParam (txt "--c") (Some (txt "red"))]
      (txt " color: env(--c); @contents; ") true in
  extractMixins src ∅ = Ok (<[txt "--box" := entry]> ∅, [(0, 65)]) /\
  extractMixinsOptional src ∅ = Ok (<[txt "--box" := entry]> ∅, [(0, 65)]).
Proof.
  assert (")"%char ∉ txt "--c: red, @contents") as Hps
    by (rewrite list_elem_of_In; simpl; intuition discriminate).
  exact (extractMixins_declaration ∅ (txt "--box") (txt "--c: red, @contents")
           (txt " color: env(--c); @contents; ") eq_refl Hps eq_refl eq_refl).
Defined.

(** X18. A mixin declared without a parameter list is where the two
    variants part: the pattern of [plugin/src/index.ts] asks for the
    parentheses, so [extractMixins] registers nothing and marks nothing for
    removal, while the variant with the optional group registers the mixin
    with no parameters and no contents flag and marks the whole
    declaration. *)
Theorem extractMixins_bare_declaration (registry : gmap text MixinDef)
    (nm body : text) :
  is_identifier nm = true ->
  occurs (txt "@mixin") body = false ->
  findMatchingBrace (body ++ txt "}") 0 = Ok (length body) ->
  extractMixins (mixin_source_bare nm body) registry = Ok (registry, []) /\
  extractMixinsOptional (mixin_source_bare nm body) registry =
    Ok (<[nm := mkMixinDef nm [] body false]> registry,
        [(0, length (mixin_source_bare nm body))]).
Proof.
  intros Hid Hplain Hclosed.
  set (header := txt "@mixin " ++ nm ++ txt " {").
  assert (mixin_source_bare nm body = header ++ body ++ txt "}") as Hsrc
    by (unfold mixin_source_bare, header; by rewrite <- !app_assoc).
  assert (length header + length body + 1 = length (mixin_source_bare nm body))
    as Hlen by (rewrite Hsrc, !length_app; simpl; lia).
  assert (slice (mixin_source_bare nm body) (length header)
            (length header + length body) = body) as Hslice
    by (rewrite Hsrc; apply body_slice).
  split.
  - unfold extractMixins. by rewrite (matchAll_mixin_bare nm body Hid Hplain).
  - unfold extractMixinsOptional.
    rewrite (matchAll_mixin_bare_optional nm body Hid Hplain).
    cbn [extractMixinsOptional_loop m_index m_full]. rewrite Nat.add_0_l.
    change (group _ 1) with nm.
    fold header. rewrite Hsrc at 1.
    rewrite (body_found body Hclosed header). cbn [mbind result_bind app].
    rewrite Hslice, Hlen. reflexivity.
Qed.

Lemma extractMixins_bare_declaration_witness :
  let src := txt "@mixin --wrap { @media (min-width: 1px) { @contents; } }" in
  extractMixins src ∅ = Ok (∅, []) /\
  extractMixinsOptional src ∅ =
    Ok (<[txt "--wrap" :=
            mkMixinDef (txt "--wrap") []
              (txt " @media (min-width: 1px) { @contents; } ") false]> ∅,
        [(0, 56)]).
Proof.
  exact (extractMixins_bare_declaration ∅ (txt "--wrap")
           (txt " @media (min-width: 1px) { @contents; } ") eq_refl eq_refl eq_refl).
Defined.

(** * An apply site of a registered mixin *)

Lemma resolveMixinsOnce_at_site (code : text) (registry : gmap text MixinDef)
    (ms1 ms2 : list rmatch) (m : rmatch) :
  matchAll applyRegex code = ms1 ++ m :: ms2 ->
  resolveMixinsOnce code registry =
    resolveMixinsOnce_loop (take (m_index m) code) registry ms1 [] 0 ++
    applyMixin registry m ++
    resolveMixinsOnce (drop (m_end m) code) registry.
Proof.
  intros Hsplit.
  pose proof (matchAll_ok applyRegex code) as Hok. rewrite Hsplit in Hok.
  pose proof (matches_ok_app _ _ _ _ _ Hok) as (_ & Hend & Hfull).
  unfold resolveMixinsOnce. rewrite !resolveMixinsOnce_loop_splice.
  rewrite !app_nil_l.
  rewrite Hsplit, (splice_split _ _ _ _ _ _ Hok).
  rewrite (matchAll_tail _ applyRegex_nonempty _ _ _ _ Hsplit).
  pose proof (splice_shift (take (m_end m) code) (drop (m_end m) code)
                (applyMixin registry)
                (matchAll applyRegex (drop (m_end m) code))
                (fun _ => eq_refl) 0) as Hs.
  rewrite take_drop, length_take, Nat.add_0_r in Hs.
  replace (m_end m `min` length code) with (m_end m) in Hs by lia.
  rewrite Hs. reflexivity.
Qed.

(** X19. An apply site of a registered mixin that does not take contents
    gives way, whole, to the body of the mixin with its [env()] references
    filled in from the arguments of the site (none when the site has no
    argument list, or an empty one); a block written at the site is dropped.
    The text before and behind the site is resolved as any text is. *)
Theorem resolveMixinsOnce_known_plain (code : text)
    (registry : gmap text MixinDef) (ms1 ms2 : list rmatch) (m : rmatch)
    (def : MixinDef) :
  matchAll applyRegex code = ms1 ++ m :: ms2 ->
  registry !! group m 1 = Some def ->
  hasContents def = false ->
  resolveMixinsOnce code registry =
    resolveMixinsOnce_loop (take (m_index m) code) registry ms1 [] 0 ++
    substituteEnvVars (mx_body def) (mx_params def)
      (if bool_decide (group m 2 = []) then [] else splitByComma (group m 2)) ++
    resolveMixinsOnce (drop (m_end m) code) registry.
Proof.
  intros Hsplit Hdef Hplain.
  rewrite (resolveMixinsOnce_at_site code registry ms1 ms2 m Hsplit).
  do 2 f_equal. unfold applyMixin. cbv zeta. rewrite Hdef, Hplain.
  f_equal. unfold group. by destruct (m_caps m 2) as [[| c a] |].
Qed.

Lemma resolveMixinsOnce_known_plain_witness :
  resolveMixinsOnce (txt "a { @apply --box(blue) { b: c } d: e }") box_registry =
  txt "a { " ++ txt "color: blue;" ++ txt "d: e }".
Proof.
  pose (m := mkMatch 4 (txt "@apply --box(blue) { b: c } ")
               (set_cap 3 (txt " b: c ")
                  (set_cap 2 (txt "blue") (set_cap 1 (txt "--box") no_caps)))).
  assert (matchAll applyRegex (txt "a { @apply --box(blue) { b: c } d: e }") =
          [] ++ m :: []) as Hsplit by (vm_compute; reflexivity).
  etrans; [exact (resolveMixinsOnce_known_plain _ box_registry [] [] m box_def
                    Hsplit eq_refl eq_refl) |].
  vm_compute. reflexivity.
Defined.

(** * What the merged ranges are made of *)

Section MergeBounds.
Local Open Scope Z_scope.

Lemma coalesce_length (rest : list (Z * Z)) :
  forall cur, (length (coalesce cur rest) <= S (length rest))%nat.
Proof.
  induction rest as [| sp rest IH]; intros cur; simpl; [lia |].
  destruct (fst sp <=? snd cur).
  - specialize (IH (fst cur, Z.max (snd cur) (snd sp))). lia.
  - specialize (IH sp). simpl. lia.
Qed.

Lemma coalesce_bounds (rest : list (Z * Z)) :
  forall cur sp,
    sp ∈ coalesce cur rest ->
    (exists a, a ∈ cur :: rest /\ fst a = fst sp) /\
    (exists b, b ∈ cur :: rest /\ snd b = snd sp).
Proof.
  induction rest as [| r rest IH]; intros cur sp H; simpl in H.
  - apply list_elem_of_singleton in H as ->.
    split; exists cur; split; try reflexivity; by left.
  - destruct (fst r <=? snd cur).
    + apply IH in H as [(a & Ha & Hfa) (b & Hb & Hsb)]. split.
      * apply elem_of_cons in Ha as [-> | Ha].
        -- exists cur. split; [by left | exact Hfa].
        -- exists a. split; [by do 2 right | exact Hfa].
      * apply elem_of_cons in Hb as [-> | Hb].
        -- simpl in Hsb.
           destruct (Z.max_spec (snd cur) (snd r)) as [[_ Hm] | [_ Hm]];
             rewrite Hm in Hsb.
           ++ exists r. split; [right; by left | exact Hsb].
           ++ exists cur. split; [by left | exact Hsb].
        -- exists b. split; [by do 2 right | exact Hsb].
    + apply elem_of_cons in H as [-> | H].
      * split; exists cur; split; try reflexivity; by left.
      * apply IH in H as [(a & Ha & Hfa) (b & Hb & Hsb)].
        split; [exists a | exists b]; split; try assumption; by right.
Qed.

Lemma coalesce_wf (rest : list (Z * Z)) :
  forall cur,
    fst cur <= snd cur -> Forall (fun r => fst r <= snd r) rest ->
    Forall (fun r => fst r <= snd r) (coalesce cur rest).
Proof.
  induction rest as [| r rest IH]; intros cur Hcur Hrest; simpl.
  - by constructor.
  - apply Forall_cons in Hrest as [Hr Hrest].
    destruct (fst r <=? snd cur).
    + apply IH; [simpl; lia | exact Hrest].
    + constructor; [exact Hcur |]. by apply IH.
Qed.

(** X20. [mergeRanges] makes its output of the numbers of its input: it
    returns at most as many ranges as it was given, every start it returns
    is the start of a given range and every end the end of one, and when no
    given range ends before it starts, none of the merged ones does. *)
Theorem mergeRanges_bounds (ranges : list (Z * Z)) :
  (length (mergeRanges ranges) <= length ranges)%nat /\
  (forall sp, sp ∈ mergeRanges ranges ->
              (exists a, a ∈ ranges /\ fst a = fst sp) /\
              (exists b, b ∈ ranges /\ snd b = snd sp)) /\
  (Forall (fun r => fst r <= snd r) ranges ->
   Forall (fun r => fst r <= snd r) (mergeRanges ranges)).
Proof.
  rewrite mergeRanges_spec. unfold mergeSpans_spec.
  pose proof (sort_by_start_perm ranges) as Hp.
  destruct (sort_by_start ranges) as [| cur rest] eqn:E.
  - split; [simpl; lia |]. split; [| by constructor].
    intros sp H. by apply elem_of_nil in H.
  - split; [| split].
    + rewrite <- (Permutation_length Hp). apply coalesce_length.
    + intros sp H. apply coalesce_bounds in H as [(a & Ha & Hfa) (b & Hb & Hsb)].
      split; [exists a | exists b]; split; try assumption; by rewrite <- Hp.
    + intros Hwf. rewrite <- Hp in Hwf. apply Forall_cons in Hwf as [Hc Hr].
      by apply coalesce_wf.
Qed.
End MergeBounds.

Lemma mergeRanges_bounds_witness :
  Forall (fun r => fst r <= snd r)%Z (mergeRanges [(5, 9); (0, 3); (2, 6)]%Z).
Proof.
  apply (proj2 (proj2 (mergeRanges_bounds [(5, 9); (0, 3); (2, 6)]%Z))).
  repeat constructor; simpl; lia.
Defined.

(** * A declaration kept out of the transformation *)

Lemma mergeOffsets_one (a b : nat) : mergeOffsets [(a, b)] = [(a, b)].
Proof.
  unfold mergeOffsets, mergeRanges. simpl. by rewrite !Nat2Z.id.
Qed.

(** X21. With one excluded range, [transformExcludingRanges] resolves
    the text before the range and the text behind it each on its own and
    puts the range between the two results: as it stands when [strip] is
    off, with all but its line breaks removed when [strip] is on.  Nothing
    inside the range is resolved, and a failure before or behind it is the
    failure of the whole. *)
Theorem transformExcludingRanges_one (pre decl post : text)
    (mixins : gmap text MixinDef) (functions : gmap text FunctionDef)
    (strip : bool) :
  transformExcludingRanges (pre ++ decl ++ post)
    [(length pre, length pre + length decl)] mixins functions strip =
  (before ← processChunk pre mixins functions;
   behind ← processChunk post mixins functions;
   Ok (before ++ (if strip then List.filter is_newline decl else decl) ++ behind)).
Proof.
  unfold transformExcludingRanges. rewrite mergeOffsets_one.
  cbn [transformExcludingRanges_loop].
  assert (slice (pre ++ decl ++ post) 0 (length pre) = pre) as ->.
  { unfold slice. by rewrite drop_0, Nat.sub_0_r, take_app_length. }
  assert (slice (pre ++ decl ++ post) (length pre) (length pre + length decl) = decl)
    as ->.
  { unfold slice. rewrite drop_app_length.
    replace (length pre + length decl - length pre) with (length decl) by lia.
    apply take_app_length. }
  assert (slice_from (pre ++ decl ++ post) (length pre + length decl) = post) as ->.
  { unfold slice_from. rewrite app_assoc, <- length_app. apply drop_app_length. }
  destruct (processChunk pre mixins functions) as [before | e];
    cbn [mbind result_bind]; [| reflexivity].
  destruct (processChunk post mixins functions) as [behind | e];
    cbn [mbind result_bind]; [| reflexivity].
  f_equal. unfold notNewlineRegex. rewrite replace_class_empty.
  assert (List.filter (fun c => negb (is_not newline c)) decl =
          List.filter is_newline decl) as ->.
  { apply filter_ext. intros c. unfold is_not, is_newline. apply negb_involutive. }
  destruct strip; by rewrite <- !app_assoc.
Qed.

(** * The registries over successive modules *)

Lemma extractMixins_loop_keeps (code : text) (ms : list rmatch) :
  forall registry removals registry' removals',
    extractMixins_loop code ms registry removals = Ok (registry', removals') ->
    forall k, is_Some (registry !! k) -> is_Some (registry' !! k).
Proof.
  induction ms as [| m ms IH]; intros registry removals registry' removals' H k Hk.
  - simpl in H. by injection H as <- <-.
  - cbn [extractMixins_loop] in H.
    destruct (findMatchingBrace code _) as [bodyEnd | e]; [| discriminate].
    cbn [mbind result_bind] in H.
    destruct (parseParams (group m 2)) as [params contents].
    eapply IH; [exact H |].
    destruct (decide (group m 1 = k)) as [<- | Hne].
    + rewrite lookup_insert_eq. by eexists.
    + by rewrite lookup_insert_ne.
Qed.

(** X22. The hook never takes a name out of a registry: after a module has
    gone through [transform], every function and every mixin that was
    registered before still is, under the same name, so a declaration of one
    module serves the modules that come after it.  A module that is handed
    back untouched leaves both registries as they were. *)
Theorem transform_registries_grow (code id : text) (st st' : registries)
    (out : option text) :
  transform code id st = Ok (out, st') ->
  (forall k, is_Some (functionRegistry st !! k) ->
             is_Some (functionRegistry st' !! k)) /\
  (forall k, is_Some (mixinRegistry st !! k) ->
             is_Some (mixinRegistry st' !! k)) /\
  (out = None -> st' = st).
Proof.
  unfold transform. cbv zeta.
  destruct (negb (bool_decide (id_extension id ∈ ALL_EXTENSIONS))).
  { intros [= <- <-]. by repeat split. }
  destruct (extractFunctions code (functionRegistry st))
    as [[functions functionRemovals] | e] eqn:Ef; [| discriminate].
  cbn [mbind result_bind fst snd].
  destruct (extractMixins (stripDefinitions code functionRemovals) (mixinRegistry st))
    as [[mixins mixinRemovals] | e] eqn:Em; [| discriminate].
  cbn [mbind result_bind fst snd].
  destruct (resolveFunctionCalls _ functions) as [processed | e]; [| discriminate].
  cbn [mbind result_bind]. intros [= <- <-]. cbn [functionRegistry mixinRegistry].
  split; [| split; [| discriminate]].
  - unfold extractFunctions in Ef.
    apply extractFunctions_loop_spec in Ef as (_ & Hkeep & _); [| done].
    intros k [d Hd]. by apply (Hkeep k d).
  - unfold extractMixins in Em. by apply (extractMixins_loop_keeps _ _ _ _ _ _ Em).
Qed.

Lemma transform_registries_grow_witness :
  let st := mkRegistries nested_registry box_registry in
  let st' :=
    mkRegistries
      (<[txt "--c" := mkFunctionDef (txt "--c") [] (txt " result: 3; ")]>
         nested_registry)
      box_registry in
  transform (txt "@function --c() { result: 3; } a { b: --a(5); }")
    (txt "late.css") st = Ok (Some (txt " a { b: 5; }"), st') /\
  is_Some (functionRegistry st' !! txt "--a") /\
  is_Some (mixinRegistry st' !! txt "--box").
Proof.
  intros st st'.
  assert (transform (txt "@function --c() { result: 3; } a { b: --a(5); }")
            (txt "late.css") st = Ok (Some (txt " a { b: 5; }"), st')) as E
    by (vm_compute; reflexivity).
  destruct (transform_registries_grow _ _ _ _ _ E) as (Hf & Hm & _).
  split; [exact E |]. split.
  - apply Hf. vm_compute. by eexists.
  - apply Hm. vm_compute. by eexists.
Defined.

(** * A call site anywhere in the text *)

Lemma callRegex_nonempty (s : text) (n : nat) (caps : captures) :
  match_here callRegex s = Some (n, caps) -> 0 < n.
Proof.
  intros H. apply match_here_call_inv in H as (w & _ & _ & ->). lia.
Qed.

Lemma continue_after_twice (a b : text) (p q : nat) (o : outcome text) :
  continue_after a p (continue_after b q o) = continue_after (a ++ b) (p + q) o.
Proof.
  destruct o as [out | [e |]]; simpl; try reflexivity.
  - by rewrite app_assoc.
  - do 2 f_equal. lia.
Qed.

Section CallSite.
Variable registry : gmap text FunctionDef.

Lemma resolveOnce_loop_app (code : text) (ms1 ms2 : list rmatch) :
  forall acc lastIdx,
    resolveOnce_loop code registry (ms1 ++ ms2) acc lastIdx =
    (st ← resolveOnce_scan code registry ms1 acc lastIdx;
     resolveOnce_loop code registry ms2 (fst st) (snd st)).
Proof.
  induction ms1 as [| m ms1 IH]; intros acc lastIdx; [reflexivity |].
  cbn [app resolveOnce_loop resolveOnce_scan].
  destruct (registry !! group m 1) as [def |]; [| apply IH].
  destruct (findMatchingBrace code _) as [argsEnd | e]; [| reflexivity].
  cbn [mbind result_bind].
  destruct (extractResult (fn_body def)) as [expr | e]; [| reflexivity].
  cbn [mbind result_bind]. apply IH.
Qed.

(** The matches behind offset [q] are those of the text from [q] on, and
    the loop over them is a pass over that text. *)
Lemma resolveOnce_loop_behind (code : text) (q : nat) (acc : text) :
  q <= length code ->
  resolveOnce_loop code registry
    (map (shift q) (matchAll callRegex (drop q code))) acc q =
  continue_after acc q (resolveOnce (drop q code) registry).
Proof.
  intros Hq.
  pose proof (resolveOnce_loop_moved registry (take q code) (drop q code)
                (matchAll callRegex (drop q code)) acc 0) as H.
  rewrite take_drop, length_take, Nat.add_0_r in H.
  replace (q `min` length code) with q in H by lia.
  rewrite H, resolveOnce_loop_written. unfold resolveOnce.
  rewrite continue_after_twice, Nat.add_0_r. reflexivity.
Qed.

Lemma resolveOnce_at_unknown (code : text) (ms1 ms2 : list rmatch) (m : rmatch) :
  matchAll callRegex code = ms1 ++ m :: ms2 ->
  registry !! group m 1 = None ->
  resolveOnce code registry =
  (st ← resolveOnce_scan code registry ms1 [] 0;
   continue_after (fst st ++ slice code (snd st) (m_index m) ++ m_full m) (m_end m)
     (resolveOnce (drop (m_end m) code) registry)).
Proof.
  intros Hsplit Hun.
  pose proof (matchAll_ok callRegex code) as Hok. rewrite Hsplit in Hok.
  pose proof (matches_ok_app _ _ _ _ _ Hok) as (_ & Hend & _).
  unfold resolveOnce at 1. rewrite Hsplit, resolveOnce_loop_app.
  destruct (resolveOnce_scan code registry ms1 [] 0) as [[written lastIdx] | e];
    [| reflexivity].
  cbn [mbind result_bind fst snd resolveOnce_loop]. rewrite Hun.
  rewrite (matchAll_tail _ callRegex_nonempty _ _ _ _ Hsplit).
  fold (m_end m). rewrite <- app_assoc.
  by apply resolveOnce_loop_behind.
Qed.

Lemma resolveOnce_scan_unknown (code : text) (ms1 ms2 : list rmatch) :
  forall pos,
    matches_ok code pos (ms1 ++ ms2) ->
    Forall (fun m => registry !! group m 1 = None) ms1 ->
    exists p, pos <= p /\ matches_ok code p ms2 /\
      resolveOnce_scan code registry ms1 (take pos code) pos = Ok (take p code, p).
Proof.
  induction ms1 as [| m ms1 IH]; intros pos Hok Hun.
  - exists pos. by repeat split.
  - destruct Hok as (Hpos & Hend & Hfull & Hok).
    apply Forall_cons in Hun as [Hm Hun].
    destruct (IH _ Hok Hun) as (p & Hp & Hok2 & Heq).
    exists p. split; [unfold m_end in Hp; lia |]. split; [exact Hok2 |].
    cbn [resolveOnce_scan]. rewrite Hm.
    rewrite slice_extend by exact Hpos.
    assert (take (m_index m) code ++ m_full m = take (m_end m) code) as ->.
    { rewrite Hfull. apply slice_extend. unfold m_end. lia. }
    exact Heq.
Qed.
End CallSite.

Lemma matchAll_from_sound (r : regex) (s : text) :
  forall idx skip m,
    m ∈ matchAll_from r s idx skip ->
    exists j n caps,
      match_here r (drop j s) = Some (n, caps) /\
      m = mkMatch (idx + j) (take n (drop j s)) caps.
Proof.
  induction s as [| c s IH]; intros idx skip m Hin.
  - destruct skip; cbn [matchAll_from] in Hin; [| by apply elem_of_nil in Hin].
    destruct (match_here r []) as [[n caps] |] eqn:E;
      [| by apply elem_of_nil in Hin].
    apply list_elem_of_singleton in Hin as ->.
    exists 0, n, caps. rewrite Nat.add_0_r. by split.
  - assert (forall skip',
              m ∈ matchAll_from r s (S idx) skip' ->
              exists j n caps,
                match_here r (drop j (c :: s)) = Some (n, caps) /\
                m = mkMatch (idx + j) (take n (drop j (c :: s))) caps) as Hrec.
    { intros skip' H. apply IH in H as (j & n & caps & Hm & ->).
      exists (S j), n, caps. split; [exact Hm |]. cbn [drop]. f_equal. lia. }
    destruct skip as [| skip]; cbn [matchAll_from] in Hin; [| by eapply Hrec].
    destruct (match_here r (c :: s)) as [[n caps] |] eqn:E; [| by eapply Hrec].
    apply elem_of_cons in Hin as [-> | Hin]; [| by eapply Hrec].
    exists 0, n, caps. rewrite Nat.add_0_r. by split.
Qed.

Lemma match_here_call_group (s : text) (n : nat) (caps : captures) :
  match_here callRegex s = Some (n, caps) ->
  exists w, forallb is_ident w = true /\ take n s = w ++ ["("%char] /\
            caps 1 = Some w.
Proof.
  unfold match_here, callRegex, ident_re. cbn [cat rx].
  destruct (is_prefix (txt "--") s) eqn:Hp; [| discriminate].
  apply is_prefix_split in Hp.
  destruct (drop (length (txt "--")) s) as [| c s'] eqn:Ed; [discriminate |].
  destruct (is_ident c) eqn:Hc; [| discriminate].
  intros H. apply star_loop_class in H as (k & Hk & Hall & H).
  destruct (is_prefix (txt "(") (drop k s')) eqn:Hq; [| discriminate].
  apply is_prefix_split in Hq. injection H as <- <-.
  assert (s' = take k s' ++ "("%char :: drop (S k) s') as Hs'.
  { rewrite <- (take_drop k s') at 1. f_equal. rewrite Hq at 1.
    simpl. f_equal. rewrite drop_drop. f_equal. lia. }
  assert (s = txt "--" ++ c :: s') as Hs by (by rewrite Hp at 1).
  exists (txt "--" ++ c :: take k s').
  split; [simpl; by rewrite Hc, Hall |].
  assert (length (take k s') = k) as Hlen by (rewrite length_take; lia).
  set (w := txt "--" ++ c :: take k s').
  assert (s = w ++ "("%char :: drop (S k) s') as Hw.
  { unfold w. rewrite Hs. simpl. do 3 f_equal. exact Hs'. }
  assert (forall t, take (length w + 1) (w ++ "("%char :: t) = w ++ ["("%char])
    as Htake.
  { intros t. rewrite take_app_add'; [| reflexivity]. reflexivity. }
  split.
  - rewrite Hw at 1.
    match goal with
    | |- take ?n _ = _ =>
        replace n with (length w + 1) by (unfold w; simpl; lia)
    end.
    apply Htake.
  - unfold set_cap. simpl. f_equal.
    rewrite Hw at 1.
    match goal with
    | |- take ?n _ = _ =>
        replace n with (length w) by (unfold w; simpl; lia)
    end.
    apply take_app_length.
Qed.

Lemma matchAll_call_shape (code : text) (m : rmatch) :
  m ∈ matchAll callRegex code ->
  exists w, forallb is_ident w = true /\ m_full m = w ++ ["("%char] /\
            group m 1 = w.
Proof.
  intros Hin. apply matchAll_from_sound in Hin as (j & n & caps & Hm & ->).
  apply match_here_call_group in Hm as (w & Hw & Hfull & Hcap).
  exists w. unfold group. simpl. by rewrite Hcap.
Qed.

(** C10. When the loop of [resolveOnce] comes to a call whose identifier is
    not registered, wherever in the text the call stands and whatever was
    resolved before it, it writes the text up to the call and the head of
    the call (the identifier and its opening parenthesis) and goes on right
    behind that parenthesis: what follows, the argument list included, is
    resolved as a text of its own, so that a registered call among the
    arguments is resolved in the same pass.  When no call before it is
    registered either, the output starts with the text up to and including
    the head, unchanged. *)
Theorem resolveOnce_resumes_after_paren (code : text)
    (registry : gmap text FunctionDef) (ms1 ms2 : list rmatch) (m : rmatch) :
  matchAll callRegex code = ms1 ++ m :: ms2 ->
  registry !! group m 1 = None ->
  m_full m = group m 1 ++ ["("%char] /\
  slice code (m_index m) (m_end m) = m_full m /\
  resolveOnce code registry =
    (st ← resolveOnce_scan code registry ms1 [] 0;
     continue_after (fst st ++ slice code (snd st) (m_index m) ++ m_full m)
       (m_end m) (resolveOnce (drop (m_end m) code) registry)) /\
  (Forall (fun m' => registry !! group m' 1 = None) ms1 ->
   resolveOnce code registry =
     continue_after (take (m_end m) code) (m_end m)
       (resolveOnce (drop (m_end m) code) registry)).
Proof.
  intros Hsplit Hun.
  pose proof (matchAll_ok callRegex code) as Hok. rewrite Hsplit in Hok.
  pose proof (matches_ok_app _ _ _ _ _ Hok) as (_ & Hend & Hfull).
  assert (m ∈ matchAll callRegex code) as Hin
    by (rewrite Hsplit; apply elem_of_app; right; by left).
  destruct (matchAll_call_shape code m Hin) as (w & _ & Hw & Hg).
  split; [by rewrite Hg |]. split; [by rewrite Hfull |].
  pose proof (resolveOnce_at_unknown registry code ms1 ms2 m Hsplit Hun) as Hat.
  split; [exact Hat |].
  intros Hbefore. rewrite Hat.
  destruct (resolveOnce_scan_unknown registry code ms1 (m :: ms2) 0 Hok Hbefore)
    as (p & _ & (Hp & _) & Hscan).
  rewrite take_0 in Hscan. rewrite Hscan. cbn [mbind result_bind fst snd].
  do 2 f_equal. rewrite app_assoc, slice_extend by exact Hp.
  rewrite Hfull. apply slice_extend. unfold m_end. lia.
Qed.

Lemma resolveOnce_resumes_after_paren_witness :
  resolveOnce (txt "x: --u(1, --b())") nested_registry =
    Ok (txt "x: --u(1, --a(2))") /\
  resolveOnce (txt "--b() --u(1, --b())") nested_registry =
    Ok (txt "--a(2) --u(1, --a(2))").
Proof.
  split.
  - pose (m := mkMatch 3 (txt "--u(") (set_cap 1 (txt "--u") no_caps)).
    assert (matchAll callRegex (txt "x: --u(1, --b())") =
            [] ++ m :: [mkMatch 10 (txt "--b(") (set_cap 1 (txt "--b") no_caps)])
      as Hsplit by (vm_compute; reflexivity).
    destruct (resolveOnce_resumes_after_paren _ nested_registry _ _ m Hsplit eq_refl)
      as (_ & _ & _ & H).
    rewrite (H (List.Forall_nil _)). vm_compute. reflexivity.
  - pose (m := mkMatch 6 (txt "--u(") (set_cap 1 (txt "--u") no_caps)).
    assert (matchAll callRegex (txt "--b() --u(1, --b())") =
            [mkMatch 0 (txt "--b(") (set_cap 1 (txt "--b") no_caps)] ++
            m :: [mkMatch 13 (txt "--b(") (set_cap 1 (txt "--b") no_caps)])
      as Hsplit by (vm_compute; reflexivity).
    destruct (resolveOnce_resumes_after_paren _ nested_registry _ _ m Hsplit eq_refl)
      as (_ & _ & H & _).
    rewrite H. vm_compute. reflexivity.
Defined.

(** * An unregistered call, from its name to its closing parenthesis *)

(** Where no match starts before offset [d], the matches are those of the
    text from [d] on. *)
Lemma matchAll_from_skip_to (r : regex) (d : nat) :
  forall s idx,
    d <= length s ->
    (forall m, m ∈ matchAll_from r s idx 0 -> idx + d <= m_index m) ->
    matchAll_from r s idx 0 = matchAll_from r (drop d s) (idx + d) 0.
Proof.
  induction d as [| d IH]; intros s idx Hd Hall.
  - by rewrite drop_0, Nat.add_0_r.
  - destruct s as [| c s]; [simpl in Hd; lia |].
    cbn [matchAll_from drop] in *.
    destruct (match_here r (c :: s)) as [[n caps] |].
    + specialize (Hall _ ltac:(by left)). simpl in Hall. lia.
    + rewrite (IH s (S idx)).
      * f_equal. lia.
      * simpl in Hd. lia.
      * intros m Hm. apply Hall in Hm. lia.
Qed.

Lemma matchAll_behind (r : regex) (code : text) (q : nat) :
  q <= length code ->
  (forall m, m ∈ matchAll r code -> q <= m_index m) ->
  matchAll r code = map (shift q) (matchAll r (drop q code)).
Proof.
  intros Hq Hall. unfold matchAll.
  rewrite (matchAll_from_skip_to r q code 0 Hq).
  - rewrite <- matchAll_from_shift. f_equal. lia.
  - intros m Hm. apply Hall in Hm. lia.
Qed.

Lemma slice_drop (code : text) (p a b : nat) :
  slice (drop p code) a b = slice code (p + a) (p + b).
Proof. unfold slice. rewrite drop_drop. f_equal. lia. Qed.

Section Verbatim.
Variable registry : gmap text FunctionDef.

Lemma resolveOnce_loop_advance (code : text) (ms : list rmatch) (acc : text)
    (pos q : nat) :
  pos <= q ->
  match ms with [] => True | m :: _ => q <= m_index m end ->
  resolveOnce_loop code registry ms acc pos =
  resolveOnce_loop code registry ms (acc ++ slice code pos q) q.
Proof.
  intros Hpos Hq. destruct ms as [| m ms]; cbn [resolveOnce_loop].
  - unfold slice_from. by rewrite <- app_assoc, slice_then_drop.
  - cbv zeta. rewrite (slice_split code pos q (m_index m)) by lia.
    by rewrite !app_assoc.
Qed.

(** Up to an offset that no match straddles and before which no matched
    name is registered, the pass copies the text; behind it, it is a pass
    over the rest. *)
Lemma resolveOnce_verbatim_to (k : nat) :
  forall code q,
    length (matchAll callRegex code) = k ->
    q <= length code ->
    (forall m, m ∈ matchAll callRegex code -> m_index m < q ->
               registry !! group m 1 = None /\ m_end m <= q) ->
    resolveOnce code registry =
    continue_after (take q code) q (resolveOnce (drop q code) registry).
Proof.
  induction k as [| k IH]; intros code q Hk Hq Hall.
  - apply length_zero_iff_nil in Hk.
    assert (matchAll callRegex (drop q code) = []) as Hnone.
    { pose proof (matchAll_behind callRegex code q Hq) as H. rewrite Hk in H.
      specialize (H ltac:(intros m Hm; by apply elem_of_nil in Hm)).
      by destruct (matchAll callRegex (drop q code)). }
    unfold resolveOnce. rewrite Hk, Hnone. cbn [resolveOnce_loop continue_after].
    unfold slice_from. rewrite !drop_0, !app_nil_l. by rewrite take_drop.
  - destruct (matchAll callRegex code) as [| m ms] eqn:Hms; [discriminate |].
    destruct (decide (m_index m < q)) as [Hlt | Hge].
    + destruct (Hall m ltac:(by left) Hlt) as [Hun Hend].
      assert (matchAll callRegex code = [] ++ m :: ms) as Hsplit by exact Hms.
      pose proof (resolveOnce_at_unknown registry code [] ms m Hsplit Hun) as Hat.
      cbn [resolveOnce_scan mbind result_bind fst snd] in Hat.
      pose proof (matchAll_ok callRegex code) as Hok. rewrite Hms in Hok.
      destruct Hok as (_ & Hlen & Hfull & _).
      assert ([] ++ slice code 0 (m_index m) ++ m_full m = take (m_end m) code)
        as Hhead.
      { rewrite app_nil_l, Hfull, <- slice_split by (unfold m_end; lia).
        unfold slice. by rewrite drop_0, Nat.sub_0_r. }
      rewrite Hhead in Hat. rewrite Hat.
      pose proof (matchAll_tail _ callRegex_nonempty _ _ _ _ Hsplit) as Htail.
      rewrite (IH (drop (m_end m) code) (q - m_end m)).
      * rewrite continue_after_twice.
        replace (m_end m + (q - m_end m)) with q by lia.
        rewrite drop_drop.
        replace (m_end m + (q - m_end m)) with q by lia.
        f_equal. rewrite take_take_drop. f_equal. lia.
      * injection Hk as Hk. rewrite Htail, length_map in Hk. exact Hk.
      * rewrite length_drop. lia.
      * intros m' Hm' Hlt'.
        assert (shift (m_end m) m' ∈ m :: ms) as Hin.
        { right. rewrite Htail. apply list_elem_of_fmap. by exists m'. }
        destruct (Hall _ Hin) as [Hun' Hend'].
        { simpl. lia. }
        split; [exact Hun' |]. unfold m_end in *. simpl in Hend'. lia.
    + assert (forall m', m' ∈ matchAll callRegex code -> q <= m_index m')
        as Hbehind.
      { intros m' Hm'. rewrite Hms in Hm'.
        pose proof (matchAll_ok callRegex code) as Hok. rewrite Hms in Hok.
        apply elem_of_cons in Hm' as [-> | Hm']; [lia |].
        destruct Hok as (_ & _ & _ & Hok).
        apply list_elem_of_split in Hm' as (l1 & l2 & ->).
        apply matches_ok_app in Hok as (Hle & _). unfold m_end in Hle. lia. }
      pose proof (matchAll_behind callRegex code q Hq Hbehind) as Hskip.
      unfold resolveOnce at 1. rewrite Hskip.
      rewrite (resolveOnce_loop_advance code _ [] 0 q); [| lia |].
      * rewrite app_nil_l.
        assert (slice code 0 q = take q code) as ->
          by (unfold slice; by rewrite drop_0, Nat.sub_0_r).
        by apply resolveOnce_loop_behind.
      * destruct (matchAll callRegex (drop q code)) as [| m' ms']; [exact I |].
        simpl. lia.
Qed.
End Verbatim.

Lemma findMatchingBrace_close_char (code : text) (start e : nat) :
  findMatchingBrace code start = Ok e ->
  exists c, code !! e = Some c /\ is_close c = true.
Proof.
  unfold findMatchingBrace.
  destruct (findMatchingBrace_loop (drop start code) start 1) as [r |] eqn:E;
    [| discriminate].
  intros [= ->].
  apply findMatchingBrace_loop_closing in E as (k & c & -> & Hk & Hc); [| lia].
  rewrite lookup_drop in Hk. by exists c.
Qed.

Lemma is_close_plain (c : ascii) :
  is_close c = true -> is_ident c = false /\ c <> "("%char.
Proof.
  unfold is_close, chr_eqb. intros H.
  apply orb_true_iff in H as [H | H]; [apply orb_true_iff in H as [H | H] |];
    apply Ascii.eqb_eq in H as ->; by split.
Qed.

(** No match of the call pattern holds a closing bracket. *)
Lemma call_match_clear_of (code : text) (e : nat) (c : ascii) (m : rmatch) :
  code !! e = Some c -> is_close c = true ->
  m ∈ matchAll callRegex code ->
  m_end m <= e \/ e < m_index m.
Proof.
  intros He Hc Hin.
  destruct (decide (m_end m <= e)) as [| Hend]; [by left |].
  destruct (decide (e < m_index m)) as [| Hidx]; [by right |].
  exfalso.
  destruct (matchAll_call_shape code m Hin) as (w & Hw & Hfull & _).
  pose proof (matchAll_ok callRegex code) as Hok.
  apply list_elem_of_split in Hin as (l1 & l2 & Hsplit). rewrite Hsplit in Hok.
  apply matches_ok_app in Hok as (_ & Hlen & Hslice).
  assert (m_full m !! (e - m_index m) = Some c) as Hlook.
  { rewrite Hslice. unfold slice. rewrite lookup_take_lt by lia.
    rewrite lookup_drop. rewrite <- He. f_equal. lia. }
  rewrite Hfull in Hlook. apply is_close_plain in Hc as [Hci Hcp].
  apply list_elem_of_lookup_2 in Hlook.
  apply elem_of_app in Hlook as [Hlook | Hlook].
  - rewrite forallb_forall in Hw. apply list_elem_of_In, Hw in Hlook. congruence.
  - apply list_elem_of_singleton in Hlook. congruence.
Qed.

(** C6, amended.  A call whose identifier is not in the function registry
    raises nothing and its head is written out as it stands.  The whole
    call, from its identifier to the parenthesis that
    closes it, comes out unchanged, wherever it stands and whatever was
    resolved before it, provided that no call matched among its arguments
    is registered; the pass then goes on behind the closing parenthesis.
    A text in which no matched identifier is registered is returned
    unchanged, and the text before the first call with a registered
    identifier is the beginning of the output. *)
Theorem resolveOnce_unknown_verbatim (code : text) (registry : gmap text FunctionDef) :
  ((forall m, m ∈ matchAll callRegex code -> registry !! group m 1 = None) ->
   resolveOnce code registry = Ok code) /\
  (forall ms1 m ms2 argsEnd,
     matchAll callRegex code = ms1 ++ m :: ms2 ->
     registry !! group m 1 = None ->
     findMatchingBrace code (m_end m) = Ok argsEnd ->
     (forall m', m' ∈ ms2 -> m_index m' < argsEnd ->
                 registry !! group m' 1 = None) ->
     resolveOnce code registry =
       (st ← resolveOnce_scan code registry ms1 [] 0;
        continue_after
          (fst st ++ slice code (snd st) (m_index m) ++
           slice code (m_index m) (argsEnd + 1))
          (argsEnd + 1) (resolveOnce (drop (argsEnd + 1) code) registry)) /\
     (Forall (fun m' => registry !! group m' 1 = None) ms1 ->
      resolveOnce code registry =
        continue_after (take (argsEnd + 1) code) (argsEnd + 1)
          (resolveOnce (drop (argsEnd + 1) code) registry))) /\
  (forall ms1 m ms2 def out,
     matchAll callRegex code = ms1 ++ m :: ms2 ->
     Forall (fun m' => registry !! group m' 1 = None) ms1 ->
     registry !! group m 1 = Some def ->
     resolveOnce code registry = Ok out ->
     exists b, out = take (m_index m) code ++ b).
Proof.
  split; [| split].
  - intros Hun. unfold resolveOnce.
    apply (resolveOnce_loop_unknown registry code _ 0).
    + apply matchAll_ok.
    + by apply Forall_forall.
  - intros ms1 m ms2 argsEnd Hsplit Hun Hbrace Hargs.
    pose proof (matchAll_ok callRegex code) as Hok. rewrite Hsplit in Hok.
    pose proof (matches_ok_app _ _ _ _ _ Hok) as (Hidx & Hend & Hfull).
    pose proof (findMatchingBrace_range _ _ _ Hbrace) as Hrange.
    destruct (findMatchingBrace_close_char _ _ _ Hbrace) as (c & Hc & Hclose).
    pose proof (matchAll_tail _ callRegex_nonempty _ _ _ _ Hsplit) as Htail.
    assert (resolveOnce (drop (m_end m) code) registry =
            continue_after (slice code (m_end m) (argsEnd + 1))
              (argsEnd + 1 - m_end m)
              (resolveOnce (drop (argsEnd + 1) code) registry)) as Hrest.
    { rewrite (resolveOnce_verbatim_to registry _ (drop (m_end m) code)
                 (argsEnd + 1 - m_end m) eq_refl).
      - rewrite drop_drop.
        replace (m_end m + (argsEnd + 1 - m_end m)) with (argsEnd + 1) by lia.
        reflexivity.
      - rewrite length_drop. lia.
      - intros m' Hm' Hlt.
        assert (shift (m_end m) m' ∈ ms2) as Hin2
          by (rewrite Htail; apply list_elem_of_fmap; by exists m').
        assert (shift (m_end m) m' ∈ matchAll callRegex code) as Hin
          by (rewrite Hsplit; apply elem_of_app; right; by right).
        destruct (call_match_clear_of code argsEnd c _ Hc Hclose Hin) as [Hle | Hgt].
        + unfold m_end in *. simpl in Hle. split; [| lia].
          apply (Hargs _ Hin2). simpl.
          pose proof (matchAll_call_shape _ _ Hin) as (w & _ & Hw & _).
          simpl in Hw. rewrite Hw, length_app in Hle. simpl in Hle. lia.
        + simpl in Hgt. lia. }
    assert (resolveOnce code registry =
            (st ← resolveOnce_scan code registry ms1 [] 0;
             continue_after
               (fst st ++ slice code (snd st) (m_index m) ++
                slice code (m_index m) (argsEnd + 1))
               (argsEnd + 1) (resolveOnce (drop (argsEnd + 1) code) registry)))
      as Hmain.
    { rewrite (resolveOnce_at_unknown registry code ms1 ms2 m Hsplit Hun), Hrest.
      destruct (resolveOnce_scan code registry ms1 [] 0) as [[written lastIdx] | err];
        [| reflexivity].
      cbn [mbind result_bind fst snd]. rewrite continue_after_twice.
      replace (m_end m + (argsEnd + 1 - m_end m)) with (argsEnd + 1) by lia.
      f_equal. rewrite <- !app_assoc. do 2 f_equal.
      rewrite Hfull. symmetry. apply slice_split; unfold m_end in *; lia. }
    split; [exact Hmain |].
    intros Hbefore. rewrite Hmain.
    destruct (resolveOnce_scan_unknown registry code ms1 (m :: ms2) 0 Hok Hbefore)
      as (p & _ & (Hp & _) & Hscan).
    rewrite take_0 in Hscan. rewrite Hscan. cbn [mbind result_bind fst snd].
    f_equal. rewrite app_assoc, slice_extend by exact Hp.
    apply slice_extend. unfold m_end in *. lia.
  - intros ms1 m ms2 def out Hsplit Hun Hm Hout. unfold resolveOnce in Hout.
    pose proof (matchAll_ok callRegex code) as Hok. rewrite Hsplit in Hok, Hout.
    destruct (resolveOnce_loop_unknown_prefix registry code ms1 (m :: ms2) 0 Hok Hun)
      as (p & _ & (Hp & _) & Heq).
    rewrite take_0 in Heq. rewrite Heq in Hout.
    cbn [resolveOnce_loop] in Hout. rewrite Hm in Hout.
    rewrite slice_extend in Hout by exact Hp.
    destruct (findMatchingBrace code _) as [argsEnd | e]; [| discriminate].
    destruct (extractResult (fn_body def)) as [expr | e]; [| discriminate].
    cbn [mbind result_bind] in Hout.
    apply resolveOnce_loop_extends in Hout as [b ->].
    rewrite <- app_assoc. by eexists.
Qed.

Lemma resolveOnce_unknown_verbatim_witness :
  (forall m, m ∈ matchAll callRegex (txt "x: --u(1, --v(2));") ->
             nested_registry !! group m 1 = None) /\
  resolveOnce (txt "x: --u(1, --v(2));") nested_registry =
    Ok (txt "x: --u(1, --v(2));") /\
  resolveOnce (txt "--b() --u(1, --v(2)) z") nested_registry =
    Ok (txt "--a(2) --u(1, --v(2)) z").
Proof.
  assert (forall m, m ∈ matchAll callRegex (txt "x: --u(1, --v(2));") ->
                    nested_registry !! group m 1 = None) as H.
  { intros m Hm. vm_compute in Hm.
    apply elem_of_cons in Hm as [-> | Hm]; [vm_compute; reflexivity |].
    apply list_elem_of_singleton in Hm as ->. vm_compute. reflexivity. }
  split; [exact H |].
  split; [exact (proj1 (resolveOnce_unknown_verbatim _ nested_registry) H) |].
  pose (m := mkMatch 6 (txt "--u(") (set_cap 1 (txt "--u") no_caps)).
  pose (v := mkMatch 13 (txt "--v(") (set_cap 1 (txt "--v") no_caps)).
  assert (matchAll callRegex (txt "--b() --u(1, --v(2)) z") =
          [mkMatch 0 (txt "--b(") (set_cap 1 (txt "--b") no_caps)] ++ m :: [v])
    as Hsplit by (vm_compute; reflexivity).
  assert (forall m', m' ∈ [v] -> m_index m' < 19 ->
                     nested_registry !! group m' 1 = None) as Hargs.
  { intros m' Hm' _. apply list_elem_of_singleton in Hm' as ->.
    vm_compute. reflexivity. }
  destruct (proj1 (proj2 (resolveOnce_unknown_verbatim
                            (txt "--b() --u(1, --v(2)) z") nested_registry))
              _ m _ 19 Hsplit eq_refl eq_refl Hargs) as [Hsite _].
  rewrite Hsite. vm_compute. reflexivity.
Defined.

(** * A declaration without a result clause *)

Section ExtractAny.
Variable code : text.

Lemma extractFunctions_loop_app (ms1 ms2 : list rmatch) :
  forall registry removals,
    extractFunctions_loop code (ms1 ++ ms2) registry removals =
    (st ← extractFunctions_loop code ms1 registry removals;
     extractFunctions_loop code ms2 (fst st) (snd st)).
Proof.
  induction ms1 as [| m ms1 IH]; intros registry removals; [reflexivity |].
  cbn [app extractFunctions_loop].
  destruct (findMatchingBrace code _) as [bodyEnd | e]; [| reflexivity].
  cbn [mbind result_bind]. apply IH.
Qed.

Lemma extractFunctions_loop_total (ms : list rmatch) :
  forall registry removals,
    (forall m, m ∈ ms -> exists bodyEnd, findMatchingBrace code (m_end m) = Ok bodyEnd) ->
    exists registry' removals',
      extractFunctions_loop code ms registry removals = Ok (registry', removals').
Proof.
  induction ms as [| m ms IH]; intros registry removals Hall.
  - by exists registry, removals.
  - cbn [extractFunctions_loop]. fold (m_end m).
    destruct (Hall m ltac:(by left)) as [bodyEnd ->]. cbn [mbind result_bind].
    apply IH. intros m' Hm'. apply Hall. by right.
Qed.

Lemma extractFunctions_loop_other (ms : list rmatch) (k : text) :
  forall registry removals registry' removals',
    extractFunctions_loop code ms registry removals = Ok (registry', removals') ->
    (forall m, m ∈ ms -> group m 1 <> k) ->
    registry' !! k = registry !! k /\ exists new, removals' = removals ++ new.
Proof.
  induction ms as [| m ms IH]; intros registry removals registry' removals' H Hk.
  - simpl in H. injection H as <- <-. split; [reflexivity |].
    exists []. by rewrite app_nil_r.
  - cbn [extractFunctions_loop] in H.
    destruct (findMatchingBrace code _) as [bodyEnd | e]; [| discriminate].
    cbn [mbind result_bind] in H.
    apply IH in H as [Hreg [new ->]].
    + split.
      * rewrite Hreg. apply lookup_insert_ne. apply Hk. by left.
      * eexists. by rewrite <- app_assoc.
    + intros m' Hm'. apply Hk. by right.
Qed.
End ExtractAny.

Section CallWithoutResult.
Variables (code : text) (registry : gmap text FunctionDef).

Lemma resolveOnce_scan_ok (ms : list rmatch) :
  forall acc lastIdx,
    Forall (call_resolves code registry) ms ->
    exists st, resolveOnce_scan code registry ms acc lastIdx = Ok st.
Proof.
  induction ms as [| m ms IH]; intros acc lastIdx Hall.
  - by eexists.
  - apply Forall_cons in Hall as [Hm Hall].
    cbn [resolveOnce_scan]. unfold call_resolves in Hm. fold (m_end m).
    destruct (registry !! group m 1) as [def |]; [| by apply IH].
    destruct Hm as [[argsEnd ->] [expr ->]]. cbn [mbind result_bind].
    by apply IH.
Qed.

Lemma resolveFunctionCalls_first_error (e : error) :
  resolveOnce code registry = Err e -> resolveFunctionCalls code registry = Err e.
Proof.
  intros H. unfold resolveFunctionCalls, MAX_RECURSION_DEPTH.
  cbn [resolveFunctionCalls_loop]. by rewrite H.
Qed.
End CallWithoutResult.

(** C4. Extraction does not look for a result clause: [extractFunctions]
    never raises the missing-result error, and when every header of the
    source has its closing brace it returns, with every declaration
    registered under its name with its parameters and the text between its
    braces (the last declaration of a name is the one that stays) and with
    the span of every declaration among the spans to remove.  Resolution
    does look: a pass over a text that holds a call, anywhere in it, to a
    function whose body has no result clause never returns; it raises the
    missing-result error when it gets as far as that call and the call's
    parenthesis has its match, and [resolveFunctionCalls] raises what the
    pass raises. *)
Theorem missing_result_raised_at_call (source code : text)
    (registry functions : gmap text FunctionDef) :
  (forall e, extractFunctions source registry = Err e -> e <> MissingResult) /\
  ((forall m, m ∈ matchAll functionRegex source ->
              exists bodyEnd, findMatchingBrace source (m_end m) = Ok bodyEnd) ->
   exists registry' removals,
     extractFunctions source registry = Ok (registry', removals) /\
     forall ms1 m ms2 bodyEnd,
       matchAll functionRegex source = ms1 ++ m :: ms2 ->
       (forall m', m' ∈ ms2 -> group m' 1 <> group m 1) ->
       findMatchingBrace source (m_end m) = Ok bodyEnd ->
       registry' !! group m 1 =
         Some (mkFunctionDef (group m 1) (fst (parseParams (group m 2)))
                 (slice source (m_end m) bodyEnd)) /\
       (m_index m, bodyEnd + 1) ∈ removals) /\
  (forall ms1 m ms2 def,
     matchAll callRegex code = ms1 ++ m :: ms2 ->
     functions !! group m 1 = Some def ->
     extractResult (fn_body def) = Err MissingResult ->
     (exists e, resolveOnce code functions = Err e /\
                resolveFunctionCalls code functions = Err e) /\
     (Forall (call_resolves code functions) ms1 ->
      (exists argsEnd, findMatchingBrace code (m_end m) = Ok argsEnd) ->
      resolveOnce code functions = Err MissingResult /\
      resolveFunctionCalls code functions = Err MissingResult)).
Proof.
  split; [| split].
  - intros e He. unfold extractFunctions in He.
    apply extractFunctions_loop_error in He as (m & _ & -> & _). discriminate.
  - intros Hall.
    destruct (extractFunctions_loop_total source _ registry [] Hall)
      as (registry' & removals & Hext).
    exists registry', removals. split; [exact Hext |].
    intros ms1 m ms2 bodyEnd Hsplit Hlast Hbrace.
    unfold extractFunctions in Hext.
    rewrite Hsplit, extractFunctions_loop_app in Hext.
    destruct (extractFunctions_loop source ms1 registry [])
      as [[registry1 removals1] | e]; [| discriminate].
    cbn [mbind result_bind fst snd extractFunctions_loop] in Hext.
    fold (m_end m) in Hext. rewrite Hbrace in Hext.
    cbn [mbind result_bind] in Hext.
    apply (extractFunctions_loop_other source ms2 (group m 1)) in Hext
      as [Hreg [new ->]]; [| exact Hlast].
    split.
    + rewrite Hreg. apply lookup_insert_eq.
    + apply elem_of_app. left. apply elem_of_app. right. by left.
  - intros ms1 m ms2 def Hsplit Hdef Hres.
    assert (resolveOnce code functions =
            (st ← resolveOnce_scan code functions ms1 [] 0;
             argsEnd ← findMatchingBrace code (m_end m);
             Err MissingResult)) as Hpass.
    { unfold resolveOnce. rewrite Hsplit, resolveOnce_loop_app.
      destruct (resolveOnce_scan code functions ms1 [] 0) as [st | e];
        [| reflexivity].
      cbn [mbind result_bind resolveOnce_loop]. rewrite Hdef. fold (m_end m).
      destruct (findMatchingBrace code (m_end m)) as [argsEnd | e];
        [| reflexivity].
      cbn [mbind result_bind]. by rewrite Hres. }
    split.
    + assert (exists e, resolveOnce code functions = Err e) as [e He].
      { rewrite Hpass.
        destruct (resolveOnce_scan code functions ms1 [] 0) as [st | e];
          [| by eexists].
        cbn [mbind result_bind].
        destruct (findMatchingBrace code (m_end m)); by eexists. }
      exists e. split; [exact He | by apply resolveFunctionCalls_first_error].
    + intros Hbefore [argsEnd Hbrace].
      assert (resolveOnce code functions = Err MissingResult) as He.
      { rewrite Hpass.
        destruct (resolveOnce_scan_ok code functions ms1 [] 0 Hbefore) as [st ->].
        cbn [mbind result_bind]. by rewrite Hbrace. }
      split; [exact He | by apply resolveFunctionCalls_first_error].
Qed.

Lemma missing_result_raised_at_call_witness :
  let source := txt "a { b: c } @function --f(--x: 1) { color: red; } d { }" in
  let code := txt "a { width: --b(); height: --f(3); }" in
  let def :=
    mkFunctionDef (txt "--f") [mkParam (txt "--x") (Some (txt "1"))]
      (txt " color: red; ") in
  let registry' := <[txt "--f" := def]> nested_registry in
  extractFunctions source nested_registry = Ok (registry', [(11, 48)]) /\
  resolveOnce code registry' = Err MissingResult /\
  resolveFunctionCalls code registry' = Err MissingResult.
Proof.
  intros source code def registry'.
  pose (h := mkMatch 11 (txt "@function --f(--x: 1) {")
               (set_cap 2 (txt "--x: 1") (set_cap 1 (txt "--f") no_caps))).
  assert (matchAll functionRegex source = [] ++ h :: []) as Hheaders
    by (vm_compute; reflexivity).
  assert (forall m, m ∈ matchAll functionRegex source ->
                    exists bodyEnd, findMatchingBrace source (m_end m) = Ok bodyEnd)
    as Hclosed.
  { intros m Hm. rewrite Hheaders in Hm. apply list_elem_of_singleton in Hm as ->.
    exists 47. vm_compute. reflexivity. }
  destruct (proj1 (proj2 (missing_result_raised_at_call source code
                            nested_registry registry')) Hclosed)
    as (extracted & removals & Hext & Hreg).
  destruct (Hreg [] h [] 47 Hheaders) as [Hf Hspan].
  { intros m' Hm'. by apply elem_of_nil in Hm'. }
  { vm_compute. reflexivity. }
  assert (extractFunctions source nested_registry = Ok (registry', [(11, 48)]))
    as Hrun by (vm_compute; reflexivity).
  split; [exact Hrun |].
  pose (b := mkMatch 11 (txt "--b(") (set_cap 1 (txt "--b") no_caps)).
  pose (f := mkMatch 26 (txt "--f(") (set_cap 1 (txt "--f") no_caps)).
  assert (matchAll callRegex code = [b] ++ f :: []) as Hcalls
    by (vm_compute; reflexivity).
  assert (registry' !! group f 1 = Some def) as Hdef.
  { rewrite Hrun in Hext. injection Hext as <- _. etrans; [exact Hf |].
    vm_compute. reflexivity. }
  apply (proj2 (proj2 (proj2 (missing_result_raised_at_call source code
                                nested_registry registry'))
                  [b] f [] def Hcalls Hdef eq_refl)).
  - constructor; [| constructor].
    unfold call_resolves.
    replace (registry' !! group b 1) with (Some fn_b) by (vm_compute; reflexivity).
    split; eexists; vm_compute; reflexivity.
  - exists 31. vm_compute. reflexivity.
Defined.

(** * Apply sites the pattern does not take whole *)

(** C5, as stated, fails.  The apply pattern reads an argument list up to
    the first closing parenthesis and a block up to the first closing
    brace.  A site whose argument holds a parenthesis is no match at all: it
    stays as it is and no comment is written.  Of a site whose block holds a
    block, the match ends at the inner closing brace: the comment takes its
    place and the outer closing brace is left behind. *)
Lemma unknown_apply_site_counterexample :
  box_registry !! txt "--nope" = None /\
  resolveMixinsOnce (txt "a { @apply --nope(calc(1)); }") box_registry =
    txt "a { @apply --nope(calc(1)); }" /\
  occurs (txt "Unknown mixin")
    (resolveMixinsOnce (txt "a { @apply --nope(calc(1)); }") box_registry) = false /\
  resolveMixinsOnce (txt "@apply --nope { .a { color: red; } }") box_registry =
    txt "/* Unknown mixin: --nope */}".
Proof. repeat split; vm_compute; reflexivity. Qed.

(** * Declarations inside declarations *)

(** The spans [extractFunctions] returns start at ever larger offsets, but
    they need not lie one behind the other: a declaration inside the body of
    another gives a span inside a span.  [stripDefinitions] on such spans
    takes out text that lies outside them: here the rule behind the
    declarations is lost, and [transform] returns the empty text. *)
Lemma nested_declarations_overlap :
  let code :=
    txt "@function --a() { @function --b() { result: 1; } result: 2; } c { d: e; }" in
  (exists registry,
     extractFunctions code ∅ = Ok (registry, [(0, 61); (18, 48)])) /\
  ~ spans_ascending [(0, 61); (18, 48)] /\
  in_spans 65 [(0, 61); (18, 48)] = false /\
  stripDefinitions code [(0, 61); (18, 48)] = [] /\
  exists st, transform code (txt "a.css") (mkRegistries ∅ ∅) = Ok (Some [], st).
Proof.
  intros code. split; [| split; [| split; [| split]]].
  - eexists. vm_compute. reflexivity.
  - unfold spans_ascending. simpl. lia.
  - reflexivity.
  - vm_compute. reflexivity.
  - eexists. vm_compute. reflexivity.
Qed.

(** * The variant keeps fallbacks *)

Lemma transformExcludingRanges_one_witness :
  let functions : gmap text FunctionDef :=
    <[txt "--f" := mkFunctionDef (txt "--f") [mkParam (txt "--x") None]
                     (txt " result: var(--x, 9) var(--q, 8); ")]> ∅ in
  let decl := txt "@function --f(--x) { result: var(--x, 9) var(--q, 8); }" in
  transformExcludingRanges (txt "a: --f(); " ++ decl ++ txt " b: --f(3);")
    [(10, 10 + 55)] ∅ functions false =
    Ok (txt "a: var(--x, 9) var(--q, 8); " ++ decl ++ txt " b: 3 var(--q, 8);") /\
  transformExcludingRanges (txt "a: --f(); " ++ decl ++ txt " b: --f(3);")
    [(10, 10 + 55)] ∅ functions true =
    Ok (txt "a: var(--x, 9) var(--q, 8); " ++ txt " b: 3 var(--q, 8);").
Proof.
  intros functions decl. split.
  - etrans; [exact (transformExcludingRanges_one (txt "a: --f(); ") decl
                      (txt " b: --f(3);") ∅ functions false) |].
    vm_compute. reflexivity.
  - etrans; [exact (transformExcludingRanges_one (txt "a: --f(); ") decl
                      (txt " b: --f(3);") ∅ functions true) |].
    vm_compute. reflexivity.
Defined.

(** * Blanking keeps the lines *)

(** C9, amended.  Blanking keeps every newline, whatever the order of the
    spans and whether or not they overlap, as long as none ends before it
    starts; the spans that [extractFunctions] and [extractMixins] return are
    of that kind.  For spans listed in the order of the text, none starting
    before the previous one ends, the output is the input without the
    characters that lie in a span and are not newlines, so every character
    outside the spans is as it was. *)
Theorem stripDefinitions_keeps_lines (code : text) (spans : list (nat * nat)) :
  (Forall span_ok spans ->
   count_newlines (stripDefinitions code spans) = count_newlines code) /\
  (spans_ascending spans ->
   stripDefinitions code spans = blank_spans code spans) /\
  (forall source functions functions',
     extractFunctions source functions = Ok (functions', spans) ->
     Forall span_ok spans) /\
  (forall source mixins mixins',
     extractMixins source mixins = Ok (mixins', spans) ->
     Forall span_ok spans).
Proof.
  split; [| split; [| split]].
  - apply stripDefinitions_newlines.
  - apply stripDefinitions_ascending.
  - intros source functions functions' H. unfold extractFunctions in H.
    apply extractFunctions_loop_spec in H as ((new & Hnew & _ & Hwf) & _);
      [| done].
    simpl in Hnew. subst new.
    eapply Forall_impl; [exact Hwf |]. unfold span_ok. simpl. intros; lia.
  - intros source mixins mixins' H. unfold extractMixins in H.
    eapply extractMixins_loop_spans; [exact H | constructor].
Qed.

Lemma stripDefinitions_keeps_lines_witness :
  let code := txt "a {" ++ newline :: txt "  b }" ++ newline :: txt "c" in
  let spans := [(0, 3); (4, 9)] in
  Forall span_ok spans /\ spans_ascending spans /\
  count_newlines (stripDefinitions code spans) = count_newlines code /\
  stripDefinitions code spans = blank_spans code spans.
Proof.
  intros code spans.
  assert (Forall span_ok spans) as Hok by (repeat constructor; simpl; lia).
  assert (spans_ascending spans) as Hasc by (unfold spans_ascending; simpl; lia).
  split; [exact Hok | split; [exact Hasc |]].
  split.
  - exact (proj1 (stripDefinitions_keeps_lines code spans) Hok).
  - exact (proj1 (proj2 (stripDefinitions_keeps_lines code spans)) Hasc).
Defined.
